(** * Verification of the debugger-session closure extractor (closure.ts)

    A shallow embedding of [src/typescript/src/closure.ts].  JavaScript
    strings are sequences of UTF-16 code units, asynchronous code is
    sequential state passing over the debugger session and the log, a
    rejected promise or a thrown value is the left injection of a sum.

    The first part holds the embedding: the functions of the source, the
    parts of the platform they call (the regular expression, [indexOf],
    [split], the event emitter and promises, [Buffer], [JSON]) and the
    notions the statements use.  The second part holds the proofs. *)

From Stdlib Require Import ZArith NArith Ascii String List Lia Bool Sorted.
From stdpp Require Import gmap list.
Import ListNotations.

Local Open Scope N_scope.

(** ** JavaScript strings *)

(** A JavaScript string is a finite sequence of UTF-16 code units. *)
Definition JsString := list N.

(** The code units of an ASCII literal. *)
Fixpoint js (s : string) : JsString :=
  match s with
  | EmptyString => []
  | String a s' => N_of_ascii a :: js s'
  end.

Module Regex.

(** *** The fragment of ECMAScript regular expressions used by the source

    A pattern is a sequence of terms, matched left to right by
    backtracking; every quantifier of the source pattern is greedy and
    ranges over a single character class. *)
Inductive term :=
  | TChar (c : N)                  (* a literal code unit *)
  | TSet (p : N -> bool)           (* a character class, one code unit *)
  | TStar (p : N -> bool)          (* class*, greedy *)
  | TGroupPlus (p : N -> bool)     (* (class+), greedy, capture group 1 *)
  | TEnd.                          (* $ under the m flag *)

(** LineTerminator :: LF | CR | LS | PS *)
Definition isLineTerminator (c : N) : bool :=
  (c =? 10) || (c =? 13) || (c =? 8232) || (c =? 8233).

(** [\s]: WhiteSpace and LineTerminator code units. *)
Definition isSpace (c : N) : bool :=
  (c =? 9) || (c =? 11) || (c =? 12) || (c =? 32) || (c =? 160)
  || (c =? 5760) || ((8192 <=? c) && (c <=? 8202)) || (c =? 8239)
  || (c =? 8287) || (c =? 12288) || (c =? 65279) || isLineTerminator c.

(** [.] without the s flag: anything but a line terminator. *)
Definition isDot (c : N) : bool := negb (isLineTerminator c).

(** Greedy [class*] followed by the continuation [k]: the longest run is
    tried first, shorter ones on failure of [k]. *)
Fixpoint starK {X} (p : N -> bool) (k : JsString -> option X) (s : JsString)
  : option X :=
  match s with
  | c :: s' =>
      if p c then
        match starK p k s' with
        | Some r => Some r
        | None => k s
        end
      else k s
  | [] => k s
  end.

(** Greedy [(class+)] followed by [k]; [acc] is the text captured so far. *)
Fixpoint plusK {X} (p : N -> bool) (acc : JsString)
  (k : JsString -> JsString -> option X) (s : JsString) : option X :=
  match s with
  | c :: s' =>
      if p c then
        match plusK p (acc ++ [c]) k s' with
        | Some r => Some r
        | None => k (acc ++ [c]) s'
        end
      else None
  | [] => None
  end.

(** Match the terms [ts] at the start of [s]; the result is capture
    group 1 ([cap] until the group has been matched). *)
Fixpoint run (ts : list term) (cap : JsString) (s : JsString)
  : option JsString :=
  match ts with
  | [] => Some cap
  | TChar c :: ts' =>
      match s with
      | x :: s' => if x =? c then run ts' cap s' else None
      | [] => None
      end
  | TSet p :: ts' =>
      match s with
      | x :: s' => if p x then run ts' cap s' else None
      | [] => None
      end
  | TStar p :: ts' => starK p (run ts' cap) s
  | TGroupPlus p :: ts' => plusK p [] (fun v s' => run ts' v s') s
  | TEnd :: ts' =>
      match s with
      | [] => run ts' cap s
      | x :: _ => if isLineTerminator x then run ts' cap s else None
      end
  end.

(** [String.prototype.match] with a non-global pattern: the start
    positions are tried from left to right, the first success wins. *)
Fixpoint exec (ts : list term) (s : JsString) : option JsString :=
  match run ts [] s with
  | Some v => Some v
  | None =>
      match s with
      | [] => None
      | _ :: s' => exec ts s'
      end
  end.

End Regex.

(** ** String.prototype.indexOf and String.prototype.split *)

Fixpoint startsWith (sep s : JsString) : bool :=
  match sep, s with
  | [], _ => true
  | a :: sep', b :: s' => (a =? b) && startsWith sep' s'
  | _ :: _, [] => false
  end.

(** Position of the first occurrence of [sep] in [s], or -1. *)
Fixpoint indexOf (sep s : JsString) : Z :=
  if startsWith sep s then 0%Z
  else
    match s with
    | [] => (-1)%Z
    | _ :: s' =>
        let i := indexOf sep s' in
        if (i <? 0)%Z then (-1)%Z else (i + 1)%Z
    end.

(** [s.split(sep)] for a non-empty separator, scanning left to right:
    [cur] is the piece being read and [skip] counts the code units of a
    separator occurrence still to pass over. *)
Fixpoint split_go (sep : JsString) (skip : nat) (cur s : JsString)
  : list JsString :=
  match s with
  | [] => [cur]
  | c :: s' =>
      match skip with
      | S n => split_go sep n cur s'
      | O =>
          if startsWith sep s
          then cur :: split_go sep (length sep - 1) [] s'
          else split_go sep 0 (cur ++ [c]) s'
      end
  end.

Definition split (sep s : JsString) : list JsString := split_go sep 0 [] s.

(** ** SourceMapCodec: extractSourceMapUrl *)

(** What a JavaScript expression of type [string | null | undefined]
    evaluates to. *)
Inductive JsResult :=
  | JsNull
  | JsUndefined
  | JsStr (s : JsString).

(** [/\/\/[#@]\s*sourceMappingURL=(.+)$/m] *)
Definition isHashOrAt (c : N) : bool := (c =? 35) || (c =? 64).

Definition marker_literal : JsString :=
  Eval vm_compute in js "sourceMappingURL=".

Definition sourceMapRegex : list Regex.term :=
  [Regex.TChar 47; Regex.TChar 47; Regex.TSet isHashOrAt;
   Regex.TStar Regex.isSpace]
  ++ map Regex.TChar marker_literal
  ++ [Regex.TGroupPlus Regex.isDot; Regex.TEnd].

Definition base64_marker : JsString := Eval vm_compute in js "base64,".

Definition extractSourceMapUrl (fileContent : JsString) : JsResult :=
  match Regex.exec sourceMapRegex fileContent with
  | Some m1 =>
      if (indexOf base64_marker m1 >? -1)%Z then
        match nth_error (split base64_marker m1) 1 with
        | Some piece => JsStr piece
        | None => JsUndefined
        end
      else JsStr m1
  | None => JsNull
  end.

(** *** Marker comments, as the specification describes them *)

(** [s] starts with a marker comment carrying [v]: two slashes, [#] or
    [@], white space (line breaks included), the literal
    [sourceMappingURL=], then the non-empty value [v], which runs to the
    end of its line. *)
Definition marker_at (s v : JsString) : Prop :=
  ∃ c ws rest,
    s = [47; 47; c] ++ ws ++ marker_literal ++ v ++ rest ∧
    (c = 35 ∨ c = 64) ∧
    Forall (fun x => Regex.isSpace x = true) ws ∧
    v ≠ [] ∧
    Forall (fun x => Regex.isLineTerminator x = false) v ∧
    (rest = [] ∨ ∃ x rest', rest = x :: rest' ∧ Regex.isLineTerminator x = true).

(** [v] is the value of the first marker of [text], reading from the top. *)
Definition first_marker (text v : JsString) : Prop :=
  ∃ pre s,
    text = pre ++ s ∧ marker_at s v ∧
    ∀ pre' s' v', text = pre' ++ s' → (length pre' < length pre)%nat →
                  ¬ marker_at s' v'.

Definition no_marker (text : JsString) : Prop :=
  ∀ pre s v, text = pre ++ s → ¬ marker_at s v.

(** [sep] occurs in [s] between [a] and [r], and nowhere further left. *)
Definition first_occurrence (sep s a r : JsString) : Prop :=
  s = a ++ sep ++ r ∧
  ∀ a' r', s = a' ++ sep ++ r' → (length a ≤ length a')%nat.

Definition no_occurrence (sep s : JsString) : Prop :=
  ∀ a r, s ≠ a ++ sep ++ r.

(** The lines of a text. *)
Fixpoint lines_go (cur s : JsString) : list JsString :=
  match s with
  | [] => [cur]
  | c :: s' =>
      if Regex.isLineTerminator c then cur :: lines_go [] s'
      else lines_go (cur ++ [c]) s'
  end.

Definition lines (text : JsString) : list JsString := lines_go [] text.

(** The values of the marker lines of a text, from top to bottom. *)
Definition marker_lines (text : JsString) : list JsString :=
  omap (Regex.exec sourceMapRegex) (lines text).

(** *** The match at one start position, without backtracking *)

Fixpoint take_while (p : N -> bool) (s : JsString) : JsString :=
  match s with
  | c :: s' => if p c then c :: take_while p s' else []
  | [] => []
  end.

Fixpoint drop_while (p : N -> bool) (s : JsString) : JsString :=
  match s with
  | c :: s' => if p c then drop_while p s' else s
  | [] => []
  end.

Fixpoint strip_prefix (pre s : JsString) : option JsString :=
  match pre, s with
  | [], _ => Some s
  | a :: pre', b :: s' => if b =? a then strip_prefix pre' s' else None
  | _ :: _, [] => None
  end.

(** [$] under the m flag holds before [s]. *)
Definition at_line_end (s : JsString) : bool :=
  match s with
  | [] => true
  | x :: _ => Regex.isLineTerminator x
  end.

(** The value of the marker comment [s] starts with, if there is one. *)
Definition marker_value (s : JsString) : option JsString :=
  match s with
  | 47 :: 47 :: c :: s1 =>
      if isHashOrAt c then
        match strip_prefix marker_literal (drop_while Regex.isSpace s1) with
        | Some s3 =>
            match take_while Regex.isDot s3 with
            | [] => None
            | v => Some v
            end
        | None => None
        end
      else None
  | _ => None
  end.

(** ** Values, remote objects and the pause event (Chrome DevTools protocol) *)

(** A JavaScript value other than [undefined], as the debugger channel
    carries it (JSON).  [Num] is the type of Number values. *)
Unset Elimination Schemes.
Inductive JsVal (Num : Type) :=
  | JNull
  | JBool (b : bool)
  | JNum (x : Num)
  | JStr (s : JsString)
  | JArr (items : list (JsVal Num))
  | JObj (fields : list (JsString * JsVal Num)).
Set Elimination Schemes.

Arguments JNull {Num}.
Arguments JBool {Num} b.
Arguments JNum {Num} x.
Arguments JStr {Num} s.
Arguments JArr {Num} items.
Arguments JObj {Num} fields.

(** A thrown value or the reason of a rejected promise. *)
Record JsError := mkError { error_name : JsString; error_message : JsString }.

Section Protocol.
Context {Num : Type}.

(** Runtime.RemoteObject; an optional field is [None] when [undefined]. *)
Record RemoteObject := {
  ro_type : JsString;
  ro_value : option (JsVal Num);
  ro_objectId : option JsString
}.

(** Runtime.PropertyDescriptor *)
Record PropertyDescriptor := {
  prop_name : JsString;
  prop_value : option RemoteObject
}.

(** Debugger.Scope: the [type] tag and the object holding the variables. *)
Inductive ScopeType :=
  | ScopeGlobal | ScopeLocal | ScopeWith | ScopeClosure | ScopeCatch
  | ScopeBlock | ScopeScript | ScopeEval | ScopeModule
  | ScopeWasmExpressionStack.

Record Scope := {
  scope_type : ScopeType;
  scope_object : RemoteObject
}.

Definition is_closure (t : ScopeType) : bool :=
  match t with ScopeClosure => true | _ => false end.

Record CallFrame := {
  functionName : JsString;
  scopeChain : list Scope
}.

(** Debugger.PausedEventDataType and the notification carrying it. *)
Record PausedEventData := { callFrames : list CallFrame; reason : JsString }.

Record BreakpointHitEvent := { method : JsString; params : PausedEventData }.

(** Parameters and result of Runtime.getProperties. *)
Record GetPropertiesParams := {
  objectId : option JsString;
  ownProperties : bool;
  accessorPropertiesOnly : bool;
  generatePreview : bool
}.

Record GetPropertiesReturn := { result : list PropertyDescriptor }.

(** Result of Debugger.getScriptSource. *)
Record GetScriptSourceReturn := {
  scriptSource : JsString;
  bytecode : option JsString
}.

(** The debugger session as the core uses it: each request answers with
    a result or fails, and may change the session. *)
Class InspectorSession (S : Type) := {
  post_getProperties :
    GetPropertiesParams -> S -> (JsError + GetPropertiesReturn) * S;
  post_getScriptSource :
    JsString -> S -> (JsError + GetScriptSourceReturn) * S
}.

(** ** Logging *)

Inductive LogLevel := LevelDebug | LevelError.

(** The second argument of a logger call. *)
Inductive LogContext :=
  | CtxThrown (err : JsError)                   (* err *)
  | CtxErr (err : JsError)                      (* { err } *)
  | CtxError (error : JsError)                  (* { error } *)
  | CtxResult (r : GetScriptSourceReturn).      (* { result } *)

Record LogEntry := {
  log_level : LogLevel;
  log_message : JsString;
  log_context : LogContext
}.

(** ** The snapshot object

    [variableValues] is an ordinary object created by [{}]: its own
    properties and its prototype, which is [Object.prototype] until an
    assignment to [__proto__] replaces it. *)
Inductive Prototype :=
  | ObjectPrototype
  | NullPrototype
  | ValuePrototype (v : JsVal Num).

Record JsObject := {
  own : gmap JsString (JsVal Num);
  proto : Prototype
}.

Definition empty_object : JsObject := {| own := ∅; proto := ObjectPrototype |}.

Definition proto_key : JsString := Eval vm_compute in js "__proto__".

Definition has_field (k : JsString) (fields : list (JsString * JsVal Num)) : bool :=
  existsb (fun kv => bool_decide (fst kv = k)) fields.

(** Does [o\[__proto__\] = v] reach the [__proto__] setter of
    [Object.prototype]?  It does unless the object or an object on its
    prototype chain has a data property of that name, or the chain ends
    before [Object.prototype]. *)
Definition reaches_proto_setter (o : JsObject) : bool :=
  match own o !! proto_key with
  | Some _ => false
  | None =>
      match proto o with
      | ObjectPrototype => true
      | NullPrototype => false
      | ValuePrototype (JObj fields) => negb (has_field proto_key fields)
      | ValuePrototype _ => true
      end
  end.

(** [o\[k\] = v] on the snapshot object.  Every property found on the
    prototype chain is a writable data property, except the accessor
    [__proto__] of [Object.prototype], whose setter replaces the
    prototype when [v] is an object or [null] and does nothing
    otherwise. *)
Definition js_set (o : JsObject) (k : JsString) (v : JsVal Num) : JsObject :=
  if bool_decide (k = proto_key) && reaches_proto_setter o then
    match v with
    | JNull => {| own := own o; proto := NullPrototype |}
    | JArr _ | JObj _ => {| own := own o; proto := ValuePrototype v |}
    | _ => o
    end
  else {| own := <[k := v]> (own o); proto := proto o |}.

(** ** The effects of the core: session requests, logging, exceptions *)

Section Core.
Context {Sess : Type} `{InspectorSession Sess}.

Record World := { w_session : Sess; w_log : list LogEntry }.

(** A computation answers with a value or throws, and changes the world. *)
Definition M (A : Type) : Type := World -> (JsError + A) * World.

Definition ret {A} (a : A) : M A := fun w => (inr a, w).

Definition bind {A B} (m : M A) (f : A -> M B) : M B :=
  fun w =>
    match m w with
    | (inr a, w') => f a w'
    | (inl e, w') => (inl e, w')
    end.

Definition throw {A} (e : JsError) : M A := fun w => (inl e, w).

(** [try { m } catch (e) { h e }], also [promise.catch(h)]. *)
Definition try_catch {A} (m : M A) (h : JsError -> M A) : M A :=
  fun w =>
    match m w with
    | (inr a, w') => (inr a, w')
    | (inl e, w') => h e w'
    end.

Notation "x <- m ;; k" := (bind m (fun x => k))
  (at level 100, m at next level, right associativity).
Notation "m ;;; k" := (bind m (fun _ => k))
  (at level 100, right associativity).

(** Modelled from the spec: the logger of [./_logger], which is not
    under src/.  A call appends one record to the process-wide log and
    never fails. *)
Definition logger_log (lvl : LogLevel) (msg : JsString) (ctx : LogContext)
  : M unit :=
  fun w =>
    (inr tt,
     {| w_session := w_session w;
        w_log := w_log w ++
          [{| log_level := lvl; log_message := msg; log_context := ctx |}] |}).

Definition logger_error := logger_log LevelError.
Definition logger_debug := logger_log LevelDebug.

(** [await session.post('Runtime.getProperties', ps)] *)
Definition session_getProperties (ps : GetPropertiesParams)
  : M GetPropertiesReturn :=
  fun w =>
    let '(r, s') := post_getProperties ps (w_session w) in
    (r, {| w_session := s'; w_log := w_log w |}).

(** [await session.post('Debugger.getScriptSource', { scriptId })] *)
Definition session_getScriptSource (scriptId : JsString)
  : M GetScriptSourceReturn :=
  fun w =>
    let '(r, s') := post_getScriptSource scriptId (w_session w) in
    (r, {| w_session := s'; w_log := w_log w |}).

(** ** ScopeExtractor: handleBreakpointHit *)

(** The inner loop, lines 36-40. *)
Definition insert_prop (variableValues : JsObject) (prop : PropertyDescriptor)
  : JsObject :=
  match prop_value prop with
  | Some ro =>
      match ro_value ro with
      | Some v => js_set variableValues (prop_name prop) v
      | None => variableValues
      end
  | None => variableValues
  end.

Definition insert_props (props : list PropertyDescriptor)
  (variableValues : JsObject) : JsObject :=
  fold_left insert_prop props variableValues.

Definition closure_request (scope : Scope) : GetPropertiesParams :=
  {| objectId := ro_objectId (scope_object scope);
     ownProperties := false;
     accessorPropertiesOnly := false;
     generatePreview := false |}.

(** The request of lines 22-32: the answer, or [null] after logging. *)
Definition fetch_properties (scope : Scope) : M (option GetPropertiesReturn) :=
  try_catch
    (r <- session_getProperties (closure_request scope) ;; ret (Some r))
    (fun err =>
       logger_error (js "Failed to get properties") (CtxThrown err) ;;;
       ret None).

(** The loop over the scope chain, lines 20-42. *)
Fixpoint scopes_loop (scopes : list Scope) (variableValues : JsObject)
  : M JsObject :=
  match scopes with
  | [] => ret variableValues
  | scope :: rest =>
      if is_closure (scope_type scope) then
        r <- fetch_properties scope ;;
        match r with
        | None => scopes_loop rest variableValues
        | Some res => scopes_loop rest (insert_props (result res) variableValues)
        end
      else scopes_loop rest variableValues
  end.

(** Reading a property of [undefined]. *)
Definition TypeError_undefined (field : JsString) : JsError :=
  {| error_name := js "TypeError";
     error_message :=
       js "Cannot read properties of undefined (reading '" ++ field ++ js "')" |}.

Definition handleBreakpointHit (event : BreakpointHitEvent) : M JsObject :=
  match nth_error (callFrames (params event)) 0 with
  | None => throw (TypeError_undefined (js "scopeChain"))
  | Some frame => scopes_loop (scopeChain frame) empty_object
  end.

(** ** ScriptSourceResolver *)

Definition resolve_message (scriptId : JsString) : JsString :=
  js "Error resolving scriptId " ++ scriptId ++ js ":".

(** The result is the session's answer, or [undefined] ([None]). *)
Definition resolveScriptIdToFile (scriptId : JsString)
  : M (option GetScriptSourceReturn) :=
  try_catch
    (r <- session_getScriptSource scriptId ;;
     logger_debug (js "Script source") (CtxResult r) ;;;
     ret (Some r))
    (fun err =>
       logger_error (resolve_message scriptId) (CtxErr err) ;;;
       ret None).

(** An element of the array [resolveMultipleScriptIds] returns. *)
Inductive LookupEntry :=
  | Resolved (r : GetScriptSourceReturn)
  | Absent                                            (* undefined *)
  | FailureRecord (scriptId filePath : JsString).     (* { scriptId, filePath } *)

Definition entry_of (r : option GetScriptSourceReturn) : LookupEntry :=
  match r with
  | Some r => Resolved r
  | None => Absent
  end.

Fixpoint resolve_loop (scriptIds : list JsString) (results : list LookupEntry)
  : M (list LookupEntry) :=
  match scriptIds with
  | [] => ret results
  | scriptId :: rest =>
      results' <-
        try_catch
          (r <- resolveScriptIdToFile scriptId ;;
           ret (results ++ [entry_of r]))
          (fun error =>
             logger_error (resolve_message scriptId) (CtxError error) ;;;
             ret (results ++
                  [FailureRecord scriptId (js "Error: " ++ error_message error)])) ;;
      resolve_loop rest results'
  end.

Definition resolveMultipleScriptIds (scriptIds : list JsString)
  : M (list LookupEntry) :=
  resolve_loop scriptIds [].

(** ** The answers of the session *)

(** The property descriptors the session returns for the closure scopes
    of a scope chain, in scope-chain order: the answers of the
    enumeration requests that succeed, one request per closure scope. *)
Fixpoint enumerated (scopes : list Scope) (s : Sess) : list PropertyDescriptor :=
  match scopes with
  | [] => []
  | scope :: rest =>
      if is_closure (scope_type scope) then
        match post_getProperties (closure_request scope) s with
        | (inr res, s') => result res ++ enumerated rest s'
        | (inl _, s') => enumerated rest s'
        end
      else enumerated rest s
  end.

(** The answers of the session to the script-source requests for
    [scriptIds], asked one after the other. *)
Fixpoint answers (scriptIds : list JsString) (s : Sess)
  : list (JsError + GetScriptSourceReturn) :=
  match scriptIds with
  | [] => []
  | scriptId :: rest =>
      let '(r, s') := post_getScriptSource scriptId s in
      r :: answers rest s'
  end.

Definition entry_of_answer (a : JsError + GetScriptSourceReturn) : LookupEntry :=
  match a with
  | inr r => Resolved r
  | inl _ => Absent
  end.

End Core.

(** The snapshot as the specification words it: the last-write-wins
    merge of the descriptors whose value is defined. *)
Definition spec_merge (props : list PropertyDescriptor)
  : gmap JsString RemoteObject :=
  fold_left
    (fun m prop =>
       match prop_value prop with
       | Some ro => <[prop_name prop := ro]> m
       | None => m
       end)
    props ∅.

(** The last-write-wins merge of the descriptors whose value object has a
    defined [value] field. *)
Definition merge_step (m : gmap JsString (JsVal Num)) (prop : PropertyDescriptor)
  : gmap JsString (JsVal Num) :=
  match prop_value prop with
  | Some ro =>
      match ro_value ro with
      | Some v => <[prop_name prop := v]> m
      | None => m
      end
  | None => m
  end.

Definition merge_into (m : gmap JsString (JsVal Num))
  (props : list PropertyDescriptor) : gmap JsString (JsVal Num) :=
  fold_left merge_step props m.

Definition merge_primitive (props : list PropertyDescriptor)
  : gmap JsString (JsVal Num) :=
  merge_into ∅ props.

(** The descriptor [prop] is named [n] and its value object has the
    [value] field [v]. *)
Definition carries (prop : PropertyDescriptor) (n : JsString) (v : JsVal Num) : Prop :=
  prop_name prop = n ∧
  ∃ ro, prop_value prop = Some ro ∧ ro_value ro = Some v.

(** The records the core writes to the log. *)
Definition failed_entry (err : JsError) : LogEntry :=
  {| log_level := LevelError;
     log_message := js "Failed to get properties";
     log_context := CtxThrown err |}.

Definition source_entry (r : GetScriptSourceReturn) : LogEntry :=
  {| log_level := LevelDebug;
     log_message := js "Script source";
     log_context := CtxResult r |}.

Definition unresolved_entry (scriptId : JsString) (err : JsError) : LogEntry :=
  {| log_level := LevelError;
     log_message := js "Error resolving scriptId " ++ scriptId ++ js ":";
     log_context := CtxErr err |}.

(** ** A table-driven session, for concrete runs *)

Record TableSession := {
  property_table : list (JsString * list PropertyDescriptor);
  script_table : list (JsString * JsString)
}.

Fixpoint assoc {A} (k : JsString) (l : list (JsString * A)) : option A :=
  match l with
  | [] => None
  | (k', a) :: l' => if bool_decide (k' = k) then Some a else assoc k l'
  end.

Definition table_getProperties (ps : GetPropertiesParams) (s : TableSession)
  : (JsError + GetPropertiesReturn) * TableSession :=
  match objectId ps with
  | Some oid =>
      match assoc oid (property_table s) with
      | Some props => (inr {| result := props |}, s)
      | None =>
          (inl (mkError (js "Error") (js "Could not find object with given id")), s)
      end
  | None => (inl (mkError (js "Error") (js "Invalid parameters")), s)
  end.

Definition table_getScriptSource (scriptId : JsString) (s : TableSession)
  : (JsError + GetScriptSourceReturn) * TableSession :=
  match assoc scriptId (script_table s) with
  | Some src => (inr {| scriptSource := src; bytecode := None |}, s)
  | None => (inl (mkError (js "Error") (js "No script for id: " ++ scriptId)), s)
  end.

#[export] Instance TableSession_session : InspectorSession TableSession := {
  post_getProperties := table_getProperties;
  post_getScriptSource := table_getScriptSource
}.

(** ** SessionEventWaiter: getNextPausedEvent

    The session is an event emitter; the state below holds what the
    waiter touches: the listeners registered for ['Debugger.paused'], the
    promises created so far, and the console. *)
Section Waiter.

Inductive PromiseState :=
  | Pending
  | Fulfilled (v : BreakpointHitEvent)
  | Rejected (e : JsError).

(** What a listener does when it is called: the callback of lines 9-12
    logs and resolves its promise; a listener registered by other code
    touches neither the promises of the waiter nor the registrations. *)
Inductive Callback :=
  | ResolveNext (p : nat)
  | Foreign.

(** A registered listener; [l_once] marks a wrapper made by
    [session.once], which removes itself when it is called. *)
Record Listener := { l_id : nat; l_once : bool; l_callback : Callback }.

(** [console.log('paused', JSON.stringify(params, null, 2))] *)
Inductive ConsoleLine := PausedLine (ev : BreakpointHitEvent).

Record State := {
  listeners : list Listener;
  next_listener : nat;
  promises : list PromiseState;
  console : list ConsoleLine
}.

(** [resolve(v)]: settles a pending promise, does nothing otherwise. *)
Definition resolve (p : nat) (v : BreakpointHitEvent) (st : State) : State :=
  match promises st !! p with
  | Some Pending =>
      {| listeners := listeners st; next_listener := next_listener st;
         promises := <[p := Fulfilled v]> (promises st);
         console := console st |}
  | _ => st
  end.

Definition console_log (line : ConsoleLine) (st : State) : State :=
  {| listeners := listeners st; next_listener := next_listener st;
     promises := promises st; console := console st ++ [line] |}.

(** [session.once('Debugger.paused', cb)] *)
Definition once (cb : Callback) (st : State) : State :=
  {| listeners := listeners st ++
       [{| l_id := next_listener st; l_once := true; l_callback := cb |}];
     next_listener := Datatypes.S (next_listener st);
     promises := promises st; console := console st |}.

Definition removeListener (l : Listener) (st : State) : State :=
  {| listeners := filter (fun l' => l_id l' ≠ l_id l) (listeners st);
     next_listener := next_listener st;
     promises := promises st; console := console st |}.

(** [new Promise(executor)]: the promise is created pending, then the
    executor registers the listener.  The result is the promise. *)
Definition getNextPausedEvent (st : State) : nat * State :=
  let p := length (promises st) in
  let st1 :=
    {| listeners := listeners st; next_listener := next_listener st;
       promises := promises st ++ [Pending]; console := console st |} in
  (p, once (ResolveNext p) st1).

Definition call (cb : Callback) (ev : BreakpointHitEvent) (st : State) : State :=
  match cb with
  | ResolveNext p => resolve p ev (console_log (PausedLine ev) st)
  | Foreign => st
  end.

(** The emitter calls a listener; a once-wrapper first removes itself. *)
Definition fire (ev : BreakpointHitEvent) (st : State) (l : Listener) : State :=
  call (l_callback l) ev (if l_once l then removeListener l st else st).

(** [session.emit('Debugger.paused', ev)]: the listeners registered when
    the event is emitted are called in registration order. *)
Definition emit (ev : BreakpointHitEvent) (st : State) : State :=
  fold_left (fire ev) (listeners st) st.

Definition emit_all (evs : list BreakpointHitEvent) (st : State) : State :=
  fold_left (fun st ev => emit ev st) evs st.

(** The registered listeners have identities handed out earlier, and the
    callbacks of the waiter resolve promises that exist. *)
Definition state_ok (st : State) : Prop :=
  ∀ l, l ∈ listeners st →
    (l_id l < next_listener st)%nat ∧
    ∀ q, l_callback l = ResolveNext q → (q < length (promises st))%nat.

(** The promise [p] has not been settled with anything but [ev]. *)
Definition awaiting (p : nat) (ev : BreakpointHitEvent) (st : State) : Prop :=
  promises st !! p = Some Pending ∨ promises st !! p = Some (Fulfilled ev).

End Waiter.

End Protocol.

(** ** Buffer: base64 text and UTF-8 text

    [Buffer.from(text, 'base64')], [buffer.toString('base64')],
    [Buffer.from(text)] and [buffer.toString()] of Node.js; a byte is a
    number below 256. *)

(** The character of a 6-bit value in the base64 alphabet. *)
Definition base64_char (v : N) : N :=
  if v <? 26 then 65 + v
  else if v <? 52 then 97 + (v - 26)
  else if v <? 62 then 48 + (v - 52)
  else if v =? 62 then 43
  else 47.

(** The 6-bit value of a character: the alphabet of base64 and of
    base64url are both read; anything else has no value. *)
Definition unbase64 (c : N) : option N :=
  if (65 <=? c) && (c <=? 90) then Some (c - 65)
  else if (97 <=? c) && (c <=? 122) then Some (c - 97 + 26)
  else if (48 <=? c) && (c <=? 57) then Some (c - 48 + 52)
  else if (c =? 43) || (c =? 45) then Some 62
  else if (c =? 47) || (c =? 95) then Some 63
  else None.

(** [buffer.toString('base64')]: three bytes give four characters, the
    last group is padded with [=]. *)
Fixpoint base64_encode (bytes : list N) : JsString :=
  match bytes with
  | a :: b :: c :: rest =>
      [base64_char (a / 4); base64_char ((a mod 4) * 16 + b / 16);
       base64_char ((b mod 16) * 4 + c / 64); base64_char (c mod 64)]
      ++ base64_encode rest
  | [a; b] =>
      [base64_char (a / 4); base64_char ((a mod 4) * 16 + b / 16);
       base64_char ((b mod 16) * 4); 61]
  | [a] => [base64_char (a / 4); base64_char ((a mod 4) * 16); 61; 61]
  | [] => []
  end.

(** The decoder of Node.js does not reject anything: it reads the low
    byte of each code unit, passes over every character without a value,
    and stops at the first [=]. *)
Fixpoint legal_sextets (s : JsString) : list N :=
  match s with
  | [] => []
  | c :: s' =>
      if c mod 256 =? 61 then []
      else
        match unbase64 (c mod 256) with
        | Some v => v :: legal_sextets s'
        | None => legal_sextets s'
        end
  end.

(** Four 6-bit values give three bytes; an incomplete last group gives
    the bytes that are complete. *)
Fixpoint pack_sextets (l : list N) : list N :=
  match l with
  | a :: b :: c :: d :: rest =>
      [a * 4 + b / 16; (b mod 16) * 16 + c / 4; (c mod 4) * 64 + d]
      ++ pack_sextets rest
  | [a; b; c] => [a * 4 + b / 16; (b mod 16) * 16 + c / 4]
  | [a; b] => [a * 4 + b / 16]
  | _ => []
  end.

(** [Buffer.from(text, 'base64')] *)
Definition Buffer_from_base64 (text : JsString) : list N :=
  pack_sextets (legal_sextets text).

(** *** UTF-8 *)

Definition is_high_surrogate (u : N) : bool := (55296 <=? u) && (u <=? 56319).
Definition is_low_surrogate (u : N) : bool := (56320 <=? u) && (u <=? 57343).

Definition replacement : list N := [239; 191; 189].

(** The UTF-8 bytes of a code point. *)
Definition utf8_bytes (cp : N) : list N :=
  if cp <? 128 then [cp]
  else if cp <? 2048 then [192 + cp / 64; 128 + cp mod 64]
  else if cp <? 65536 then
    [224 + cp / 4096; 128 + (cp / 64) mod 64; 128 + cp mod 64]
  else
    [240 + cp / 262144; 128 + (cp / 4096) mod 64; 128 + (cp / 64) mod 64;
     128 + cp mod 64].

Definition pair_code_point (hi lo : N) : N :=
  65536 + (hi - 55296) * 1024 + (lo - 56320).

(** [Buffer.from(text)]: a surrogate pair is one code point, a lone
    surrogate becomes U+FFFD. *)
Fixpoint Buffer_from_utf8 (s : JsString) : list N :=
  match s with
  | [] => []
  | u :: s' =>
      if is_high_surrogate u then
        match s' with
        | lo :: s'' =>
            if is_low_surrogate lo
            then utf8_bytes (pair_code_point u lo) ++ Buffer_from_utf8 s''
            else replacement ++ Buffer_from_utf8 s'
        | [] => replacement
        end
      else if is_low_surrogate u then replacement ++ Buffer_from_utf8 s'
      else utf8_bytes u ++ Buffer_from_utf8 s'
  end.

(** The code units of a code point. *)
Definition utf16_units (cp : N) : JsString :=
  if cp <? 65536 then [cp]
  else [55296 + (cp - 65536) / 1024; 56320 + (cp - 65536) mod 1024].

Definition in_range (lo hi b : N) : bool := (lo <=? b) && (b <=? hi).

(** [buffer.toString()]: the UTF-8 decoder; a byte that cannot continue
    the sequence begun ends it with U+FFFD and is read again as the
    start of a sequence. *)
Fixpoint Buffer_toString (bytes : list N) : JsString :=
  match bytes with
  | [] => []
  | b1 :: r1 =>
      if b1 <? 128 then b1 :: Buffer_toString r1
      else if in_range 194 223 b1 then
        match r1 with
        | b2 :: r2 =>
            if in_range 128 191 b2
            then utf16_units ((b1 - 192) * 64 + (b2 - 128)) ++ Buffer_toString r2
            else 65533 :: Buffer_toString r1
        | [] => [65533]
        end
      else if in_range 224 239 b1 then
        match r1 with
        | b2 :: r2 =>
            if in_range (if b1 =? 224 then 160 else 128)
                        (if b1 =? 237 then 159 else 191) b2 then
              match r2 with
              | b3 :: r3 =>
                  if in_range 128 191 b3
                  then utf16_units ((b1 - 224) * 4096 + (b2 - 128) * 64 + (b3 - 128))
                       ++ Buffer_toString r3
                  else 65533 :: Buffer_toString r2
              | [] => [65533]
              end
            else 65533 :: Buffer_toString r1
        | [] => [65533]
        end
      else if in_range 240 244 b1 then
        match r1 with
        | b2 :: r2 =>
            if in_range (if b1 =? 240 then 144 else 128)
                        (if b1 =? 244 then 143 else 191) b2 then
              match r2 with
              | b3 :: r3 =>
                  if in_range 128 191 b3 then
                    match r3 with
                    | b4 :: r4 =>
                        if in_range 128 191 b4
                        then utf16_units ((b1 - 240) * 262144 + (b2 - 128) * 4096
                                          + (b3 - 128) * 64 + (b4 - 128))
                             ++ Buffer_toString r4
                        else 65533 :: Buffer_toString r3
                    | [] => [65533]
                    end
                  else 65533 :: Buffer_toString r2
              | [] => [65533]
              end
            else 65533 :: Buffer_toString r1
        | [] => [65533]
        end
      else 65533 :: Buffer_toString r1
  end.

(** Well-formed UTF-16: code units below 2^16, surrogates in pairs. *)
Inductive well_formed : JsString -> Prop :=
  | wf_nil : well_formed []
  | wf_unit u s :
      u < 65536 -> is_high_surrogate u = false -> is_low_surrogate u = false ->
      well_formed s -> well_formed (u :: s)
  | wf_pair hi lo s :
      is_high_surrogate hi = true -> is_low_surrogate lo = true ->
      well_formed s -> well_formed (hi :: lo :: s).

(** ** JSON.parse and JSON.stringify *)

(** Number values and their conversions to and from text
    ([Number::toString] and the value of a numeric literal): the
    arithmetic of the floating-point numbers is not part of the model. *)
Class JsNumber (Num : Type) := {
  NumberToString : Num -> JsString;
  StringToNumber : JsString -> Num
}.

(** In concrete runs a Number is named by the literal
    [Number::toString] prints for it. *)
#[export] Instance literal_number : JsNumber JsString := {
  NumberToString := fun x => x;
  StringToNumber := fun l => l
}.

Definition is_digit (c : N) : bool := (48 <=? c) && (c <=? 57).
Definition is_lower (c : N) : bool := (97 <=? c) && (c <=? 122).

(** The characters a numeric literal is made of. *)
Definition number_char (c : N) : bool :=
  is_digit c || (c =? 43) || (c =? 45) || (c =? 46) || (c =? 69) || (c =? 101).

Definition json_space (c : N) : bool :=
  (c =? 9) || (c =? 10) || (c =? 13) || (c =? 32).

(** JSONNumber: an optional minus sign; 0, or a digit from 1 to 9 and
    further digits; optionally a point and digits; optionally e or E, a
    sign and digits. *)
Definition valid_exponent (l : JsString) : bool :=
  match l with
  | [] => true
  | e :: l1 =>
      if (e =? 101) || (e =? 69) then
        let l2 :=
          match l1 with
          | s :: t => if (s =? 43) || (s =? 45) then t else l1
          | [] => l1
          end in
        match l2 with
        | d :: t =>
            is_digit d &&
            match drop_while is_digit t with [] => true | _ => false end
        | [] => false
        end
      else false
  end.

Definition valid_fraction (l : JsString) : bool :=
  match l with
  | 46 :: l1 =>
      match l1 with
      | d :: t => is_digit d && valid_exponent (drop_while is_digit t)
      | [] => false
      end
  | _ => valid_exponent l
  end.

Definition valid_number (l : JsString) : bool :=
  let l1 := match l with 45 :: t => t | _ => l end in
  match l1 with
  | 48 :: t => valid_fraction t
  | d :: t => is_digit d && valid_fraction (drop_while is_digit t)
  | [] => false
  end.

Section Json.
Context {Num : Type} `{JsNumber Num}.

(** *** Tokens *)

Inductive Token :=
  | TLBrace | TRBrace | TLBracket | TRBracket | TColon | TComma
  | TString (s : JsString)
  | TNumber (x : Num)
  | TTrue | TFalse | TNull.

(** What the lexer is reading: between tokens, a string, an escape, the
    hexadecimal digits of a [\u] escape, a number or a word. *)
Inductive LexMode :=
  | LStart
  | LString (acc : JsString)
  | LEscape (acc : JsString)
  | LUnicode (acc : JsString) (digits : list N)
  | LNumber (acc : JsString)
  | LWord (acc : JsString).

Definition hex_value (c : N) : option N :=
  if is_digit c then Some (c - 48)
  else if (97 <=? c) && (c <=? 102) then Some (c - 87)
  else if (65 <=? c) && (c <=? 70) then Some (c - 55)
  else None.

(** A character read between tokens. *)
Definition start_step (toks : list Token) (c : N) : option (list Token * LexMode) :=
  if json_space c then Some (toks, LStart)
  else if c =? 123 then Some (toks ++ [TLBrace], LStart)
  else if c =? 125 then Some (toks ++ [TRBrace], LStart)
  else if c =? 91 then Some (toks ++ [TLBracket], LStart)
  else if c =? 93 then Some (toks ++ [TRBracket], LStart)
  else if c =? 58 then Some (toks ++ [TColon], LStart)
  else if c =? 44 then Some (toks ++ [TComma], LStart)
  else if c =? 34 then Some (toks, LString [])
  else if (c =? 45) || is_digit c then Some (toks, LNumber [c])
  else if is_lower c then Some (toks, LWord [c])
  else None.

Definition word_token (w : JsString) : option Token :=
  if bool_decide (w = [116; 114; 117; 101]) then Some TTrue
  else if bool_decide (w = [102; 97; 108; 115; 101]) then Some TFalse
  else if bool_decide (w = [110; 117; 108; 108]) then Some TNull
  else None.

(** The end of the token being read, if it may end here. *)
Definition lex_close (st : list Token * LexMode) : option (list Token) :=
  match st with
  | (toks, LStart) => Some toks
  | (toks, LNumber acc) =>
      if valid_number acc then Some (toks ++ [TNumber (StringToNumber acc)])
      else None
  | (toks, LWord acc) =>
      match word_token acc with
      | Some t => Some (toks ++ [t])
      | None => None
      end
  | _ => None
  end.

Definition escape_value (c : N) : option N :=
  if c =? 34 then Some 34
  else if c =? 92 then Some 92
  else if c =? 47 then Some 47
  else if c =? 98 then Some 8
  else if c =? 102 then Some 12
  else if c =? 110 then Some 10
  else if c =? 114 then Some 13
  else if c =? 116 then Some 9
  else None.

Definition lex_step (st : list Token * LexMode) (c : N)
  : option (list Token * LexMode) :=
  match st with
  | (toks, LStart) => start_step toks c
  | (toks, LString acc) =>
      if c =? 34 then Some (toks ++ [TString acc], LStart)
      else if c =? 92 then Some (toks, LEscape acc)
      else if c <? 32 then None
      else Some (toks, LString (acc ++ [c]))
  | (toks, LEscape acc) =>
      if c =? 117 then Some (toks, LUnicode acc [])
      else
        match escape_value c with
        | Some u => Some (toks, LString (acc ++ [u]))
        | None => None
        end
  | (toks, LUnicode acc digits) =>
      match hex_value c with
      | Some h =>
          match digits with
          | [d1; d2; d3] =>
              Some (toks, LString (acc ++ [((d1 * 16 + d2) * 16 + d3) * 16 + h]))
          | _ => Some (toks, LUnicode acc (digits ++ [h]))
          end
      | None => None
      end
  | (toks, LNumber acc) =>
      if number_char c then Some (toks, LNumber (acc ++ [c]))
      else
        match lex_close st with
        | Some toks' => start_step toks' c
        | None => None
        end
  | (toks, LWord acc) =>
      if is_lower c then Some (toks, LWord (acc ++ [c]))
      else
        match lex_close st with
        | Some toks' => start_step toks' c
        | None => None
        end
  end.

Definition lex_run (st : option (list Token * LexMode)) (s : JsString)
  : option (list Token * LexMode) :=
  fold_left
    (fun st c => match st with Some st => lex_step st c | None => None end)
    s st.

Definition lex (text : JsString) : option (list Token) :=
  match lex_run (Some ([], LStart)) text with
  | Some st => lex_close st
  | None => None
  end.

(** *** Objects: the order of the property keys *)

Fixpoint decimal_value (acc : N) (digits : JsString) : N :=
  match digits with
  | [] => acc
  | d :: r => decimal_value (acc * 10 + (d - 48)) r
  end.

(** The array index a property key spells, if it spells one. *)
Definition array_index (k : JsString) : option N :=
  match k with
  | [] => None
  | [48] => Some 0
  | d :: r =>
      if (49 <=? d) && (d <=? 57) && forallb is_digit r
         && (decimal_value 0 k <? 4294967295)
      then Some (decimal_value 0 k)
      else None
  end.

Fixpoint update_field (k : JsString) (v : JsVal Num)
  (fields : list (JsString * JsVal Num)) : list (JsString * JsVal Num) :=
  match fields with
  | [] => []
  | (k', v') :: r =>
      if bool_decide (k' = k) then (k', v) :: r
      else (k', v') :: update_field k v r
  end.

Fixpoint insert_index (i : N) (k : JsString) (v : JsVal Num)
  (fields : list (JsString * JsVal Num)) : list (JsString * JsVal Num) :=
  match fields with
  | [] => [(k, v)]
  | (k', v') :: r =>
      match array_index k' with
      | Some j =>
          if j <? i then (k', v') :: insert_index i k v r
          else (k, v) :: fields
      | None => (k, v) :: fields
      end
  end.

(** CreateDataProperty on an object under construction: a key already
    there keeps its place; a new array index goes among the array
    indices, in ascending order; any other new key goes last. *)
Definition obj_set (fields : list (JsString * JsVal Num)) (k : JsString)
  (v : JsVal Num) : list (JsString * JsVal Num) :=
  if has_field k fields then update_field k v fields
  else
    match array_index k with
    | Some i => insert_index i k v fields
    | None => fields ++ [(k, v)]
    end.

(** *** The parser: a stack of the arrays and objects being read *)

Inductive Frame :=
  | FArr (items : list (JsVal Num))
  | FObj (fields : list (JsString * JsVal Num)) (key : JsString).

Inductive ParseMode :=
  | MValue                                   (* a value *)
  | MArrFirst                                (* after \[: a value or \] *)
  | MArrNext                                 (* after an element: , or \] *)
  | MObjFirst                                (* after \{: a key or \} *)
  | MObjKey (fields : list (JsString * JsVal Num))          (* after ,: a key *)
  | MColon (fields : list (JsString * JsVal Num)) (key : JsString)
  | MObjNext (fields : list (JsString * JsVal Num))         (* , or \} *)
  | MDone (v : JsVal Num).

(** A value has been read. *)
Definition complete (v : JsVal Num) (stack : list Frame)
  : list Frame * ParseMode :=
  match stack with
  | [] => ([], MDone v)
  | FArr items :: st => (FArr (items ++ [v]) :: st, MArrNext)
  | FObj fields key :: st => (st, MObjNext (obj_set fields key v))
  end.

Definition value_step (stack : list Frame) (t : Token)
  : option (list Frame * ParseMode) :=
  match t with
  | TNull => Some (complete JNull stack)
  | TTrue => Some (complete (JBool true) stack)
  | TFalse => Some (complete (JBool false) stack)
  | TNumber x => Some (complete (JNum x) stack)
  | TString s => Some (complete (JStr s) stack)
  | TLBracket => Some (FArr [] :: stack, MArrFirst)
  | TLBrace => Some (stack, MObjFirst)
  | _ => None
  end.

Definition close_array (stack : list Frame) : option (list Frame * ParseMode) :=
  match stack with
  | FArr items :: st => Some (complete (JArr items) st)
  | _ => None
  end.

Definition parse_step (st : list Frame * ParseMode) (t : Token)
  : option (list Frame * ParseMode) :=
  let '(stack, mode) := st in
  match mode with
  | MValue => value_step stack t
  | MArrFirst =>
      match t with
      | TRBracket => close_array stack
      | _ => value_step stack t
      end
  | MArrNext =>
      match t with
      | TComma => Some (stack, MValue)
      | TRBracket => close_array stack
      | _ => None
      end
  | MObjFirst =>
      match t with
      | TString k => Some (stack, MColon [] k)
      | TRBrace => Some (complete (JObj []) stack)
      | _ => None
      end
  | MObjKey fields =>
      match t with
      | TString k => Some (stack, MColon fields k)
      | _ => None
      end
  | MColon fields k =>
      match t with
      | TColon => Some (FObj fields k :: stack, MValue)
      | _ => None
      end
  | MObjNext fields =>
      match t with
      | TComma => Some (stack, MObjKey fields)
      | TRBrace => Some (complete (JObj fields) stack)
      | _ => None
      end
  | MDone _ => None
  end.

Definition parse_run (st : option (list Frame * ParseMode)) (toks : list Token)
  : option (list Frame * ParseMode) :=
  fold_left
    (fun st t => match st with Some st => parse_step st t | None => None end)
    toks st.

Definition parse_tokens (toks : list Token) : option (JsVal Num) :=
  match parse_run (Some ([], MValue)) toks with
  | Some ([], MDone v) => Some v
  | _ => None
  end.

(** The exception of JSON.parse; its message is not modelled. *)
Definition SyntaxError : JsError :=
  {| error_name := js "SyntaxError"; error_message := js "Unexpected token" |}.

Definition JSON_parse (text : JsString) : JsError + JsVal Num :=
  match lex text with
  | Some toks =>
      match parse_tokens toks with
      | Some v => inr v
      | None => inl SyntaxError
      end
  | None => inl SyntaxError
  end.

(** *** JSON.stringify *)

Definition hex_digit (h : N) : N := if h <? 10 then 48 + h else 87 + h.

(** UnicodeEscape *)
Definition unicode_escape (u : N) : JsString :=
  [92; 117; hex_digit (u / 4096); hex_digit ((u / 256) mod 16);
   hex_digit ((u / 16) mod 16); hex_digit (u mod 16)].

Definition escape_unit (u : N) : JsString :=
  if u =? 8 then [92; 98]
  else if u =? 9 then [92; 116]
  else if u =? 10 then [92; 110]
  else if u =? 12 then [92; 102]
  else if u =? 13 then [92; 114]
  else if u =? 34 then [92; 34]
  else if u =? 92 then [92; 92]
  else if u <? 32 then unicode_escape u
  else [u].

(** QuoteJSONString, between the quotes: the code points of the string
    one by one; a lone surrogate is escaped. *)
Fixpoint quote_body (s : JsString) : JsString :=
  match s with
  | [] => []
  | u :: s' =>
      if is_high_surrogate u then
        match s' with
        | lo :: s'' =>
            if is_low_surrogate lo then u :: lo :: quote_body s''
            else unicode_escape u ++ quote_body s'
        | [] => unicode_escape u
        end
      else if is_low_surrogate u then unicode_escape u ++ quote_body s'
      else escape_unit u ++ quote_body s'
  end.

Definition quote (s : JsString) : JsString := [34] ++ quote_body s ++ [34].

(** The elements of a list with a separator between them. *)
Definition join {A} (sep : list A) (l : list (list A)) : list A :=
  match l with
  | [] => []
  | x :: r => x ++ flat_map (fun y => sep ++ y) r
  end.

Fixpoint JSON_stringify (v : JsVal Num) : JsString :=
  match v with
  | JNull => [110; 117; 108; 108]
  | JBool true => [116; 114; 117; 101]
  | JBool false => [102; 97; 108; 115; 101]
  | JNum x => NumberToString x
  | JStr s => quote s
  | JArr items => [91] ++ join [44] (map JSON_stringify items) ++ [93]
  | JObj fields =>
      [123]
      ++ join [44]
           (map (fun kv => quote (fst kv) ++ [58] ++ JSON_stringify (snd kv))
              fields)
      ++ [125]
  end.

(** The tokens of the text JSON.stringify writes. *)
Fixpoint tokens_of (v : JsVal Num) : list Token :=
  match v with
  | JNull => [TNull]
  | JBool true => [TTrue]
  | JBool false => [TFalse]
  | JNum x => [TNumber x]
  | JStr s => [TString s]
  | JArr items => [TLBracket] ++ join [TComma] (map tokens_of items) ++ [TRBracket]
  | JObj fields =>
      [TLBrace]
      ++ join [TComma]
           (map (fun kv => [TString (fst kv); TColon] ++ tokens_of (snd kv)) fields)
      ++ [TRBrace]
  end.

(** The token being read may end here, and a character that ends it is
    read as if between tokens. *)
Definition ready (st : list Token * LexMode) (toks : list Token) : Prop :=
  lex_close st = Some toks ∧
  ∀ c, number_char c = false → is_lower c = false →
       lex_step st c = start_step toks c.

(** The tokens of a value, read where a value may stand, complete it. *)
Definition reads (v : JsVal Num) : Prop :=
  ∀ stack mode rest, mode = MValue ∨ mode = MArrFirst →
    parse_run (Some (stack, mode)) (tokens_of v ++ rest)
    = parse_run (Some (complete v stack)) rest.

(** The tokens of a member of an object. *)
Definition member_tokens (kv : JsString * JsVal Num) : list Token :=
  [TString (fst kv); TColon] ++ tokens_of (snd kv).

(** *** Documents *)

(** A key of an object comes before another: array indices in ascending
    order, then the other keys. *)
Definition key_before (a b : JsString * JsVal Num) : Prop :=
  match array_index (fst a), array_index (fst b) with
  | Some i, Some j => i < j
  | Some _, None => True
  | None, Some _ => False
  | None, None => True
  end.

(** A Number that JSON.stringify writes as a numeric literal denoting
    it: every finite Number but -0. *)
Definition number_ok (x : Num) : Prop :=
  forallb number_char (NumberToString x) = true ∧
  valid_number (NumberToString x) = true ∧
  StringToNumber (NumberToString x) = x.

Definition string_ok (s : JsString) : Prop := Forall (fun u => u < 65536) s.

(** A value JSON text can denote, as it sits in memory: strings of code
    units, Numbers as above, objects with distinct keys in property
    order. *)
Fixpoint document (v : JsVal Num) : Prop :=
  match v with
  | JNull | JBool _ => True
  | JNum x => number_ok x
  | JStr s => string_ok s
  | JArr items =>
      (fix all (l : list (JsVal Num)) : Prop :=
         match l with
         | [] => True
         | x :: r => document x ∧ all r
         end) items
  | JObj fields =>
      NoDup (map fst fields) ∧
      StronglySorted key_before fields ∧
      (fix all (l : list (JsString * JsVal Num)) : Prop :=
         match l with
         | [] => True
         | kv :: r => (string_ok (fst kv) ∧ document (snd kv)) ∧ all r
         end) fields
  end.

(** ** SourceMapCodec: getSourceMapJSON *)

Definition parse_failed_entry (e : JsError) : LogEntry :=
  {| log_level := LevelError;
     log_message := js "Error parsing source map";
     log_context := CtxErr e |}.

(** The result is the parsed value, or [null] after logging; [log] is
    the process-wide log, to which [logger.error] appends a record. *)
Definition getSourceMapJSON (base64SourceMap : JsString) (log : list LogEntry)
  : JsVal Num * list LogEntry :=
  let sourceMapContent := Buffer_toString (Buffer_from_base64 base64SourceMap) in
  match JSON_parse sourceMapContent with
  | inr v => (v, log)
  | inl e => (JNull, log ++ [parse_failed_entry e])
  end.

(** The encoding the round trip of the specification starts from: the
    text of the document, its UTF-8 bytes, their base64 text. *)
Definition encodeSourceMap (doc : JsVal Num) : JsString :=
  base64_encode (Buffer_from_utf8 (JSON_stringify doc)).

End Json.

(** ** Concrete inputs *)

Definition num (n : Z) : @RemoteObject Z :=
  {| ro_type := js "number"; ro_value := Some (JNum n); ro_objectId := None |}.

Definition function_ref (id : string) : @RemoteObject Z :=
  {| ro_type := js "function"; ro_value := None; ro_objectId := Some (js id) |}.

Definition object_of (k : ScopeType) (id : string) : @Scope Z :=
  {| scope_type := k;
     scope_object :=
       {| ro_type := js "object"; ro_value := None; ro_objectId := Some (js id) |} |}.

Definition data (name : string) (ro : @RemoteObject Z) : @PropertyDescriptor Z :=
  {| prop_name := js name; prop_value := Some ro |}.

Definition accessor (name : string) : @PropertyDescriptor Z :=
  {| prop_name := js name; prop_value := None |}.

Definition paused (frames : list (@CallFrame Z)) : @BreakpointHitEvent Z :=
  {| method := js "Debugger.paused";
     params := {| callFrames := frames; reason := js "other" |} |}.

(** A session that knows the scripts a and c, and the scope objects 1 and 3. *)
Definition demo_session : @TableSession Z :=
  {| property_table :=
       [(js "1", [data "x" (num 1); data "f" (function_ref "10"); accessor "g"]);
        (js "3", [data "x" (num 2); data "y" (num 7)])];
     script_table := [(js "a", js "A"); (js "c", js "C")] |}.

Definition demo_world : World := {| w_session := demo_session; w_log := [] |}.

Definition demo_frame : @CallFrame Z :=
  {| functionName := js "inner";
     scopeChain :=
       [object_of ScopeLocal "0"; object_of ScopeClosure "1";
        object_of ScopeClosure "2"; object_of ScopeClosure "3";
        object_of ScopeGlobal "4"] |}.

Definition src (text : string) : GetScriptSourceReturn :=
  {| scriptSource := js text; bytecode := None |}.

Definition no_script (id : string) : JsError :=
  mkError (js "Error") (js "No script for id: " ++ js id).

Definition no_object : JsError :=
  mkError (js "Error") (js "Could not find object with given id").

(** An open session with a listener of other code and no promise yet. *)
Definition idle_state : @State Z :=
  {| listeners := [{| l_id := 0%nat; l_once := false; l_callback := Foreign |}];
     next_listener := 1%nat;
     promises := [];
     console := [] |}.

(** Two marker lines, and a marker whose value holds [base64,] twice. *)
Definition two_markers : JsString :=
  js "//# sourceMappingURL=a.map" ++ [10] ++ js "//# sourceMappingURL=b.map".

Definition double_base64 : JsString :=
  js "//# sourceMappingURL=base64,abbase64,cd".

(** Base64 text in the sense of RFC 4648: characters of the alphabet,
    at most two [=] at the end, a length that is a multiple of four. *)
Definition base64_alphabet (c : N) : bool :=
  ((65 <=? c) && (c <=? 90)) || ((97 <=? c) && (c <=? 122))
  || ((48 <=? c) && (c <=? 57)) || (c =? 43) || (c =? 47).

Definition valid_base64 (text : JsString) : bool :=
  (N.of_nat (length text) mod 4 =? 0) &&
  match rev text with
  | 61 :: 61 :: body => forallb base64_alphabet body
  | 61 :: body => forallb base64_alphabet body
  | body => forallb base64_alphabet body
  end.

(** A small source map. *)
Definition demo_map : JsVal JsString :=
  JObj [(js "version", JNum (js "3"));
        (js "sources", JArr [JStr (js "a.ts")]);
        (js "names", JArr []);
        (js "mappings", JStr (js "AAAA;" ++ [233; 55357; 56832]))].

(** ** What a run asks of the session, and what it logs *)

Section Traces.
Context {Num Sess : Type} `{!@InspectorSession Num Sess}.

(** The closure scopes of a scope chain, in scope-chain order. *)
Definition closure_scopes (scopes : list (@Scope Num)) : list (@Scope Num) :=
  List.filter (fun scope => is_closure (scope_type scope)) scopes.

(** The session after it has answered the enumeration requests [reqs],
    one after the other. *)
Definition after_getProperties (reqs : list GetPropertiesParams) (s : Sess) : Sess :=
  fold_left (fun s ps => snd (post_getProperties ps s)) reqs s.

(** The session after it has answered the script-source requests for
    [scriptIds], one after the other. *)
Definition after_getScriptSource (scriptIds : list JsString) (s : Sess) : Sess :=
  fold_left (fun s scriptId => snd (post_getScriptSource scriptId s)) scriptIds s.

(** The errors of the enumeration requests that fail, one request per
    closure scope, in scope-chain order. *)
Fixpoint failures (scopes : list (@Scope Num)) (s : Sess) : list JsError :=
  match scopes with
  | [] => []
  | scope :: rest =>
      if is_closure (scope_type scope) then
        match post_getProperties (closure_request scope) s with
        | (inr _, s') => failures rest s'
        | (inl err, s') => err :: failures rest s'
        end
      else failures rest s
  end.

(** The record the single lookup writes for the answer [a] to the
    request for [scriptId]. *)
Definition lookup_entry (scriptId : JsString) (a : JsError + GetScriptSourceReturn)
  : LogEntry :=
  match a with
  | inr r => source_entry r
  | inl err => unresolved_entry scriptId err
  end.

Definition is_failure_record (e : LookupEntry) : bool :=
  match e with
  | FailureRecord _ _ => true
  | _ => false
  end.

(** The values for which the [__proto__] setter replaces the prototype:
    objects and [null]. *)
Definition sets_prototype (v : JsVal Num) : bool :=
  match v with
  | JNull | JArr _ | JObj _ => true
  | _ => false
  end.

End Traces.

(** A session whose closure scope 1 holds a variable named [__proto__]. *)
Definition proto_session : @TableSession Z :=
  {| property_table :=
       [(js "1", [data "__proto__" (num 1); data "x" (num 5)])];
     script_table := [] |}.

Definition proto_world : World := {| w_session := proto_session; w_log := [] |}.

(** The marker of an inline source map, and its media type. *)
Definition media_type : JsString := Eval vm_compute in js "data:application/json;".

Definition inline_marker : JsString :=
  Eval vm_compute in js "//# sourceMappingURL=data:application/json;base64,".

(** No marker comment starts at one of the first [n] positions of
    [text]. *)
Definition no_marker_before (n : nat) (text : JsString) : Prop :=
  ∀ pre s v, text = pre ++ s → (length pre < n)%nat → ¬ marker_at s v.

(** The same, decided by reading the text at each of these positions. *)
Definition marker_free_until (n : nat) (text : JsString) : bool :=
  forallb
    (fun i =>
       match marker_value (drop i text) with
       | None => true
       | Some _ => false
       end)
    (seq 0 n).

(** Is the listener a callback of the waiter? *)
Definition is_waiter (l : Listener) : bool :=
  match l_callback l with
  | ResolveNext _ => true
  | Foreign => false
  end.

(** * Properties *)

(** ** The loop over the scope chain *)

Section CoreFacts.
Context {Num Sess : Type} `{!@InspectorSession Num Sess}.

Lemma fetch_properties_eq (scope : Scope) (w : World) :
  fetch_properties scope w =
  match post_getProperties (closure_request scope) (w_session w) with
  | (inr res, s') => (inr (Some res), {| w_session := s'; w_log := w_log w |})
  | (inl err, s') =>
      (inr None, {| w_session := s'; w_log := w_log w ++ [failed_entry err] |})
  end.
Proof.
  unfold fetch_properties, try_catch, bind, session_getProperties.
  destruct (post_getProperties _ _) as [[err|res] s']; reflexivity.
Qed.

Lemma scopes_loop_cons (scope : Scope) (rest : list Scope) (o : JsObject) (w : World) :
  scopes_loop (scope :: rest) o w =
  if is_closure (scope_type scope) then
    match post_getProperties (closure_request scope) (w_session w) with
    | (inr res, s') =>
        scopes_loop rest (insert_props (result res) o)
          {| w_session := s'; w_log := w_log w |}
    | (inl err, s') =>
        scopes_loop rest o
          {| w_session := s'; w_log := w_log w ++ [failed_entry err] |}
    end
  else scopes_loop rest o w.
Proof.
  cbn [scopes_loop]. destruct (is_closure _); [|reflexivity].
  unfold bind at 1. rewrite fetch_properties_eq.
  destruct (post_getProperties _ _) as [[err|res] s']; reflexivity.
Qed.

(** The loop never throws: every failure is caught inside it. *)
Lemma scopes_loop_returns (scopes : list Scope) (o : JsObject) (w : World) :
  ∃ snap w', scopes_loop scopes o w = (inr snap, w').
Proof.
  revert o w. induction scopes as [|scope rest IH]; intros o w.
  - eexists _, _. reflexivity.
  - rewrite scopes_loop_cons. destruct (is_closure _); [|apply IH].
    destruct (post_getProperties _ _) as [[err|res] s']; apply IH.
Qed.

Lemma scopes_loop_app (pre post : list Scope) (o : JsObject) (w : World) :
  scopes_loop (pre ++ post) o w =
  match scopes_loop pre o w with
  | (inr o1, w1) => scopes_loop post o1 w1
  | (inl e, w1) => (inl e, w1)
  end.
Proof.
  revert o w. induction pre as [|scope rest IH]; intros o w.
  - reflexivity.
  - rewrite <- app_comm_cons, !scopes_loop_cons.
    destruct (is_closure _); [|apply IH].
    destruct (post_getProperties _ _) as [[err|res] s']; apply IH.
Qed.

(** The snapshot is the fold of the insertions over the descriptors the
    session returned. *)
Lemma scopes_loop_snapshot (scopes : list Scope) (o snap : JsObject) (w w' : World) :
  scopes_loop scopes o w = (inr snap, w') →
  snap = insert_props (enumerated scopes (w_session w)) o.
Proof.
  revert o w. induction scopes as [|scope rest IH]; intros o w.
  - cbn. intros [= <- _]. reflexivity.
  - rewrite scopes_loop_cons. cbn [enumerated].
    destruct (is_closure _); [|apply IH].
    destruct (post_getProperties _ _) as [[err|res] s']; intros Hrun;
      apply IH in Hrun; cbn in Hrun; [exact Hrun|].
    unfold insert_props in *. rewrite fold_left_app. exact Hrun.
Qed.

(** ** Insertion into the snapshot object *)

Lemma js_set_lookup_ne (o : JsObject) (k n : JsString) (v : JsVal Num) :
  n ≠ k → own (js_set o k v) !! n = own o !! n.
Proof.
  intros Hne. unfold js_set.
  destruct (bool_decide (k = proto_key) && reaches_proto_setter o).
  - destruct v; reflexivity.
  - cbn. apply lookup_insert_ne. congruence.
Qed.

Lemma js_set_lookup_eq (o : JsObject) (k : JsString) (v : JsVal Num) :
  k ≠ proto_key → own (js_set o k v) !! k = Some v.
Proof.
  intros Hne. unfold js_set.
  rewrite (bool_decide_eq_false_2 _ Hne). cbn. apply lookup_insert_eq.
Qed.

(** Whatever the key, a property read back after an assignment holds the
    assigned value or what it held before. *)
Lemma js_set_lookup_inv (o : JsObject) (k n : JsString) (v x : JsVal Num) :
  own (js_set o k v) !! n = Some x →
  (n = k ∧ x = v) ∨ own o !! n = Some x.
Proof.
  unfold js_set.
  destruct (bool_decide (k = proto_key) && reaches_proto_setter o).
  - destruct v; cbn; auto.
  - cbn. rewrite lookup_insert. case_decide; [intros [= <-]|]; auto.
Qed.

Lemma insert_prop_agree (o : JsObject) (m : gmap JsString (JsVal Num))
    (prop : PropertyDescriptor) (n : JsString) :
  n ≠ proto_key →
  own o !! n = m !! n →
  own (insert_prop o prop) !! n = merge_step m prop !! n.
Proof.
  intros Hn Hagree. unfold insert_prop, merge_step.
  destruct (prop_value prop) as [ro|]; [|exact Hagree].
  destruct (ro_value ro) as [v|]; [|exact Hagree].
  destruct (decide (n = prop_name prop)) as [->|Hne].
  - rewrite js_set_lookup_eq by exact Hn. symmetry. apply lookup_insert_eq.
  - rewrite js_set_lookup_ne by exact Hne.
    rewrite lookup_insert_ne by congruence. exact Hagree.
Qed.

Lemma insert_props_agree (props : list PropertyDescriptor) (o : JsObject)
    (m : gmap JsString (JsVal Num)) (n : JsString) :
  n ≠ proto_key →
  own o !! n = m !! n →
  own (insert_props props o) !! n = merge_into m props !! n.
Proof.
  intros Hn. revert o m.
  induction props as [|prop props IH]; intros o m Hagree; [exact Hagree|].
  cbn. apply IH. apply insert_prop_agree; assumption.
Qed.

Lemma insert_props_lookup_inv (props : list PropertyDescriptor) (o : JsObject)
    (n : JsString) (v : JsVal Num) :
  own (insert_props props o) !! n = Some v →
  own o !! n = Some v ∨ ∃ prop, prop ∈ props ∧ carries prop n v.
Proof.
  revert o. induction props as [|prop props IH]; intros o Hl; [left; exact Hl|].
  cbn in Hl. apply IH in Hl as [Hl|(prop' & Hin & Hc)].
  - unfold insert_prop in Hl.
    destruct (prop_value prop) as [ro|] eqn:Hv; [|left; exact Hl].
    destruct (ro_value ro) as [x|] eqn:Hx; [|left; exact Hl].
    apply js_set_lookup_inv in Hl as [[-> ->]|Hl]; [|left; exact Hl].
    right. exists prop. split; [left|]. split; [reflexivity|]. eauto.
  - right. exists prop'. split; [right; exact Hin|exact Hc].
Qed.

Lemma merge_into_snoc (props : list PropertyDescriptor) (prop : PropertyDescriptor)
    (m : gmap JsString (JsVal Num)) :
  merge_into m (props ++ [prop]) = merge_step (merge_into m props) prop.
Proof. unfold merge_into. rewrite fold_left_app. reflexivity. Qed.

(** Last write wins: the merge holds, for a name, the value of the last
    descriptor carrying one. *)
Lemma merge_into_last (before after : list PropertyDescriptor)
    (prop : PropertyDescriptor) (m : gmap JsString (JsVal Num))
    (n : JsString) (v : JsVal Num) :
  carries prop n v →
  (∀ later x, later ∈ after → ¬ carries later n x) →
  merge_into m (before ++ prop :: after) !! n = Some v.
Proof.
  intros Hc. revert after.
  induction after as [|last after IH] using rev_ind; intros Hafter.
  - rewrite merge_into_snoc. destruct Hc as [<- (ro & Hro & Hv)].
    unfold merge_step. rewrite Hro, Hv. apply lookup_insert_eq.
  - rewrite app_comm_cons, app_assoc, merge_into_snoc.
    assert (Hrest : merge_into m (before ++ prop :: after) !! n = Some v).
    { apply IH. intros later x Hin. apply Hafter.
      apply elem_of_app. left. exact Hin. }
    unfold merge_step.
    destruct (prop_value last) as [ro|] eqn:Hro; [|exact Hrest].
    destruct (ro_value ro) as [x|] eqn:Hx; [|exact Hrest].
    rewrite lookup_insert_ne; [exact Hrest|].
    intros Heq. apply (Hafter last x).
    + apply elem_of_app. right. left.
    + split; [exact Heq|]. eauto.
Qed.

Lemma merge_into_lookup_inv (props : list PropertyDescriptor)
    (m : gmap JsString (JsVal Num)) (n : JsString) (v : JsVal Num) :
  merge_into m props !! n = Some v →
  m !! n = Some v ∨ ∃ prop, prop ∈ props ∧ carries prop n v.
Proof.
  revert m. induction props as [|prop props IH]; intros m Hl; [left; exact Hl|].
  cbn in Hl. apply IH in Hl as [Hl|(prop' & Hin & Hc)].
  - unfold merge_step in Hl.
    destruct (prop_value prop) as [ro|] eqn:Hv; [|left; exact Hl].
    destruct (ro_value ro) as [x|] eqn:Hx; [|left; exact Hl].
    rewrite lookup_insert in Hl. case_decide as Hname; [|left; exact Hl].
    injection Hl as <-. right. exists prop. split; [left|].
    split; [exact Hname|]. eauto.
  - right. exists prop'. split; [right; exact Hin|exact Hc].
Qed.

(** ** The script-source resolver *)

Lemma resolveScriptIdToFile_eq (scriptId : JsString) (w : World) :
  resolveScriptIdToFile scriptId w =
  match post_getScriptSource scriptId (w_session w) with
  | (inr r, s') =>
      (inr (Some r), {| w_session := s'; w_log := w_log w ++ [source_entry r] |})
  | (inl err, s') =>
      (inr None,
       {| w_session := s'; w_log := w_log w ++ [unresolved_entry scriptId err] |})
  end.
Proof.
  unfold resolveScriptIdToFile, try_catch, bind, session_getScriptSource.
  destruct (post_getScriptSource _ _) as [[err|r] s']; reflexivity.
Qed.

(** The single lookup catches every failure of the session. *)
Lemma resolveScriptIdToFile_returns (scriptId : JsString) (w : World) :
  ∃ r w', resolveScriptIdToFile scriptId w = (inr r, w').
Proof.
  rewrite resolveScriptIdToFile_eq.
  destruct (post_getScriptSource _ _) as [[err|r] s']; eauto.
Qed.

Lemma resolve_loop_cons (scriptId : JsString) (rest : list JsString)
    (results : list LookupEntry) (w : World) :
  resolve_loop (scriptId :: rest) results w =
  match post_getScriptSource scriptId (w_session w) with
  | (a, s') =>
      resolve_loop rest (results ++ [entry_of_answer a])
        {| w_session := s';
           w_log := w_log w ++
             [match a with
              | inr r => source_entry r
              | inl err => unresolved_entry scriptId err
              end] |}
  end.
Proof.
  cbn [resolve_loop]. unfold bind at 1, try_catch, bind at 1.
  rewrite resolveScriptIdToFile_eq.
  destruct (post_getScriptSource _ _) as [[err|r] s']; reflexivity.
Qed.

Lemma resolve_loop_answers (scriptIds : list JsString) (results : list LookupEntry)
    (w : World) :
  ∃ w', resolve_loop scriptIds results w =
        (inr (results ++ map entry_of_answer (answers scriptIds (w_session w))), w').
Proof.
  revert results w. induction scriptIds as [|scriptId rest IH]; intros results w.
  - exists w. cbn. rewrite app_nil_r. reflexivity.
  - rewrite resolve_loop_cons. cbn [answers].
    destruct (post_getScriptSource _ _) as [a s'].
    edestruct IH as [w' Hw']. rewrite Hw'. exists w'.
    cbn. rewrite <- app_assoc. reflexivity.
Qed.

Lemma answers_length (scriptIds : list JsString) (s : Sess) :
  length (answers scriptIds s) = length scriptIds.
Proof.
  revert s. induction scriptIds as [|scriptId rest IH]; intros s; [reflexivity|].
  cbn. destruct (post_getScriptSource _ _) as [a s']. cbn. rewrite IH. reflexivity.
Qed.

(** ** The scope extractor and the resolver *)

(** C1 (the code at the failing input): on a pause event whose call-frame
    list is empty, handleBreakpointHit does not return a snapshot; the
    read of [callFrames\[0\].scopeChain] throws a TypeError before any
    request is sent. *)
Theorem handleBreakpointHit_no_frames (m r : JsString) (w : World) :
  handleBreakpointHit
    {| method := m; params := {| callFrames := []; reason := r |} |} w
  = (inl (TypeError_undefined (js "scopeChain")), w).
Proof. reflexivity. Qed.

(** C5: for every session and every list of script ids,
    resolveMultipleScriptIds returns (no exception escapes) a list as long
    as the input whose i-th entry comes from the session's answer to the
    i-th requested id, whether that request failed or not; on the empty
    list it returns the empty list. *)
Theorem resolveMultipleScriptIds_one_entry_per_id :
  (∀ (scriptIds : list JsString) (w : World),
     ∃ results w',
       resolveMultipleScriptIds scriptIds w = (inr results, w') ∧
       length results = length scriptIds ∧
       ∀ i, results !! i =
            entry_of_answer <$> (answers scriptIds (w_session w) !! i)) ∧
  (∀ w : World, resolveMultipleScriptIds [] w = (inr [], w)).
Proof.
  split; [|reflexivity].
  intros scriptIds w. unfold resolveMultipleScriptIds.
  destruct (resolve_loop_answers scriptIds [] w) as [w' Hw'].
  eexists _, w'. split; [exact Hw'|]. cbn. split.
  - rewrite length_map. apply answers_length.
  - intros i. apply list_lookup_fmap.
Qed.

(** C2 (amended): when the session's source lookup fails for exactly one
    of the requested ids, resolveMultipleScriptIds returns a list of the
    same length where every other index holds the resolved source and the
    failing index holds the absent result ([undefined]), not a failure
    record. *)
Theorem resolveMultipleScriptIds_one_failure
    (pre post : list JsString) (scriptId : JsString) (w : World)
    (before after : list GetScriptSourceReturn) (err : JsError) :
  answers (pre ++ scriptId :: post) (w_session w) =
    map inr before ++ inl err :: map inr after →
  length before = length pre →
  ∃ results w',
    resolveMultipleScriptIds (pre ++ scriptId :: post) w = (inr results, w') ∧
    results = map Resolved before ++ Absent :: map Resolved after ∧
    length results = length (pre ++ scriptId :: post) ∧
    results !! length pre = Some Absent.
Proof.
  intros Hans Hlen. unfold resolveMultipleScriptIds.
  destruct (resolve_loop_answers (pre ++ scriptId :: post) [] w) as [w' Hw'].
  eexists _, w'. split; [exact Hw'|]. cbn.
  assert (Hres : map entry_of_answer (answers (pre ++ scriptId :: post) (w_session w))
                 = map Resolved before ++ Absent :: map Resolved after).
  { rewrite Hans, map_app. cbn. rewrite !map_map. reflexivity. }
  split; [exact Hres|]. split.
  - rewrite length_map. apply answers_length.
  - rewrite Hres, <- Hlen.
    rewrite lookup_app_r by (rewrite length_map; lia).
    rewrite length_map, Nat.sub_diag. reflexivity.
Qed.

(** C6 (amended): for every pause event with a non-empty frame list,
    handleBreakpointHit returns a snapshot that agrees, on every name but
    [__proto__], with the last-write-wins merge, in scope-chain order, of
    the descriptors whose value object has a defined [value] field, taken
    from the closure scopes of the innermost frame whose enumeration
    succeeded; the last descriptor carrying a value for a name decides
    it; when no descriptor is named [__proto__] the snapshot is that
    merge. *)
Theorem handleBreakpointHit_snapshot_is_merge
    (event : BreakpointHitEvent) (frame : CallFrame) (frames : list CallFrame)
    (w : World) :
  callFrames (params event) = frame :: frames →
  ∃ snap w',
    handleBreakpointHit event w = (inr snap, w') ∧
    (∀ n, n ≠ proto_key →
       own snap !! n =
       merge_primitive (enumerated (scopeChain frame) (w_session w)) !! n) ∧
    (∀ n v before prop after,
       n ≠ proto_key →
       enumerated (scopeChain frame) (w_session w) = before ++ prop :: after →
       carries prop n v →
       (∀ later x, later ∈ after → ¬ carries later n x) →
       own snap !! n = Some v) ∧
    ((∀ prop, prop ∈ enumerated (scopeChain frame) (w_session w) →
        prop_name prop ≠ proto_key) →
     own snap = merge_primitive (enumerated (scopeChain frame) (w_session w))).
Proof.
  intros Hframes. unfold handleBreakpointHit. rewrite Hframes. cbn [nth_error].
  destruct (scopes_loop_returns (scopeChain frame) empty_object w)
    as (snap & w' & Hrun).
  exists snap, w'. split; [exact Hrun|].
  apply scopes_loop_snapshot in Hrun. subst snap.
  assert (Hmerge : ∀ n, n ≠ proto_key →
            own (insert_props (enumerated (scopeChain frame) (w_session w))
                   empty_object) !! n =
            merge_primitive (enumerated (scopeChain frame) (w_session w)) !! n).
  { intros n Hn. apply insert_props_agree; [exact Hn|reflexivity]. }
  split; [exact Hmerge|]. split.
  - intros n v before prop after Hn Hsplit Hc Hafter.
    rewrite Hmerge by exact Hn. unfold merge_primitive. rewrite Hsplit.
    apply merge_into_last; assumption.
  - intros Hnames. apply map_eq. intros n.
    destruct (decide (n = proto_key)) as [->|Hn]; [|apply Hmerge, Hn].
    assert (Hfree : ∀ v prop,
              prop ∈ enumerated (scopeChain frame) (w_session w) →
              ¬ carries prop proto_key v).
    { intros v prop Hin [Hname _]. exact (Hnames prop Hin Hname). }
    transitivity (@None (JsVal Num)); [|symmetry].
    + destruct (own _ !! proto_key) as [v|] eqn:Hl; [|reflexivity].
      apply insert_props_lookup_inv in Hl as [Hl|(prop & Hin & Hc)];
        [cbn in Hl; rewrite lookup_empty in Hl; discriminate|].
      destruct (Hfree v prop Hin Hc).
    + destruct (merge_primitive _ !! proto_key) as [v|] eqn:Hl; [|reflexivity].
      apply merge_into_lookup_inv in Hl as [Hl|(prop & Hin & Hc)];
        [rewrite lookup_empty in Hl; discriminate|].
      destruct (Hfree v prop Hin Hc).
Qed.

(** C10: a descriptor without a value object, or whose value object has
    no [value] field (a remote reference to an object or a function),
    leaves the snapshot as it is; a name is in the snapshot
    handleBreakpointHit returns only if a descriptor returned for a
    closure scope carries a defined [value] field for it, with that very
    value, so a variable all of whose descriptors lack the field is
    omitted. *)
Theorem handleBreakpointHit_inserts_only_primitive_values
    (event : BreakpointHitEvent) (frame : CallFrame) (frames : list CallFrame)
    (w : World) :
  callFrames (params event) = frame :: frames →
  (∀ (o : @JsObject Num) (prop : @PropertyDescriptor Num),
     (∀ ro, prop_value prop = Some ro → ro_value ro = None) →
     insert_prop o prop = o) ∧
  ∃ snap w',
    handleBreakpointHit event w = (inr snap, w') ∧
    (∀ n v, own snap !! n = Some v →
       ∃ prop, prop ∈ enumerated (scopeChain frame) (w_session w) ∧
               carries prop n v) ∧
    (∀ n,
       (∀ prop ro, prop ∈ enumerated (scopeChain frame) (w_session w) →
          prop_name prop = n → prop_value prop = Some ro → ro_value ro = None) →
       own snap !! n = None).
Proof.
  intros Hframes. split.
  { intros o prop Hnone. unfold insert_prop.
    destruct (prop_value prop) as [ro|]; [|reflexivity].
    rewrite (Hnone ro eq_refl). reflexivity. }
  unfold handleBreakpointHit. rewrite Hframes. cbn [nth_error].
  destruct (scopes_loop_returns (scopeChain frame) empty_object w)
    as (snap & w' & Hrun).
  exists snap, w'. split; [exact Hrun|].
  apply scopes_loop_snapshot in Hrun. subst snap.
  assert (Honly : ∀ n v,
            own (insert_props (enumerated (scopeChain frame) (w_session w))
                   empty_object) !! n = Some v →
            ∃ prop, prop ∈ enumerated (scopeChain frame) (w_session w) ∧
                    carries prop n v).
  { intros n v Hl. apply insert_props_lookup_inv in Hl as [Hl|Hl]; [|exact Hl].
    cbn in Hl. rewrite lookup_empty in Hl. discriminate. }
  split; [exact Honly|].
  intros n Hnone.
  destruct (own _ !! n) as [v|] eqn:Hl; [|reflexivity].
  apply Honly in Hl as (prop & Hin & Hname & ro & Hro & Hv).
  rewrite (Hnone prop ro Hin Hname Hro) in Hv. discriminate.
Qed.

End CoreFacts.

(** ** Concrete runs *)

(** C2 (counterexample): the session fails only for b; index 1 of the
    result holds the absent result, no failure record naming b. *)
Lemma resolveMultipleScriptIds_failure_is_absent :
  answers [js "a"; js "b"; js "c"] demo_session
    = [inr (src "A"); inl (no_script "b"); inr (src "C")] ∧
  ∃ results w',
    resolveMultipleScriptIds [js "a"; js "b"; js "c"] demo_world = (inr results, w') ∧
    length results = 3%nat ∧
    results !! 1%nat = Some Absent ∧
    ¬ ∃ filePath, results !! 1%nat = Some (FailureRecord (js "b") filePath).
Proof.
  split; [reflexivity|].
  eexists _, _. split; [reflexivity|]. split; [reflexivity|].
  split; [reflexivity|]. intros [filePath Hrec]. discriminate Hrec.
Qed.

Lemma resolveMultipleScriptIds_one_failure_witness :
  answers ([js "a"] ++ js "b" :: [js "c"]) (w_session demo_world)
    = map inr [src "A"] ++ inl (no_script "b") :: map inr [src "C"] ∧
  length [src "A"] = length [js "a"] ∧
  ∃ results w',
    resolveMultipleScriptIds ([js "a"] ++ js "b" :: [js "c"]) demo_world
      = (inr results, w') ∧
    results = map Resolved [src "A"] ++ Absent :: map Resolved [src "C"] ∧
    length results = length ([js "a"] ++ js "b" :: [js "c"]) ∧
    results !! length [js "a"] = Some Absent.
Proof.
  split; [reflexivity|]. split; [reflexivity|].
  apply (resolveMultipleScriptIds_one_failure
           [js "a"] [js "c"] (js "b") demo_world [src "A"] [src "C"] (no_script "b"));
    reflexivity.
Defined.

(** C6 (counterexample): the closure scope 1 returns the descriptor f,
    whose value is defined (a reference to a function); the merge of the
    descriptors whose value is defined holds f, the snapshot does not. *)
Lemma handleBreakpointHit_omits_defined_value :
  ∃ snap w',
    handleBreakpointHit (paused [demo_frame]) demo_world = (inr snap, w') ∧
    data "f" (function_ref "10")
      ∈ enumerated (scopeChain demo_frame) (w_session demo_world) ∧
    spec_merge (enumerated (scopeChain demo_frame) (w_session demo_world)) !! js "f"
      = Some (function_ref "10") ∧
    own snap !! js "f" = None.
Proof.
  eexists _, _. split; [reflexivity|]. split.
  - cbn. right. left.
  - split; vm_compute; reflexivity.
Qed.

Lemma handleBreakpointHit_snapshot_is_merge_witness :
  callFrames (params (paused [demo_frame])) = demo_frame :: [] ∧
  ∃ snap w',
    handleBreakpointHit (paused [demo_frame]) demo_world = (inr snap, w') ∧
    (∀ n, n ≠ proto_key →
       own snap !! n =
       merge_primitive (enumerated (scopeChain demo_frame) (w_session demo_world)) !! n) ∧
    (∀ n v before prop after,
       n ≠ proto_key →
       enumerated (scopeChain demo_frame) (w_session demo_world)
         = before ++ prop :: after →
       carries prop n v →
       (∀ later x, later ∈ after → ¬ carries later n x) →
       own snap !! n = Some v) ∧
    ((∀ prop, prop ∈ enumerated (scopeChain demo_frame) (w_session demo_world) →
        prop_name prop ≠ proto_key) →
     own snap =
     merge_primitive (enumerated (scopeChain demo_frame) (w_session demo_world))).
Proof.
  split; [reflexivity|].
  apply (handleBreakpointHit_snapshot_is_merge
           (paused [demo_frame]) demo_frame [] demo_world).
  reflexivity.
Defined.

(** The later closure scope redefines x: the snapshot holds its value. *)
Example demo_snapshot_x :
  ∃ snap w',
    handleBreakpointHit (paused [demo_frame]) demo_world = (inr snap, w') ∧
    own snap !! js "x" = Some (JNum 2%Z) ∧
    own snap !! js "y" = Some (JNum 7%Z) ∧
    own snap !! js "g" = None.
Proof. eexists _, _. split; [reflexivity|]. vm_compute. auto. Qed.

(** A variable named [__proto__]: assigning a number to that key of a
    plain object does nothing, assigning [null] replaces the prototype;
    neither makes a property. *)
Example proto_key_is_not_inserted :
  insert_prop empty_object (data "__proto__" (num 1)) = empty_object ∧
  insert_prop empty_object
    {| prop_name := proto_key;
       prop_value := Some {| ro_type := js "object"; ro_value := Some (@JNull Z);
                             ro_objectId := None |} |}
  = {| own := ∅; proto := NullPrototype |}.
Proof. split; reflexivity. Qed.

Lemma handleBreakpointHit_inserts_only_primitive_values_witness :
  callFrames (params (paused [demo_frame])) = demo_frame :: [] ∧
  (∀ (o : @JsObject Z) (prop : @PropertyDescriptor Z),
     (∀ ro, prop_value prop = Some ro → ro_value ro = None) →
     insert_prop o prop = o) ∧
  ∃ snap w',
    handleBreakpointHit (paused [demo_frame]) demo_world = (inr snap, w') ∧
    (∀ n v, own snap !! n = Some v →
       ∃ prop, prop ∈ enumerated (scopeChain demo_frame) (w_session demo_world) ∧
               carries prop n v) ∧
    (∀ n,
       (∀ prop ro, prop ∈ enumerated (scopeChain demo_frame) (w_session demo_world) →
          prop_name prop = n → prop_value prop = Some ro → ro_value ro = None) →
       own snap !! n = None).
Proof.
  split; [reflexivity|].
  apply (handleBreakpointHit_inserts_only_primitive_values
           (paused [demo_frame]) demo_frame [] demo_world).
  reflexivity.
Defined.

(** ** The pause-event waiter *)

Section WaiterFacts.
Context {Num : Type}.
Local Open Scope nat_scope.

Implicit Types (st : @State Num) (ev v : @BreakpointHitEvent Num)
  (l : Listener) (p q : nat).

Lemma resolve_listeners p v st : listeners (resolve p v st) = listeners st.
Proof. unfold resolve. destruct (promises st !! p) as [[]|]; reflexivity. Qed.

Lemma resolve_fulfilled p q v x st :
  promises st !! q = Some (Fulfilled x) →
  promises (resolve p v st) !! q = Some (Fulfilled x).
Proof.
  intros Hq. unfold resolve.
  destruct (promises st !! p) as [[]|] eqn:Hp; try exact Hq.
  cbn. rewrite list_lookup_insert_ne; [exact Hq|]. congruence.
Qed.

Lemma resolve_awaiting p q ev st :
  awaiting p ev st → awaiting p ev (resolve q ev st).
Proof.
  intros [Hp|Hp]; [|right; apply resolve_fulfilled; exact Hp].
  unfold awaiting, resolve.
  destruct (promises st !! q) as [[]|] eqn:Hq; auto. cbn.
  destruct (decide (q = p)) as [->|Hne].
  - right. apply list_lookup_insert_eq. eapply lookup_lt_Some. exact Hp.
  - left. rewrite list_lookup_insert_ne by exact Hne. exact Hp.
Qed.

Lemma resolve_settles p ev st :
  awaiting p ev st → promises (resolve p ev st) !! p = Some (Fulfilled ev).
Proof.
  intros [Hp|Hp]; [|apply resolve_fulfilled; exact Hp].
  unfold resolve. rewrite Hp. cbn.
  apply list_lookup_insert_eq. eapply lookup_lt_Some. exact Hp.
Qed.

Lemma call_listeners cb ev st : listeners (call cb ev st) = listeners st.
Proof. destruct cb; cbn; [rewrite resolve_listeners|]; reflexivity. Qed.

Lemma fire_listeners ev st l :
  listeners (fire ev st l) =
  if l_once l then filter (fun l' => l_id l' ≠ l_id l) (listeners st)
  else listeners st.
Proof. unfold fire. rewrite call_listeners. destruct (l_once l); reflexivity. Qed.

Lemma promises_unregister st l :
  promises (if l_once l then removeListener l st else st) = promises st.
Proof. destruct (l_once l); reflexivity. Qed.

Lemma fire_fulfilled ev st l q x :
  promises st !! q = Some (Fulfilled x) →
  promises (fire ev st l) !! q = Some (Fulfilled x).
Proof.
  intros Hq. unfold fire, call.
  destruct (l_callback l); [apply resolve_fulfilled; cbn|];
    rewrite promises_unregister; exact Hq.
Qed.

Lemma fire_awaiting ev st l p :
  awaiting p ev st → awaiting p ev (fire ev st l).
Proof.
  intros Hp. unfold fire, call.
  destruct (l_callback l); [apply resolve_awaiting|];
    unfold awaiting in *; cbn; rewrite promises_unregister; exact Hp.
Qed.

Lemma fire_settles ev st l p :
  l_callback l = ResolveNext p → awaiting p ev st →
  promises (fire ev st l) !! p = Some (Fulfilled ev).
Proof.
  intros Hcb Hp. unfold fire, call. rewrite Hcb.
  apply resolve_settles. unfold awaiting in *. cbn.
  rewrite promises_unregister. exact Hp.
Qed.

Lemma fold_fire_fulfilled ev (ls : list Listener) st q x :
  promises st !! q = Some (Fulfilled x) →
  promises (fold_left (fire ev) ls st) !! q = Some (Fulfilled x).
Proof.
  revert st. induction ls as [|l ls IH]; intros st Hq; [exact Hq|].
  cbn. apply IH, fire_fulfilled, Hq.
Qed.

Lemma fold_fire_settles ev (ls : list Listener) st l p :
  l ∈ ls → l_callback l = ResolveNext p → awaiting p ev st →
  promises (fold_left (fire ev) ls st) !! p = Some (Fulfilled ev).
Proof.
  intros Hin Hcb. revert st.
  induction ls as [|l' ls IH]; intros st Hp; [inversion Hin|].
  cbn. apply elem_of_cons in Hin as [<-|Hin].
  - apply fold_fire_fulfilled, fire_settles; assumption.
  - apply IH; [exact Hin|]. apply fire_awaiting, Hp.
Qed.

(** After the emitter has called the listeners [ls], what is still
    registered was registered before and is none of the once-wrappers
    among [ls]. *)
Lemma fold_fire_listeners ev (ls : list Listener) st l' :
  l' ∈ listeners (fold_left (fire ev) ls st) →
  l' ∈ listeners st ∧ ∀ l, l ∈ ls → l_once l = true → l_id l' ≠ l_id l.
Proof.
  revert st. induction ls as [|l0 ls IH]; intros st Hin.
  - split; [exact Hin|]. intros l Hl. inversion Hl.
  - cbn in Hin. apply IH in Hin as [Hin Hrest].
    rewrite fire_listeners in Hin.
    assert (Hboth : l' ∈ listeners st ∧ (l_once l0 = true → l_id l' ≠ l_id l0)).
    { destruct (l_once l0); [|split; [exact Hin|discriminate]].
      apply list_elem_of_filter in Hin as [Hne Hin]. split; [exact Hin|].
      intros _. exact Hne. }
    destruct Hboth as [Hst Hl0]. split; [exact Hst|].
    intros l Hl Honce. apply elem_of_cons in Hl as [->|Hl]; [auto|].
    apply Hrest; assumption.
Qed.

Lemma emit_fulfilled ev st q x :
  promises st !! q = Some (Fulfilled x) →
  promises (emit ev st) !! q = Some (Fulfilled x).
Proof. apply fold_fire_fulfilled. Qed.

Lemma emit_all_fulfilled (evs : list BreakpointHitEvent) st q x :
  promises st !! q = Some (Fulfilled x) →
  promises (emit_all evs st) !! q = Some (Fulfilled x).
Proof.
  revert st. induction evs as [|ev evs IH]; intros st Hq; [exact Hq|].
  cbn. apply IH, emit_fulfilled, Hq.
Qed.

(** C9: on an open session, one call of getNextPausedEvent registers
    exactly one listener and returns a pending promise; the next pause
    event the session emits fulfils the promise with that event and
    removes the registration, so no listener left would resolve it
    again; whatever pause events follow, the promise stays fulfilled with
    the first one. *)
Theorem getNextPausedEvent_resolves_once st ev (later : list BreakpointHitEvent) :
  state_ok st →
  let p := fst (getNextPausedEvent st) in
  let st1 := snd (getNextPausedEvent st) in
  let waiter :=
    {| l_id := next_listener st; l_once := true; l_callback := ResolveNext p |} in
  listeners st1 = listeners st ++ [waiter] ∧
  promises st1 !! p = Some Pending ∧
  promises (emit ev st1) !! p = Some (Fulfilled ev) ∧
  (∀ l, l ∈ listeners (emit ev st1) →
     l_id l ≠ l_id waiter ∧ l_callback l ≠ ResolveNext p) ∧
  promises (emit_all later (emit ev st1)) !! p = Some (Fulfilled ev).
Proof.
  intros Hok p st1 waiter.
  assert (Hpending : promises st1 !! p = Some Pending).
  { subst p st1. cbn. rewrite lookup_app_r by lia.
    rewrite Nat.sub_diag. reflexivity. }
  assert (Hdone : promises (emit ev st1) !! p = Some (Fulfilled ev)).
  { unfold emit. apply (fold_fire_settles ev _ _ waiter).
    - subst st1. cbn. apply elem_of_app. right. left.
    - reflexivity.
    - left. exact Hpending. }
  split; [reflexivity|]. split; [exact Hpending|]. split; [exact Hdone|].
  split; [|apply emit_all_fulfilled, Hdone].
  intros l Hl. unfold emit in Hl. apply fold_fire_listeners in Hl as [Hin Hnot].
  assert (Hid : l_id l ≠ l_id waiter).
  { apply Hnot; [|reflexivity]. subst st1. cbn. apply elem_of_app. right. left. }
  split; [exact Hid|].
  subst st1. cbn in Hin. apply elem_of_app in Hin as [Hold|Hnew].
  - intros Hcb. destruct (Hok l Hold) as [_ Hq]. specialize (Hq p Hcb).
    subst p. cbn in Hq. lia.
  - apply list_elem_of_singleton in Hnew. subst l. contradiction.
Qed.

End WaiterFacts.

Lemma getNextPausedEvent_resolves_once_witness :
  state_ok idle_state ∧
  let p := fst (getNextPausedEvent idle_state) in
  let st1 := snd (getNextPausedEvent idle_state) in
  let waiter :=
    {| l_id := next_listener idle_state; l_once := true;
       l_callback := ResolveNext p |} in
  listeners st1 = listeners idle_state ++ [waiter] ∧
  promises st1 !! p = Some Pending ∧
  promises (emit (paused [demo_frame]) st1) !! p
    = Some (Fulfilled (paused [demo_frame])) ∧
  (∀ l, l ∈ listeners (emit (paused [demo_frame]) st1) →
     l_id l ≠ l_id waiter ∧ l_callback l ≠ ResolveNext p) ∧
  promises (emit_all [paused []; paused [demo_frame]]
              (emit (paused [demo_frame]) st1)) !! p
    = Some (Fulfilled (paused [demo_frame])).
Proof.
  assert (Hok : state_ok idle_state).
  { intros l Hl. apply list_elem_of_singleton in Hl. subst l. cbn.
    split; [lia|discriminate]. }
  split; [exact Hok|].
  apply (getNextPausedEvent_resolves_once idle_state (paused [demo_frame])
           [paused []; paused [demo_frame]] Hok).
Defined.

(** ** The source-map marker pattern *)

Section RegexFacts.

Lemma starK_greedy {X} (p : N → bool) (k : JsString → option X) (s : JsString) :
  (∀ c s', p c = true → k (c :: s') = None) →
  Regex.starK p k s = k (drop_while p s).
Proof.
  intros Hk. induction s as [|c s IH]; [reflexivity|].
  cbn. destruct (p c) eqn:Hp; [|reflexivity].
  rewrite IH. destruct (k (drop_while p s)); [reflexivity|].
  apply Hk, Hp.
Qed.

Lemma run_literal (lit : JsString) (ts : list Regex.term) (cap s : JsString) :
  Regex.run (map Regex.TChar lit ++ ts) cap s =
  match strip_prefix lit s with
  | Some s' => Regex.run ts cap s'
  | None => None
  end.
Proof.
  revert s. induction lit as [|a lit IH]; intros s; [reflexivity|].
  cbn. destruct s as [|b s]; [reflexivity|].
  destruct (b =? a); [apply IH|reflexivity].
Qed.

Lemma run_end (cap s : JsString) :
  Regex.run [Regex.TEnd] cap s = if at_line_end s then Some cap else None.
Proof. destruct s as [|x s]; cbn; [|destruct (Regex.isLineTerminator x)]; reflexivity. Qed.

Lemma take_while_dot_line_end (s : JsString) :
  take_while Regex.isDot s = [] → at_line_end s = true.
Proof.
  destruct s as [|x s]; [reflexivity|]. cbn. unfold Regex.isDot.
  destruct (Regex.isLineTerminator x); [reflexivity|discriminate].
Qed.

Lemma plusK_greedy (acc s : JsString) :
  Regex.plusK Regex.isDot acc (fun v s' => Regex.run [Regex.TEnd] v s') s =
  match take_while Regex.isDot s with
  | [] => None
  | v => Some (acc ++ v)
  end.
Proof.
  revert acc. induction s as [|c s IH]; intros acc; [reflexivity|].
  cbn [Regex.plusK take_while]. destruct (Regex.isDot c) eqn:Hc; [|reflexivity].
  rewrite IH. destruct (take_while Regex.isDot s) as [|y v] eqn:Hv.
  - cbv beta. rewrite run_end, (take_while_dot_line_end s Hv). reflexivity.
  - rewrite <- app_assoc. reflexivity.
Qed.

Lemma literal_not_space (c : N) (s' : JsString) (cap : JsString) (ts : list Regex.term) :
  Regex.isSpace c = true →
  Regex.run (map Regex.TChar marker_literal ++ ts) cap (c :: s') = None.
Proof.
  intros Hc. rewrite run_literal. cbn [marker_literal strip_prefix].
  destruct (c =? 115) eqn:Hs; [|reflexivity].
  apply N.eqb_eq in Hs. subst c. discriminate Hc.
Qed.

(** At one start position the backtracking matcher finds what the direct
    reading of the pattern finds. *)
Lemma run_marker_value (s : JsString) :
  Regex.run sourceMapRegex [] s = marker_value s.
Proof.
  unfold sourceMapRegex, marker_value.
  destruct s as [|a s]; [reflexivity|]. cbn [app Regex.run].
  destruct (a =? 47) eqn:Ha.
  2:{ destruct a as [|a]; [reflexivity|].
      repeat (destruct a as [a|a|]; try reflexivity); discriminate Ha. }
  apply N.eqb_eq in Ha. subst a.
  destruct s as [|b s]; [reflexivity|].
  destruct (b =? 47) eqn:Hb.
  2:{ destruct b as [|b]; [reflexivity|].
      repeat (destruct b as [b|b|]; try reflexivity); discriminate Hb. }
  apply N.eqb_eq in Hb. subst b.
  destruct s as [|c s1]; [reflexivity|].
  destruct (isHashOrAt c); [|reflexivity].
  rewrite starK_greedy by (intros; apply literal_not_space; assumption).
  rewrite run_literal.
  destruct (strip_prefix marker_literal _) as [s3|]; [|reflexivity].
  change (Regex.run [Regex.TGroupPlus Regex.isDot; Regex.TEnd] [] s3)
    with (Regex.plusK Regex.isDot [] (fun v s' => Regex.run [Regex.TEnd] v s') s3).
  rewrite (plusK_greedy [] s3).
  destruct (take_while Regex.isDot s3); reflexivity.
Qed.

Lemma take_drop_while (p : N → bool) (s : JsString) :
  s = take_while p s ++ drop_while p s.
Proof.
  induction s as [|c s IH]; [reflexivity|].
  cbn. destruct (p c); [cbn; f_equal; exact IH|reflexivity].
Qed.

Lemma take_while_Forall (p : N → bool) (s : JsString) :
  Forall (fun x => p x = true) (take_while p s).
Proof.
  induction s as [|c s IH]; [constructor|].
  cbn. destruct (p c) eqn:Hc; constructor; assumption.
Qed.

Lemma drop_while_head (p : N → bool) (s : JsString) :
  match drop_while p s with
  | [] => True
  | x :: _ => p x = false
  end.
Proof.
  induction s as [|c s IH]; [exact I|].
  cbn. destruct (p c) eqn:Hc; [exact IH|exact Hc].
Qed.

Lemma drop_while_app (p : N → bool) (ws t : JsString) :
  Forall (fun x => p x = true) ws →
  drop_while p (ws ++ t) = drop_while p t.
Proof.
  induction 1 as [|c ws Hc _ IH]; [reflexivity|].
  cbn. rewrite Hc. exact IH.
Qed.

Lemma take_while_app (v rest : JsString) :
  Forall (fun x => Regex.isLineTerminator x = false) v →
  at_line_end rest = true →
  take_while Regex.isDot (v ++ rest) = v.
Proof.
  intros Hv Hrest. induction Hv as [|c v Hc _ IH].
  - destruct rest as [|x rest]; [reflexivity|].
    cbn in *. unfold Regex.isDot. rewrite Hrest. reflexivity.
  - cbn. unfold Regex.isDot at 1. rewrite Hc. cbn. f_equal. exact IH.
Qed.

Lemma strip_prefix_Some (pre s r : JsString) :
  strip_prefix pre s = Some r ↔ s = pre ++ r.
Proof.
  revert s. induction pre as [|a pre IH]; intros s; cbn.
  - split; [intros [= ->]; reflexivity|intros ->; reflexivity].
  - destruct s as [|b s]; [split; discriminate|].
    destruct (b =? a) eqn:Hab.
    + apply N.eqb_eq in Hab. subst b. rewrite IH.
      split; [intros ->; reflexivity|intros [= ->]; reflexivity].
    + split; [discriminate|]. intros [= -> _].
      rewrite N.eqb_refl in Hab. discriminate.
Qed.

Lemma isHashOrAt_true (c : N) : isHashOrAt c = true ↔ c = 35 ∨ c = 64.
Proof.
  unfold isHashOrAt. rewrite orb_true_iff, !N.eqb_eq. reflexivity.
Qed.

Lemma at_line_end_true (rest : JsString) :
  at_line_end rest = true ↔
  rest = [] ∨ ∃ x rest', rest = x :: rest' ∧ Regex.isLineTerminator x = true.
Proof.
  destruct rest as [|x rest]; cbn.
  - split; auto.
  - split.
    + intros Hx. right. eauto.
    + intros [Hnil|(y & r & [= <- <-] & Hy)]; [discriminate|exact Hy].
Qed.

(** The direct reading finds exactly the markers the specification
    describes. *)
Lemma marker_value_Some (s v : JsString) :
  marker_value s = Some v ↔ marker_at s v.
Proof.
  split.
  - unfold marker_value.
    destruct s as [|a s]; [discriminate|].
    destruct (N.eq_dec a 47) as [->|Ha].
    2:{ destruct a as [|a]; [discriminate|].
        repeat (destruct a as [a|a|]; try discriminate); contradiction. }
    destruct s as [|b s]; [discriminate|].
    destruct (N.eq_dec b 47) as [->|Hb].
    2:{ destruct b as [|b]; [discriminate|].
        repeat (destruct b as [b|b|]; try discriminate); contradiction. }
    destruct s as [|c s1]; [discriminate|].
    destruct (isHashOrAt c) eqn:Hc; [|discriminate].
    destruct (strip_prefix marker_literal _) as [s3|] eqn:Hlit; [|discriminate].
    apply strip_prefix_Some in Hlit.
    destruct (take_while Regex.isDot s3) as [|y v'] eqn:Hv; [discriminate|].
    intros [= <-].
    exists c, (take_while Regex.isSpace s1), (drop_while Regex.isDot s3).
    split.
    { change (47 :: 47 :: c :: s1) with ([47; 47; c] ++ s1). f_equal.
      rewrite (take_drop_while Regex.isSpace s1) at 1. f_equal.
      rewrite Hlit. f_equal. rewrite <- Hv. apply take_drop_while. }
    split; [apply isHashOrAt_true, Hc|].
    split; [apply take_while_Forall|].
    split; [discriminate|].
    split.
    { rewrite <- Hv.
      eapply Forall_impl; [apply (take_while_Forall Regex.isDot)|].
      intros x Hx. cbn in Hx. unfold Regex.isDot in Hx.
      destruct (Regex.isLineTerminator x); [discriminate|reflexivity]. }
    apply at_line_end_true.
    pose proof (drop_while_head Regex.isDot s3) as Hhead.
    destruct (drop_while Regex.isDot s3) as [|x r]; [reflexivity|].
    cbn. unfold Regex.isDot in Hhead.
    destruct (Regex.isLineTerminator x); [reflexivity|discriminate].
  - intros (c & ws & rest & -> & Hc & Hws & Hne & Hv & Hrest).
    cbn [app marker_value].
    rewrite (proj2 (isHashOrAt_true c) Hc).
    rewrite drop_while_app by exact Hws.
    assert (Hdrop : drop_while Regex.isSpace (marker_literal ++ v ++ rest)
                    = marker_literal ++ v ++ rest) by reflexivity.
    rewrite Hdrop.
    rewrite (proj2 (strip_prefix_Some marker_literal _ (v ++ rest)) eq_refl).
    rewrite take_while_app; [|exact Hv|apply at_line_end_true, Hrest].
    destruct v; [contradiction|reflexivity].
Qed.

Lemma marker_value_None (s : JsString) :
  marker_value s = None ↔ ∀ v, ¬ marker_at s v.
Proof.
  split.
  - intros Hnone v Hm. apply marker_value_Some in Hm. congruence.
  - intros Hno. destruct (marker_value s) as [v|] eqn:Hv; [|reflexivity].
    apply marker_value_Some in Hv. destruct (Hno v Hv).
Qed.

(** The scan over the start positions. *)
Lemma exec_None (ts : list Regex.term) (s : JsString) :
  Regex.exec ts s = None ↔
  ∀ pre s', s = pre ++ s' → Regex.run ts [] s' = None.
Proof.
  induction s as [|x s IH]; cbn.
  - split.
    + intros Hrun pre s' Hsplit. symmetry in Hsplit.
      apply app_eq_nil in Hsplit as [_ ->].
      destruct (Regex.run ts [] []); [discriminate|reflexivity].
    + intros Hall. rewrite (Hall [] [] eq_refl). reflexivity.
  - split.
    + intros Hrun pre s' Hsplit.
      destruct (Regex.run ts [] (x :: s)) eqn:Hhere; [discriminate|].
      destruct pre as [|y pre]; cbn in Hsplit.
      * subst s'. exact Hhere.
      * injection Hsplit as _ Hsplit. exact (proj1 IH Hrun pre s' Hsplit).
    + intros Hall. rewrite (Hall [] (x :: s) eq_refl).
      apply IH. intros pre s' Hsplit. apply (Hall (x :: pre) s'). cbn.
      f_equal. exact Hsplit.
Qed.

Lemma exec_Some (ts : list Regex.term) (s v : JsString) :
  Regex.exec ts s = Some v ↔
  ∃ pre s', s = pre ++ s' ∧ Regex.run ts [] s' = Some v ∧
    ∀ pre' s'', s = pre' ++ s'' → (length pre' < length pre)%nat →
                Regex.run ts [] s'' = None.
Proof.
  split.
  - induction s as [|x s IH].
    + cbn. destruct (Regex.run ts [] []) eqn:Hhere; [|discriminate].
      intros [= ->]. exists [], []. split; [reflexivity|]. split; [exact Hhere|].
      intros pre' s'' _ Hlt. cbn in Hlt. lia.
    + cbn. destruct (Regex.run ts [] (x :: s)) eqn:Hhere.
      * intros [= ->]. exists [], (x :: s). split; [reflexivity|].
        split; [exact Hhere|]. intros pre' s'' _ Hlt. cbn in Hlt. lia.
      * intros Hrest. destruct (IH Hrest) as (pre & s' & -> & Hrun & Hmin).
        exists (x :: pre), s'. split; [reflexivity|]. split; [exact Hrun|].
        intros pre' s'' Hsplit Hlt. destruct pre' as [|y pre']; cbn in Hsplit.
        -- subst s''. exact Hhere.
        -- injection Hsplit as _ Hsplit. apply (Hmin pre' s'' Hsplit).
           cbn in Hlt. lia.
  - intros (pre & s' & -> & Hrun & Hmin). induction pre as [|x pre IH].
    + cbn. destruct s' as [|y s']; cbn; rewrite Hrun; reflexivity.
    + cbn. rewrite (Hmin [] (x :: pre ++ s') eq_refl) by (cbn; lia).
      apply IH. intros pre' s'' Hsplit Hlt. apply (Hmin (x :: pre') s'').
      * cbn. f_equal. exact Hsplit.
      * cbn. lia.
Qed.

(** The pattern finds the first marker of the text, or nothing when the
    text has no marker. *)
Lemma exec_first_marker (text v : JsString) :
  Regex.exec sourceMapRegex text = Some v ↔ first_marker text v.
Proof.
  rewrite exec_Some. unfold first_marker.
  split; intros (pre & s & Hsplit & Hrun & Hmin); exists pre, s;
    (split; [exact Hsplit|]).
  - rewrite run_marker_value in Hrun. split; [apply marker_value_Some, Hrun|].
    intros pre' s' v' Hsplit' Hlt. apply marker_value_None.
    rewrite <- run_marker_value. apply (Hmin pre' s' Hsplit' Hlt).
  - rewrite run_marker_value. split; [apply marker_value_Some, Hrun|].
    intros pre' s' Hsplit' Hlt. rewrite run_marker_value.
    apply marker_value_None. intros v'. apply (Hmin pre' s' v' Hsplit' Hlt).
Qed.

Lemma exec_no_marker (text : JsString) :
  Regex.exec sourceMapRegex text = None ↔ no_marker text.
Proof.
  rewrite exec_None. unfold no_marker. split.
  - intros Hall pre s v Hsplit. apply marker_value_None.
    rewrite <- run_marker_value. apply (Hall pre s Hsplit).
  - intros Hno pre s Hsplit. rewrite run_marker_value.
    apply marker_value_None. intros v. apply (Hno pre s v Hsplit).
Qed.

(** *** A line break after a marker *)

Lemma marker_at_extend (s v more : JsString) (c : N) :
  Regex.isLineTerminator c = true →
  marker_at s v → marker_at (s ++ c :: more) v.
Proof.
  intros Hc (c0 & ws & rest & -> & Hc0 & Hws & Hne & Hv & Hrest).
  exists c0, ws, (rest ++ c :: more). split.
  { rewrite <- !app_assoc. reflexivity. }
  do 4 (split; [assumption|]).
  right. destruct Hrest as [->|(x & rest' & -> & Hx)]; cbn; eauto.
Qed.

Lemma strip_prefix_extend_None (lit t more : JsString) (c : N) :
  Forall (fun x => Regex.isLineTerminator x = false) lit →
  Regex.isLineTerminator c = true →
  strip_prefix lit t = None →
  strip_prefix lit (t ++ c :: more) = None.
Proof.
  intros Hlit Hc. revert t. induction Hlit as [|a lit Ha _ IH]; intros t.
  - discriminate.
  - destruct t as [|b t]; cbn.
    + intros _. destruct (c =? a) eqn:Hca; [|reflexivity].
      apply N.eqb_eq in Hca. congruence.
    + destruct (b =? a); [apply IH|reflexivity].
Qed.

Lemma strip_prefix_extend_Some (lit t r ext : JsString) :
  strip_prefix lit t = Some r → strip_prefix lit (t ++ ext) = Some (r ++ ext).
Proof.
  rewrite !strip_prefix_Some. intros ->. rewrite app_assoc. reflexivity.
Qed.

Lemma drop_while_extend (p : N → bool) (s ext : JsString) :
  drop_while p s ≠ [] → drop_while p (s ++ ext) = drop_while p s ++ ext.
Proof.
  induction s as [|x s IH]; cbn; [contradiction|].
  destruct (p x); [exact IH|reflexivity].
Qed.

Lemma drop_while_nil (p : N → bool) (s : JsString) :
  drop_while p s = [] → Forall (fun x => p x = true) s.
Proof.
  induction s as [|x s IH]; cbn; [constructor|].
  destruct (p x) eqn:Hx; [|discriminate]. intros Hs. constructor; auto.
Qed.

Lemma take_while_extend_nil (s more : JsString) (c : N) :
  Regex.isLineTerminator c = true →
  take_while Regex.isDot s = [] →
  take_while Regex.isDot (s ++ c :: more) = [].
Proof.
  intros Hc. destruct s as [|x s]; cbn.
  - unfold Regex.isDot. rewrite Hc. reflexivity.
  - destruct (Regex.isDot x); [discriminate|reflexivity].
Qed.

Lemma marker_literal_no_break :
  Forall (fun x => Regex.isLineTerminator x = false) marker_literal.
Proof. repeat constructor. Qed.

(** A start position where no marker begins, in a text with a marker
    further on, stays without one when the text goes on after a line
    break. *)
Lemma marker_value_extend_None (d tail more : JsString) (c : N) :
  Regex.isLineTerminator c = true →
  d ≠ [] →
  marker_value (d ++ 47 :: 47 :: tail) = None →
  marker_value ((d ++ 47 :: 47 :: tail) ++ c :: more) = None.
Proof.
  intros Hc Hd. remember (d ++ 47 :: 47 :: tail) as s0 eqn:Hs0.
  destruct s0 as [|x1 s0]; [destruct d; discriminate|].
  destruct s0 as [|x2 s0].
  { destruct d as [|? [|? ?]]; try discriminate; contradiction. }
  destruct s0 as [|x3 s1].
  { destruct d as [|? [|? [|? ?]]]; try discriminate; contradiction. }
  assert (Hgap : isHashOrAt x3 = true → drop_while Regex.isSpace s1 ≠ []).
  { (* only white space follows: no marker could begin further on *)
    intros Hx3 Hdrop. apply drop_while_nil in Hdrop.
    assert (Hno : Forall (fun x => x ≠ 47) (x3 :: s1)).
    { constructor.
      - apply isHashOrAt_true in Hx3 as [->| ->]; discriminate.
      - eapply Forall_impl; [exact Hdrop|]. intros x Hx ->. discriminate Hx. }
    destruct d as [|d1 [|d2 d]]; [contradiction| |]; cbn in Hs0.
    - injection Hs0 as _ _ Hx _. subst x3. inversion Hno; congruence.
    - injection Hs0 as _ _ Hrest. rewrite Hrest in Hno.
      apply Forall_app in Hno as [_ Hno]. inversion Hno. congruence. }
  clear Hs0. cbn [app]. unfold marker_value.
  destruct x1 as [|x1]; [reflexivity|].
  do 6 (destruct x1 as [x1|x1|]; try reflexivity).
  destruct x2 as [|x2]; [reflexivity|].
  do 6 (destruct x2 as [x2|x2|]; try reflexivity).
  destruct (isHashOrAt x3) eqn:Hx3; [|reflexivity].
  specialize (Hgap eq_refl).
  destruct (drop_while Regex.isSpace s1) as [|y t] eqn:Hdrop; [contradiction|].
  rewrite drop_while_extend by (rewrite Hdrop; discriminate).
  rewrite Hdrop.
  destruct (strip_prefix marker_literal (y :: t)) as [s3|] eqn:Hlit.
  - rewrite (strip_prefix_extend_Some _ _ _ _ Hlit).
    destruct (take_while Regex.isDot s3) eqn:Hv; [|discriminate].
    intros _. rewrite take_while_extend_nil by assumption. reflexivity.
  - intros _.
    rewrite (strip_prefix_extend_None _ _ _ _ marker_literal_no_break Hc Hlit).
    reflexivity.
Qed.

Lemma marker_at_slashes (s v : JsString) :
  marker_at s v → ∃ tail, s = 47 :: 47 :: tail.
Proof. intros (c & ws & rest & -> & _). eexists. reflexivity. Qed.

(** What the pattern finds does not change when the text goes on after a
    line break. *)
Lemma exec_extend (text more v : JsString) (c : N) :
  Regex.isLineTerminator c = true →
  Regex.exec sourceMapRegex text = Some v →
  Regex.exec sourceMapRegex (text ++ c :: more) = Some v.
Proof.
  intros Hc. induction text as [|x text IH].
  - cbn. discriminate.
  - cbn [Regex.exec app]. rewrite !run_marker_value.
    destruct (marker_value (x :: text)) as [v'|] eqn:Hhere.
    + intros [= ->]. apply marker_value_Some in Hhere.
      apply (marker_at_extend _ _ more c Hc), marker_value_Some in Hhere.
      cbn [app] in Hhere. rewrite Hhere. reflexivity.
    + intros Hrest. specialize (IH Hrest).
      apply exec_first_marker in Hrest as (pre & s & -> & Hm & _).
      apply marker_at_slashes in Hm as [tail ->].
      pose proof (marker_value_extend_None (x :: pre) tail more c Hc) as Hnone.
      cbn [app] in Hnone. rewrite Hnone; [exact IH|discriminate|exact Hhere].
Qed.

(** ** indexOf and split *)

Lemma startsWith_true (sep s : JsString) :
  startsWith sep s = true ↔ ∃ r, s = sep ++ r.
Proof.
  revert s. induction sep as [|a sep IH]; intros s; cbn.
  - split; eauto.
  - destruct s as [|b s]; [split; [discriminate|intros [r [=]]]|].
    rewrite andb_true_iff, N.eqb_eq, IH. split.
    + intros [-> [r ->]]. eauto.
    + intros [r [= -> ->]]. eauto.
Qed.

Lemma indexOf_spec (sep s : JsString) :
  (∃ a r, first_occurrence sep s a r ∧ indexOf sep s = Z.of_nat (length a)) ∨
  (no_occurrence sep s ∧ indexOf sep s = (-1)%Z).
Proof.
  induction s as [|x s IH]; cbn [indexOf].
  - destruct (startsWith sep []) eqn:Hsw.
    + left. apply startsWith_true in Hsw as [r Hr]. exists [], r.
      split; [|reflexivity]. split; [exact Hr|]. intros; cbn; lia.
    + right. split; [|reflexivity]. intros a r Hsplit.
      destruct a; [|discriminate].
      assert (startsWith sep [] = true) by (apply startsWith_true; eauto).
      congruence.
  - destruct (startsWith sep (x :: s)) eqn:Hsw.
    + left. apply startsWith_true in Hsw as [r Hr]. exists [], r.
      split; [|reflexivity]. split; [exact Hr|]. intros; cbn; lia.
    + assert (Hnot0 : ∀ r, x :: s ≠ sep ++ r).
      { intros r Hr.
        assert (startsWith sep (x :: s) = true) by (apply startsWith_true; eauto).
        congruence. }
      destruct IH as [(a & r & [Hsplit Hmin] & Hidx)|[Hno Hidx]]; rewrite Hidx.
      * left. exists (x :: a), r.
        destruct (Z.of_nat (length a) <? 0)%Z eqn:Hneg; [lia|].
        split; [|cbn [length]; lia]. split; [cbn; f_equal; exact Hsplit|].
        intros a' r' Hsplit'. destruct a' as [|y a'].
        -- destruct (Hnot0 r' Hsplit').
        -- injection Hsplit' as _ Hsplit'. specialize (Hmin a' r' Hsplit').
           cbn. lia.
      * right. split; [|reflexivity]. intros a' r' Hsplit'.
        destruct a' as [|y a'].
        -- destruct (Hnot0 r' Hsplit').
        -- injection Hsplit' as _ Hsplit'. destruct (Hno a' r' Hsplit').
Qed.

Lemma no_first_occurrence (sep s a r : JsString) :
  no_occurrence sep s → ¬ first_occurrence sep s a r.
Proof. intros Hno [Hsplit _]. destruct (Hno a r Hsplit). Qed.

Lemma indexOf_found (sep s a r : JsString) :
  first_occurrence sep s a r → (indexOf sep s >? -1)%Z = true.
Proof.
  intros Hfirst.
  destruct (indexOf_spec sep s) as [(a' & r' & _ & ->)|[Hno _]].
  - rewrite Z.gtb_ltb. apply Z.ltb_lt. lia.
  - destruct (no_first_occurrence _ _ _ _ Hno Hfirst).
Qed.

Lemma indexOf_missing (sep s : JsString) :
  no_occurrence sep s → (indexOf sep s >? -1)%Z = false.
Proof.
  intros Hno.
  destruct (indexOf_spec sep s) as [(a & r & Hfirst & _)|[_ ->]]; [|reflexivity].
  destruct (no_first_occurrence _ _ _ _ Hno Hfirst).
Qed.

Lemma split_go_skip (sep x cur r : JsString) :
  split_go sep (length x) cur (x ++ r) = split_go sep 0 cur r.
Proof. induction x as [|c x IH]; [reflexivity|exact IH]. Qed.

Lemma split_go_no_occurrence (sep cur s : JsString) :
  no_occurrence sep s → split_go sep 0 cur s = [cur ++ s].
Proof.
  revert cur. induction s as [|c s IH]; intros cur Hno; cbn.
  - rewrite app_nil_r. reflexivity.
  - destruct (startsWith sep (c :: s)) eqn:Hsw.
    + apply startsWith_true in Hsw as [r Hr]. destruct (Hno [] r Hr).
    + rewrite IH, <- app_assoc; [reflexivity|].
      intros a r Hsplit. apply (Hno (c :: a) r). cbn. f_equal. exact Hsplit.
Qed.

Lemma split_go_first (sep cur s a r : JsString) :
  sep ≠ [] →
  first_occurrence sep s a r →
  split_go sep 0 cur s = (cur ++ a) :: split_go sep 0 [] r.
Proof.
  intros Hsep. revert cur s. induction a as [|c a IH]; intros cur s [-> Hmin].
  - destruct sep as [|y sep]; [contradiction|]. cbn [app split_go].
    rewrite (proj2 (startsWith_true (y :: sep) (y :: sep ++ r)))
      by (exists r; reflexivity).
    rewrite app_nil_r. f_equal. cbn [length]. rewrite Nat.sub_succ, Nat.sub_0_r.
    apply split_go_skip.
  - cbn [app split_go].
    destruct (startsWith sep (c :: a ++ sep ++ r)) eqn:Hsw.
    + apply startsWith_true in Hsw as [r' Hr'].
      specialize (Hmin [] r' Hr'). cbn in Hmin. lia.
    + rewrite (IH (cur ++ [c]) (a ++ sep ++ r)), <- app_assoc; [reflexivity|].
      split; [reflexivity|]. intros a' r' Hsplit'.
      specialize (Hmin (c :: a') r'). cbn in Hmin. rewrite Hsplit' in Hmin.
      specialize (Hmin eq_refl). lia.
Qed.

(** The second piece of [s.split(sep)]: what stands between the first
    occurrence of [sep] and the next one, or the end. *)
Lemma split_second_last (sep s a r : JsString) :
  sep ≠ [] → first_occurrence sep s a r → no_occurrence sep r →
  nth_error (split sep s) 1 = Some r.
Proof.
  intros Hsep Hfirst Hno. unfold split.
  rewrite (split_go_first sep [] s a r Hsep Hfirst).
  cbn. rewrite split_go_no_occurrence by exact Hno. reflexivity.
Qed.

Lemma split_second_between (sep s a r r1 r2 : JsString) :
  sep ≠ [] → first_occurrence sep s a r → first_occurrence sep r r1 r2 →
  nth_error (split sep s) 1 = Some r1.
Proof.
  intros Hsep Hfirst Hnext. unfold split.
  rewrite (split_go_first sep [] s a r Hsep Hfirst).
  cbn. rewrite (split_go_first sep [] r r1 r2 Hsep Hnext). reflexivity.
Qed.

Lemma base64_marker_nonempty : base64_marker ≠ [].
Proof. discriminate. Qed.

Lemma marker_cases (text : JsString) :
  no_marker text ∨ ∃ v, first_marker text v.
Proof.
  destruct (Regex.exec sourceMapRegex text) as [v|] eqn:Hexec.
  - right. exists v. apply exec_first_marker, Hexec.
  - left. apply exec_no_marker, Hexec.
Qed.

Lemma occurrence_cases (sep s : JsString) :
  no_occurrence sep s ∨ ∃ a r, first_occurrence sep s a r.
Proof.
  destruct (indexOf_spec sep s) as [(a & r & Hfirst & _)|[Hno _]]; eauto.
Qed.

End RegexFacts.

(** ** extractSourceMapUrl *)

(** C3 (amended): extractSourceMapUrl takes its result from the first
    marker of the text: once a text has a marker, whatever follows after a
    line break, further marker lines included, leaves the result as it
    is. *)
Theorem extractSourceMapUrl_first_line_wins (text more : JsString) (c : N) :
  Regex.isLineTerminator c = true →
  extractSourceMapUrl text ≠ JsNull →
  extractSourceMapUrl (text ++ c :: more) = extractSourceMapUrl text.
Proof.
  intros Hc Hfound. unfold extractSourceMapUrl in *.
  destruct (Regex.exec sourceMapRegex text) as [v|] eqn:Hexec; [|contradiction].
  rewrite (exec_extend text more v c Hc Hexec). reflexivity.
Qed.

(** C4 (amended): every text either has no marker, and then
    extractSourceMapUrl returns null, or has a first marker, reading from
    the top; if the value of the first marker does not contain [base64,]
    the result is the value verbatim; if it does, the result is what
    follows the first [base64,], up to the next [base64,] when there is
    one and to the end of the value otherwise.  The two examples of the
    specification evaluate to abc.map and eyJ9. *)
Theorem extractSourceMapUrl_first_marker :
  (∀ text : JsString,
     (no_marker text ∨ ∃ v, first_marker text v) ∧
     (no_marker text → extractSourceMapUrl text = JsNull) ∧
     (∀ v, first_marker text v →
        (no_occurrence base64_marker v ∨ ∃ a r, first_occurrence base64_marker v a r) ∧
        (no_occurrence base64_marker v → extractSourceMapUrl text = JsStr v) ∧
        (∀ a r, first_occurrence base64_marker v a r →
           (no_occurrence base64_marker r → extractSourceMapUrl text = JsStr r) ∧
           (∀ r1 r2, first_occurrence base64_marker r r1 r2 →
              extractSourceMapUrl text = JsStr r1)))) ∧
  extractSourceMapUrl (js "// code" ++ [10] ++ js "//# sourceMappingURL=abc.map")
    = JsStr (js "abc.map") ∧
  extractSourceMapUrl (js "//# sourceMappingURL=data:application/json;base64,eyJ9")
    = JsStr (js "eyJ9") ∧
  extractSourceMapUrl (js "// code") = JsNull.
Proof.
  split; [|repeat split; vm_compute; reflexivity].
  intros text. split; [apply marker_cases|]. split.
  { intros Hno. unfold extractSourceMapUrl.
    rewrite (proj2 (exec_no_marker text) Hno). reflexivity. }
  intros v Hfirst. apply exec_first_marker in Hfirst.
  unfold extractSourceMapUrl. rewrite Hfirst.
  split; [apply occurrence_cases|]. split.
  { intros Hno. rewrite (indexOf_missing _ _ Hno). reflexivity. }
  intros a r Hocc. rewrite (indexOf_found _ _ _ _ Hocc). split.
  - intros Hno.
    rewrite (split_second_last _ _ _ _ base64_marker_nonempty Hocc Hno).
    reflexivity.
  - intros r1 r2 Hnext.
    rewrite (split_second_between _ _ _ _ _ _ base64_marker_nonempty Hocc Hnext).
    reflexivity.
Qed.

(** C3 (counterexample): a text with two marker lines; the last one
    carries b.map, the result is a.map. *)
Lemma extractSourceMapUrl_not_last_marker :
  marker_lines two_markers = [js "a.map"; js "b.map"] ∧
  last (marker_lines two_markers) = Some (js "b.map") ∧
  extractSourceMapUrl two_markers = JsStr (js "a.map") ∧
  extractSourceMapUrl two_markers ≠ JsStr (js "b.map").
Proof. repeat split; try (vm_compute; reflexivity). discriminate. Qed.

Lemma extractSourceMapUrl_first_line_wins_witness :
  Regex.isLineTerminator 10 = true ∧
  extractSourceMapUrl (js "//# sourceMappingURL=a.map") ≠ JsNull ∧
  extractSourceMapUrl
    (js "//# sourceMappingURL=a.map" ++ 10 :: js "//# sourceMappingURL=b.map")
  = extractSourceMapUrl (js "//# sourceMappingURL=a.map").
Proof.
  split; [reflexivity|]. split; [discriminate|].
  apply (extractSourceMapUrl_first_line_wins
           (js "//# sourceMappingURL=a.map") (js "//# sourceMappingURL=b.map") 10);
    [reflexivity|discriminate].
Defined.

(** C4 (counterexample): the value of the marker contains [base64,]
    twice; what follows the first one is abbase64,cd, the result is ab. *)
Lemma extractSourceMapUrl_second_base64 :
  first_marker double_base64 (js "base64,abbase64,cd") ∧
  first_occurrence base64_marker (js "base64,abbase64,cd") [] (js "abbase64,cd") ∧
  extractSourceMapUrl double_base64 = JsStr (js "ab") ∧
  extractSourceMapUrl double_base64 ≠ JsStr (js "abbase64,cd").
Proof.
  split; [apply exec_first_marker; vm_compute; reflexivity|].
  split; [split; [reflexivity|intros; cbn; lia]|].
  split; [vm_compute; reflexivity|discriminate].
Qed.

(** ** Buffer: base64 and UTF-8 round trips *)

(** Quotients and remainders by a constant, named. *)
Lemma div_mod_parts (n m : N) :
  m ≠ 0 → n = n / m * m + n mod m ∧ n mod m < m.
Proof.
  intros Hm. split; [|apply N.mod_lt, Hm].
  rewrite (N.div_mod' n m) at 1. lia.
Qed.

Lemma div_mul_add (x y m : N) : y < m → (x * m + y) / m = x.
Proof.
  intros Hy. rewrite N.div_add_l by lia. rewrite N.div_small by exact Hy. lia.
Qed.

Lemma mod_mul_add (x y m : N) : y < m → (x * m + y) mod m = y.
Proof.
  intros Hy. rewrite N.add_comm, N.Div0.mod_add. apply N.mod_small, Hy.
Qed.

Lemma parts2 (n m : N) :
  m ≠ 0 → ∃ q r, n / m = q ∧ n mod m = r ∧ n = q * m + r ∧ r < m.
Proof.
  intros Hm. destruct (div_mod_parts n m Hm) as [Hn Hr]. eauto 6.
Qed.

Lemma parts3 (n m : N) :
  m ≠ 0 →
  ∃ a b c, n / (m * m) = a ∧ (n / m) mod m = b ∧ n mod m = c ∧
           n = (a * m + b) * m + c ∧ b < m ∧ c < m.
Proof.
  intros Hm. destruct (div_mod_parts n m Hm) as [Hn Hc].
  destruct (div_mod_parts (n / m) m Hm) as [Hq Hb].
  rewrite N.Div0.div_div in Hq.
  exists (n / (m * m)), ((n / m) mod m), (n mod m).
  repeat split; try assumption. rewrite <- Hq. exact Hn.
Qed.

Lemma parts4 (n m : N) :
  m ≠ 0 →
  ∃ a b c d, n / (m * m * m) = a ∧ (n / (m * m)) mod m = b ∧
             (n / m) mod m = c ∧ n mod m = d ∧
             n = ((a * m + b) * m + c) * m + d ∧ b < m ∧ c < m ∧ d < m.
Proof.
  intros Hm. destruct (parts3 n m Hm) as (q & c & d & Hq & Hc & Hd & Hn & Hcm & Hdm).
  destruct (div_mod_parts (n / (m * m)) m Hm) as [Hqq Hb].
  rewrite N.Div0.div_div in Hqq.
  exists (n / (m * m * m)), ((n / (m * m)) mod m), c, d.
  repeat split; try assumption. rewrite <- Hqq, Hq. exact Hn.
Qed.

Lemma bytes2 (u : N) :
  ∃ q r, u / 64 = q ∧ u mod 64 = r ∧ u = q * 64 + r ∧ r < 64.
Proof. apply (parts2 u 64). discriminate. Qed.

Lemma bytes3 (u : N) :
  ∃ a b c, u / 4096 = a ∧ (u / 64) mod 64 = b ∧ u mod 64 = c ∧
           u = (a * 64 + b) * 64 + c ∧ b < 64 ∧ c < 64.
Proof. apply (parts3 u 64). discriminate. Qed.

Lemma bytes4 (u : N) :
  ∃ a b c d, u / 262144 = a ∧ (u / 4096) mod 64 = b ∧ (u / 64) mod 64 = c ∧
             u mod 64 = d ∧
             u = ((a * 64 + b) * 64 + c) * 64 + d ∧ b < 64 ∧ c < 64 ∧ d < 64.
Proof. apply (parts4 u 64). discriminate. Qed.

Lemma nibbles4 (u : N) :
  ∃ a b c d, u / 4096 = a ∧ (u / 256) mod 16 = b ∧ (u / 16) mod 16 = c ∧
             u mod 16 = d ∧
             u = ((a * 16 + b) * 16 + c) * 16 + d ∧ b < 16 ∧ c < 16 ∧ d < 16.
Proof. apply (parts4 u 16). discriminate. Qed.

Lemma list_ind3 {A} (P : list A -> Prop) :
  P [] -> (forall a, P [a]) -> (forall a b, P [a; b]) ->
  (forall a b c rest, P rest -> P (a :: b :: c :: rest)) ->
  forall l, P l.
Proof.
  intros Hnil H1 H2 H3.
  fix self 1. intros [|a [|b [|c rest]]];
    [exact Hnil|apply H1|apply H2|apply H3, self].
Qed.

Lemma unbase64_base64_char (v : N) :
  v < 64 ->
  unbase64 (base64_char v) = Some v /\
  base64_char v < 256 /\ base64_char v <> 61.
Proof.
  intros Hv. unfold base64_char.
  destruct (N.ltb_spec v 26); [|destruct (N.ltb_spec v 52);
    [|destruct (N.ltb_spec v 62); [|destruct (N.eqb_spec v 62)]]].
  all: unfold unbase64.
  all: repeat match goal with
    | |- context [N.leb ?a ?b] => destruct (N.leb_spec a b); cbn [andb orb]
    | |- context [N.eqb ?a ?b] => destruct (N.eqb_spec a b); cbn [andb orb]
    end.
  all: try lia.
  all: repeat split; try lia; f_equal; lia.
Qed.

Lemma legal_sextets_char (v : N) (s : JsString) :
  v < 64 -> legal_sextets (base64_char v :: s) = v :: legal_sextets s.
Proof.
  intros Hv. destruct (unbase64_base64_char v Hv) as (Hun & Hlt & Hne).
  cbn [legal_sextets]. rewrite (N.mod_small _ _ Hlt).
  destruct (N.eqb_spec (base64_char v) 61); [contradiction|].
  rewrite Hun. reflexivity.
Qed.

Lemma legal_sextets_padding (s : JsString) : legal_sextets (61 :: s) = [].
Proof. reflexivity. Qed.

(** Decoding what the encoder wrote gives the bytes back. *)
Lemma base64_round_trip (bytes : list N) :
  Forall (fun b => b < 256) bytes ->
  Buffer_from_base64 (base64_encode bytes) = bytes.
Proof.
  unfold Buffer_from_base64.
  induction bytes as [|a|a b|a b c rest IH] using list_ind3; intros Hbytes.
  - reflexivity.
  - inversion_clear Hbytes as [|? ? Ha _].
    destruct (parts2 a 4) as (x1 & y1 & E1 & E1' & Ea & Hy1); [discriminate|].
    cbn [base64_encode]. rewrite E1, E1'.
    rewrite !legal_sextets_char by lia. rewrite legal_sextets_padding.
    cbn [pack_sextets]. rewrite N.div_mul by discriminate. f_equal. lia.
  - inversion_clear Hbytes as [|? ? Ha Hb']. inversion_clear Hb' as [|? ? Hb _].
    destruct (parts2 a 4) as (x1 & y1 & E1 & E1' & Ea & Hy1); [discriminate|].
    destruct (parts2 b 16) as (x2 & y2 & E2 & E2' & Eb & Hy2); [discriminate|].
    cbn [base64_encode]. rewrite E1, E1', E2, E2'.
    rewrite !legal_sextets_char by lia. rewrite legal_sextets_padding.
    cbn [pack_sextets].
    rewrite (div_mul_add y1 x2 16), (mod_mul_add y1 x2 16) by lia.
    rewrite N.div_mul by discriminate.
    f_equal; [lia|]. f_equal. lia.
  - inversion_clear Hbytes as [|? ? Ha Hb']. inversion_clear Hb' as [|? ? Hb Hc'].
    inversion_clear Hc' as [|? ? Hc Hrest].
    destruct (parts2 a 4) as (x1 & y1 & E1 & E1' & Ea & Hy1); [discriminate|].
    destruct (parts2 b 16) as (x2 & y2 & E2 & E2' & Eb & Hy2); [discriminate|].
    destruct (parts2 c 64) as (x3 & y3 & E3 & E3' & Ec & Hy3); [discriminate|].
    cbn [base64_encode app]. rewrite E1, E1', E2, E2', E3, E3'.
    rewrite !legal_sextets_char by lia.
    cbn [pack_sextets app]. rewrite (IH Hrest).
    rewrite (div_mul_add y1 x2 16), (mod_mul_add y1 x2 16) by lia.
    rewrite (div_mul_add y2 x3 4), (mod_mul_add y2 x3 4) by lia.
    f_equal; [lia|]. f_equal; [lia|]. f_equal. lia.
Qed.

Example base64_lenient :
  Buffer_from_base64 (js "e30=") = [123; 125] /\
  Buffer_from_base64 (js "e!30=") = [123; 125] /\
  Buffer_from_base64 (js "e30") = [123; 125] /\
  Buffer_from_base64 (js "e 3 0 = = x") = [123; 125].
Proof. repeat split; vm_compute; reflexivity. Qed.

Lemma surrogate_bounds (u : N) :
  is_high_surrogate u = false -> is_low_surrogate u = false ->
  u < 55296 \/ 57343 < u.
Proof.
  unfold is_high_surrogate, is_low_surrogate.
  destruct (N.leb_spec 55296 u), (N.leb_spec u 56319),
    (N.leb_spec 56320 u), (N.leb_spec u 57343); cbn; intros; try discriminate; lia.
Qed.

Lemma high_surrogate_bounds (u : N) :
  is_high_surrogate u = true -> 55296 <= u <= 56319.
Proof.
  unfold is_high_surrogate. rewrite andb_true_iff, !N.leb_le. tauto.
Qed.

Lemma low_surrogate_bounds (u : N) :
  is_low_surrogate u = true -> 56320 <= u <= 57343.
Proof.
  unfold is_low_surrogate. rewrite andb_true_iff, !N.leb_le. tauto.
Qed.

Lemma in_range_true (lo hi b : N) :
  lo <= b -> b <= hi -> in_range lo hi b = true.
Proof.
  intros Hlo Hhi. unfold in_range.
  rewrite (proj2 (N.leb_le lo b) Hlo), (proj2 (N.leb_le b hi) Hhi). reflexivity.
Qed.

Lemma in_range_false (lo hi b : N) :
  b < lo \/ hi < b -> in_range lo hi b = false.
Proof.
  intros Hout. unfold in_range.
  destruct (N.leb_spec lo b), (N.leb_spec b hi); try reflexivity; lia.
Qed.

(** The decoder on a well-formed sequence of one to four bytes. *)
Lemma toString_1 (b1 : N) (r : list N) :
  b1 < 128 -> Buffer_toString (b1 :: r) = b1 :: Buffer_toString r.
Proof.
  intros H1. cbn [Buffer_toString].
  rewrite (proj2 (N.ltb_lt b1 128) H1). reflexivity.
Qed.

Lemma toString_2 (b1 b2 : N) (r : list N) :
  194 <= b1 <= 223 -> 128 <= b2 <= 191 ->
  Buffer_toString (b1 :: b2 :: r) =
  utf16_units ((b1 - 192) * 64 + (b2 - 128)) ++ Buffer_toString r.
Proof.
  intros H1 H2. cbn [Buffer_toString].
  rewrite (proj2 (N.ltb_ge b1 128)) by lia.
  rewrite (in_range_true 194 223 b1), (in_range_true 128 191 b2) by lia.
  reflexivity.
Qed.

Lemma toString_3 (b1 b2 b3 : N) (r : list N) :
  224 <= b1 <= 239 -> 128 <= b2 <= 191 ->
  (b1 = 224 -> 160 <= b2) -> (b1 = 237 -> b2 <= 159) ->
  128 <= b3 <= 191 ->
  Buffer_toString (b1 :: b2 :: b3 :: r) =
  utf16_units ((b1 - 224) * 4096 + (b2 - 128) * 64 + (b3 - 128))
  ++ Buffer_toString r.
Proof.
  intros H1 H2 Hlow Hhigh H3. cbn [Buffer_toString].
  rewrite (proj2 (N.ltb_ge b1 128)) by lia.
  rewrite (in_range_false 194 223 b1) by lia.
  rewrite (in_range_true 224 239 b1) by lia.
  rewrite (in_range_true _ _ b2), (in_range_true 128 191 b3); try lia.
  - reflexivity.
  - destruct (N.eqb_spec b1 224); lia.
  - destruct (N.eqb_spec b1 237); lia.
Qed.

Lemma toString_4 (b1 b2 b3 b4 : N) (r : list N) :
  240 <= b1 <= 244 -> 128 <= b2 <= 191 ->
  (b1 = 240 -> 144 <= b2) -> (b1 = 244 -> b2 <= 143) ->
  128 <= b3 <= 191 -> 128 <= b4 <= 191 ->
  Buffer_toString (b1 :: b2 :: b3 :: b4 :: r) =
  utf16_units ((b1 - 240) * 262144 + (b2 - 128) * 4096 + (b3 - 128) * 64
               + (b4 - 128))
  ++ Buffer_toString r.
Proof.
  intros H1 H2 Hlow Hhigh H3 H4. cbn [Buffer_toString].
  rewrite (proj2 (N.ltb_ge b1 128)) by lia.
  rewrite (in_range_false 194 223 b1) by lia.
  rewrite (in_range_false 224 239 b1) by lia.
  rewrite (in_range_true 240 244 b1) by lia.
  rewrite (in_range_true _ _ b2), (in_range_true 128 191 b3),
    (in_range_true 128 191 b4); try lia.
  - reflexivity.
  - destruct (N.eqb_spec b1 240); lia.
  - destruct (N.eqb_spec b1 244); lia.
Qed.

Lemma toString_unit (u : N) (bytes : list N) :
  u < 65536 -> is_high_surrogate u = false -> is_low_surrogate u = false ->
  Buffer_toString (utf8_bytes u ++ bytes) = u :: Buffer_toString bytes.
Proof.
  intros Hu Hhi Hlo. pose proof (surrogate_bounds u Hhi Hlo) as Hsur.
  unfold utf8_bytes.
  destruct (N.ltb_spec u 128) as [H1|H1]; [apply toString_1, H1|].
  destruct (N.ltb_spec u 2048) as [H2|H2].
  { destruct (bytes2 u) as (q & r & Eq & Er & Eu & Hr). rewrite Eq, Er.
    cbn [app]. rewrite toString_2 by lia. unfold utf16_units.
    rewrite (proj2 (N.ltb_lt _ 65536)) by lia. cbn [app]. f_equal. lia. }
  destruct (N.ltb_spec u 65536) as [H3|H3]; [|lia].
  destruct (bytes3 u) as (a & b & c & Ea & Eb & Ec & Eu & Hb & Hc).
  rewrite Ea, Eb, Ec.
  cbn [app]. rewrite toString_3 by lia. unfold utf16_units.
  rewrite (proj2 (N.ltb_lt _ 65536)) by lia. cbn [app]. f_equal. lia.
Qed.

Lemma toString_pair (hi lo : N) (bytes : list N) :
  is_high_surrogate hi = true -> is_low_surrogate lo = true ->
  Buffer_toString (utf8_bytes (pair_code_point hi lo) ++ bytes)
  = hi :: lo :: Buffer_toString bytes.
Proof.
  intros Hhi Hlo. apply high_surrogate_bounds in Hhi.
  apply low_surrogate_bounds in Hlo.
  assert (Hcp : 65536 <= pair_code_point hi lo <= 1114111)
    by (unfold pair_code_point; lia).
  assert (Hback : pair_code_point hi lo - 65536 = (hi - 55296) * 1024 + (lo - 56320))
    by (unfold pair_code_point; lia).
  generalize dependent (pair_code_point hi lo). intros cp Hcp Hback.
  unfold utf8_bytes.
  rewrite (proj2 (N.ltb_ge cp 128)), (proj2 (N.ltb_ge cp 2048)),
    (proj2 (N.ltb_ge cp 65536)) by lia.
  destruct (bytes4 cp) as (a & b & c & d & Ea & Eb & Ec & Ed & Ecp & Hb & Hc & Hd).
  rewrite Ea, Eb, Ec, Ed.
  cbn [app]. rewrite toString_4 by lia.
  assert (Hval : (240 + a - 240) * 262144 + (128 + b - 128) * 4096
                 + (128 + c - 128) * 64 + (128 + d - 128) = cp) by lia.
  rewrite Hval. unfold utf16_units.
  rewrite (proj2 (N.ltb_ge cp 65536)) by lia. rewrite Hback.
  rewrite (div_mul_add (hi - 55296) (lo - 56320) 1024),
    (mod_mul_add (hi - 55296) (lo - 56320) 1024) by lia.
  cbn [app]. f_equal; [lia|]. f_equal. lia.
Qed.

Lemma utf8_bytes_range (cp : N) :
  cp < 2097152 -> Forall (fun b => b < 256) (utf8_bytes cp).
Proof.
  intros Hcp. unfold utf8_bytes.
  destruct (N.ltb_spec cp 128); [repeat constructor; lia|].
  destruct (N.ltb_spec cp 2048).
  { destruct (bytes2 cp) as (q & r & Eq & Er & Eu & Hr). rewrite Eq, Er.
    repeat constructor; lia. }
  destruct (N.ltb_spec cp 65536).
  { destruct (bytes3 cp) as (a & b & c & Ea & Eb & Ec & Eu & Hb & Hc).
    rewrite Ea, Eb, Ec. repeat constructor; lia. }
  destruct (bytes4 cp) as (a & b & c & d & Ea & Eb & Ec & Ed & Ecp & Hb & Hc & Hd).
  rewrite Ea, Eb, Ec, Ed. repeat constructor; lia.
Qed.

(** On well-formed UTF-16 text the encoder writes bytes, and the
    decoder reads the text back. *)
Lemma utf8_round_trip (s : JsString) :
  well_formed s ->
  Forall (fun b => b < 256) (Buffer_from_utf8 s) /\
  Buffer_toString (Buffer_from_utf8 s) = s.
Proof.
  induction 1 as [|u s Hu Hhi Hlo _ [IHb IHs]|hi lo s Hhi Hlo _ [IHb IHs]].
  - split; [constructor|reflexivity].
  - cbn [Buffer_from_utf8]. rewrite Hhi, Hlo. split.
    + apply Forall_app. split; [apply utf8_bytes_range; lia|exact IHb].
    + rewrite toString_unit by assumption. rewrite IHs. reflexivity.
  - cbn [Buffer_from_utf8]. rewrite Hhi, Hlo. split.
    + apply Forall_app. split; [|exact IHb]. apply utf8_bytes_range.
      apply high_surrogate_bounds in Hhi. apply low_surrogate_bounds in Hlo.
      unfold pair_code_point. lia.
    + rewrite toString_pair by assumption. rewrite IHs. reflexivity.
Qed.

(** ** JSON: reading back what JSON.stringify writes *)

Section JsonFacts.
Context {Num : Type} `{!JsNumber Num}.

Lemma JsVal_ind' (P : JsVal Num → Prop) :
  P JNull → (∀ b, P (JBool b)) → (∀ x, P (JNum x)) → (∀ s, P (JStr s)) →
  (∀ items, Forall P items → P (JArr items)) →
  (∀ fields, Forall (fun kv => P (snd kv)) fields → P (JObj fields)) →
  ∀ v, P v.
Proof.
  intros Hnull Hbool Hnum Hstr Harr Hobj.
  fix self 1. intros [|b|x|s|items|fields].
  - exact Hnull.
  - apply Hbool.
  - apply Hnum.
  - apply Hstr.
  - apply Harr. induction items as [|v items IH]; constructor; [apply self|exact IH].
  - apply Hobj. induction fields as [|[k v] fields IH]; constructor;
      [apply self|exact IH].
Qed.

Lemma document_array (items : list (JsVal Num)) :
  document (JArr items) ↔ Forall document items.
Proof.
  cbn. induction items as [|v items IH].
  - split; [constructor|trivial].
  - rewrite Forall_cons, <- IH. reflexivity.
Qed.

Lemma document_object (fields : list (JsString * JsVal Num)) :
  document (JObj fields) ↔
  NoDup (map fst fields) ∧ StronglySorted key_before fields ∧
  Forall (fun kv => string_ok (fst kv) ∧ document (snd kv)) fields.
Proof.
  cbn. assert (Hall : ∀ l : list (JsString * JsVal Num),
    (fix all (l : list (JsString * JsVal Num)) : Prop :=
       match l with
       | [] => True
       | kv :: r => (string_ok (fst kv) ∧ document (snd kv)) ∧ all r
       end) l ↔
    Forall (fun kv => string_ok (fst kv) ∧ document (snd kv)) l).
  { induction l as [|kv l IH].
    - split; [constructor|trivial].
    - rewrite Forall_cons, <- IH. reflexivity. }
  rewrite Hall. reflexivity.
Qed.

(** *** The lexer *)

Lemma lex_run_None (s : JsString) : lex_run None s = None.
Proof. induction s as [|c s IH]; [reflexivity|exact IH]. Qed.

Lemma lex_run_app (st : option (list Token * LexMode)) (a b : JsString) :
  lex_run st (a ++ b) = lex_run (lex_run st a) b.
Proof. apply fold_left_app. Qed.

Lemma lex_run_cons (st : list Token * LexMode) (c : N) (s : JsString) :
  lex_run (Some st) (c :: s) = lex_run (lex_step st c) s.
Proof. reflexivity. Qed.

Lemma lex_raw (toks : list (@Token Num)) (acc : JsString) (u : N) :
  32 <= u → u ≠ 34 → u ≠ 92 →
  lex_step (toks, LString acc) u = Some (toks, LString (acc ++ [u])).
Proof.
  intros H32 H34 H92. cbn.
  destruct (N.eqb_spec u 34); [contradiction|].
  destruct (N.eqb_spec u 92); [contradiction|].
  destruct (N.ltb_spec u 32); [lia|reflexivity].
Qed.

Lemma hex_value_digit (h : N) : h < 16 → hex_value (hex_digit h) = Some h.
Proof.
  intros Hh. unfold hex_digit, hex_value, is_digit.
  destruct (N.ltb_spec h 10).
  - rewrite (proj2 (N.leb_le 48 (48 + h))), (proj2 (N.leb_le (48 + h) 57)) by lia.
    cbn. f_equal. lia.
  - destruct (N.leb_spec (87 + h) 57); [lia|]. rewrite andb_false_r.
    rewrite (proj2 (N.leb_le 97 (87 + h))), (proj2 (N.leb_le (87 + h) 102)) by lia.
    cbn. f_equal. lia.
Qed.

Lemma lex_unicode_escape (toks : list (@Token Num)) (acc : JsString) (u : N) :
  u < 65536 →
  lex_run (Some (toks, LString acc)) (unicode_escape u)
  = Some (toks, LString (acc ++ [u])).
Proof.
  intros Hu. unfold unicode_escape.
  destruct (nibbles4 u) as (a & b & c & d & Ea & Eb & Ec & Ed & Eu & Hb & Hc & Hd).
  rewrite Ea, Eb, Ec, Ed.
  assert (H1 : hex_value (hex_digit a) = Some a) by (apply hex_value_digit; lia).
  assert (H2 : hex_value (hex_digit b) = Some b) by (apply hex_value_digit, Hb).
  assert (H3 : hex_value (hex_digit c) = Some c) by (apply hex_value_digit, Hc).
  assert (H4 : hex_value (hex_digit d) = Some d) by (apply hex_value_digit, Hd).
  rewrite !lex_run_cons.
  change (lex_step (toks, LString acc) 92) with (Some (toks, LEscape acc)).
  rewrite lex_run_cons.
  change (lex_step (toks, LEscape acc) 117) with (Some (toks, LUnicode acc [])).
  rewrite lex_run_cons. cbn [lex_step]. rewrite H1. cbn [app].
  rewrite lex_run_cons. cbn [lex_step]. rewrite H2. cbn [app].
  rewrite lex_run_cons. cbn [lex_step]. rewrite H3. cbn [app].
  rewrite lex_run_cons. cbn [lex_step]. rewrite H4.
  cbn [lex_run fold_left]. rewrite <- Eu. reflexivity.
Qed.

Lemma lex_escape_unit (toks : list (@Token Num)) (acc : JsString) (u : N) :
  u < 65536 →
  lex_run (Some (toks, LString acc)) (escape_unit u)
  = Some (toks, LString (acc ++ [u])).
Proof.
  intros Hu. unfold escape_unit.
  destruct (N.eqb_spec u 8) as [->|H8]; [reflexivity|].
  destruct (N.eqb_spec u 9) as [->|H9]; [reflexivity|].
  destruct (N.eqb_spec u 10) as [->|H10]; [reflexivity|].
  destruct (N.eqb_spec u 12) as [->|H12]; [reflexivity|].
  destruct (N.eqb_spec u 13) as [->|H13]; [reflexivity|].
  destruct (N.eqb_spec u 34) as [->|H34]; [reflexivity|].
  destruct (N.eqb_spec u 92) as [->|H92]; [reflexivity|].
  destruct (N.ltb_spec u 32) as [H32|H32]; [apply lex_unicode_escape, Hu|].
  rewrite lex_run_cons, lex_raw by assumption. reflexivity.
Qed.

Lemma lex_quote_body (s : JsString) :
  string_ok s → ∀ toks acc,
  lex_run (Some (toks, LString acc)) (quote_body s)
  = Some (toks, LString (acc ++ s)).
Proof.
  remember (length s) as n eqn:Hn. revert s Hn.
  induction n as [n IH] using lt_wf_ind. intros s Hn Hok toks acc.
  destruct s as [|u s]; [cbn; rewrite app_nil_r; reflexivity|].
  inversion_clear Hok as [|? ? Hu Hs]. cbn [quote_body].
  assert (Htail : ∀ acc', lex_run (Some (toks, LString acc')) (quote_body s)
                          = Some (toks, LString (acc' ++ s))).
  { intros acc'. apply (IH (length s)); [subst n; cbn; lia|reflexivity|exact Hs]. }
  assert (Hescaped : lex_run (Some (toks, LString acc))
                       (unicode_escape u ++ quote_body s)
                     = Some (toks, LString (acc ++ u :: s))).
  { rewrite lex_run_app, lex_unicode_escape by exact Hu.
    rewrite Htail, <- app_assoc. reflexivity. }
  destruct (is_high_surrogate u) eqn:Hhigh.
  - destruct s as [|lo s'].
    + rewrite lex_unicode_escape by exact Hu. reflexivity.
    + destruct (is_low_surrogate lo) eqn:Hlow; [|exact Hescaped].
      apply high_surrogate_bounds in Hhigh. apply low_surrogate_bounds in Hlow.
      inversion_clear Hs as [|? ? Hlo Hs'].
      rewrite !lex_run_cons, lex_raw by lia. rewrite lex_run_cons, lex_raw by lia.
      rewrite (IH (length s')); [|subst n; cbn; lia|reflexivity|exact Hs'].
      rewrite <- !app_assoc. reflexivity.
  - destruct (is_low_surrogate u); [exact Hescaped|].
    rewrite lex_run_app, lex_escape_unit by exact Hu.
    rewrite Htail, <- app_assoc. reflexivity.
Qed.

Lemma lex_quote (s : JsString) (toks : list (@Token Num)) :
  string_ok s →
  lex_run (Some (toks, LStart)) (quote s) = Some (toks ++ [TString s], LStart).
Proof.
  intros Hok. unfold quote. cbn [app]. rewrite lex_run_cons.
  change (lex_step (toks, LStart) 34) with (Some (toks, LString [])).
  rewrite lex_run_app, lex_quote_body by exact Hok. reflexivity.
Qed.

End JsonFacts.

Section JsonValues.
Context {Num : Type} `{!JsNumber Num}.

Lemma ready_start (toks : list (@Token Num)) : ready (toks, LStart) toks.
Proof. split; [reflexivity|]. intros; reflexivity. Qed.

Lemma ready_word (toks : list (@Token Num)) (w : JsString) (t : Token) :
  word_token w = Some t → ready (toks, LWord w) (toks ++ [t]).
Proof.
  intros Hw. split; [cbn; rewrite Hw; reflexivity|].
  intros c _ Hlower. cbn [lex_step lex_close]. rewrite Hlower, Hw. reflexivity.
Qed.

Lemma ready_number (toks : list (@Token Num)) (l : JsString) :
  valid_number l = true →
  ready (toks, LNumber l) (toks ++ [TNumber (StringToNumber l)]).
Proof.
  intros Hl. split; [cbn; rewrite Hl; reflexivity|].
  intros c Hnum _. cbn [lex_step lex_close]. rewrite Hnum, Hl. reflexivity.
Qed.

Lemma ready_step (st : list Token * LexMode) (toks : list (@Token Num)) (c : N)
    (t : Token) :
  ready st toks →
  number_char c = false → is_lower c = false →
  start_step toks c = Some (toks ++ [t], LStart) →
  lex_step st c = Some (toks ++ [t], LStart).
Proof. intros [_ Hstep] Hnum Hlower Hstart. rewrite Hstep; assumption. Qed.

Lemma lex_number_chars (toks : list (@Token Num)) (acc l : JsString) :
  forallb number_char l = true →
  lex_run (Some (toks, LNumber acc)) l = Some (toks, LNumber (acc ++ l)).
Proof.
  revert acc. induction l as [|c l IH]; intros acc Hl.
  - cbn. rewrite app_nil_r. reflexivity.
  - cbn in Hl. apply andb_true_iff in Hl as [Hc Hl].
    rewrite lex_run_cons. cbn [lex_step]. rewrite Hc, IH by exact Hl.
    rewrite <- app_assoc. reflexivity.
Qed.

Lemma valid_number_first (l : JsString) :
  valid_number l = true →
  ∃ d r, l = d :: r ∧ ((d =? 45) || is_digit d) = true.
Proof.
  destruct l as [|d r]; [discriminate|]. intros Hl. exists d, r.
  split; [reflexivity|].
  destruct (N.eqb_spec d 45) as [->|Hd]; [reflexivity|]. cbn [orb].
  unfold valid_number in Hl.
  destruct d as [|p]; [discriminate Hl|].
  do 6 (try destruct p as [p|p|]); cbv beta iota in Hl;
    try reflexivity; try contradiction;
    apply andb_true_iff in Hl as [Hl _]; exact Hl.
Qed.

Lemma start_step_number (toks : list (@Token Num)) (d : N) :
  ((d =? 45) || is_digit d) = true →
  start_step toks d = Some (toks, LNumber [d]).
Proof.
  intros Hd. unfold start_step. rewrite Hd.
  assert (Hrange : d = 45 ∨ 48 <= d <= 57).
  { apply orb_true_iff in Hd as [Hd|Hd]; [left; apply N.eqb_eq, Hd|right].
    unfold is_digit in Hd. rewrite andb_true_iff, !N.leb_le in Hd. exact Hd. }
  assert (Hspace : json_space d = false).
  { unfold json_space.
    destruct (N.eqb_spec d 9), (N.eqb_spec d 10), (N.eqb_spec d 13),
      (N.eqb_spec d 32); try reflexivity; lia. }
  rewrite Hspace.
  destruct (N.eqb_spec d 123), (N.eqb_spec d 125), (N.eqb_spec d 91),
    (N.eqb_spec d 93), (N.eqb_spec d 58), (N.eqb_spec d 44), (N.eqb_spec d 34);
    try reflexivity; lia.
Qed.

Lemma lex_number (toks : list (@Token Num)) (x : Num) :
  number_ok x →
  ∃ st, lex_run (Some (toks, LStart)) (NumberToString x) = Some st ∧
        ready st (toks ++ [TNumber x]).
Proof.
  intros (Hchars & Hvalid & Hback).
  destruct (valid_number_first _ Hvalid) as (d & r & Hl & Hd).
  exists (toks, LNumber (NumberToString x)). split.
  - rewrite Hl in Hchars |- *. cbn in Hchars.
    apply andb_true_iff in Hchars as [_ Hr].
    rewrite lex_run_cons. cbn [lex_step]. rewrite (start_step_number _ _ Hd).
    apply (lex_number_chars toks [d] r Hr).
  - rewrite <- Hback at 2. apply ready_number, Hvalid.
Qed.

(** The text of the further elements of an array or members of an
    object, each after a comma. *)
Lemma lex_more {A} (text : A → JsString) (toks_of : A → list Token)
    (l : list A) :
  Forall (fun a => ∀ toks, ∃ st,
            lex_run (Some (toks, LStart)) (text a) = Some st ∧
            ready st (toks ++ toks_of a)) l →
  ∀ st toks, ready st toks →
  ∃ st', lex_run (Some st) (flat_map (fun y => [44] ++ y) (map text l)) = Some st' ∧
         ready st' (toks ++ flat_map (fun y => [TComma] ++ y) (map toks_of l)).
Proof.
  induction 1 as [|a l Ha _ IH]; intros st toks Hready.
  - exists st. cbn. rewrite app_nil_r. split; [reflexivity|exact Hready].
  - cbn [map flat_map]. rewrite !lex_run_app.
    change (lex_run (Some st) [44]) with (lex_step st 44).
    rewrite (ready_step st toks 44 TComma Hready) by reflexivity.
    destruct (Ha (toks ++ [TComma])) as (st1 & Hrun1 & Hready1).
    destruct (IH st1 _ Hready1) as (st2 & Hrun2 & Hready2).
    exists st2. rewrite Hrun1, Hrun2. split; [reflexivity|].
    rewrite <- !app_assoc in Hready2. rewrite <- !app_assoc. exact Hready2.
Qed.

Lemma lex_joined {A} (text : A → JsString) (toks_of : A → list Token)
    (l : list A) (toks : list (@Token Num)) :
  Forall (fun a => ∀ toks, ∃ st,
            lex_run (Some (toks, LStart)) (text a) = Some st ∧
            ready st (toks ++ toks_of a)) l →
  ∃ st, lex_run (Some (toks, LStart)) (join [44] (map text l)) = Some st ∧
        ready st (toks ++ join [TComma] (map toks_of l)).
Proof.
  intros Hall. destruct l as [|a l].
  - exists (toks, LStart). cbn. rewrite app_nil_r.
    split; [reflexivity|apply ready_start].
  - inversion_clear Hall as [|? ? Ha Hl]. cbn [map join].
    destruct (Ha toks) as (st1 & Hrun1 & Hready1).
    destruct (lex_more text toks_of l Hl st1 _ Hready1) as (st2 & Hrun2 & Hready2).
    exists st2. rewrite lex_run_app, Hrun1, Hrun2. split; [reflexivity|].
    rewrite <- app_assoc in Hready2. exact Hready2.
Qed.

(** The lexer reads the text of a document as its tokens. *)
Lemma lex_value (v : JsVal Num) :
  document v →
  ∀ toks, ∃ st, lex_run (Some (toks, LStart)) (JSON_stringify v) = Some st ∧
                ready st (toks ++ tokens_of v).
Proof.
  induction v as [|b|x|s|items IH|fields IH] using JsVal_ind'; intros Hdoc toks.
  - eexists. split; [reflexivity|]. apply ready_word. reflexivity.
  - destruct b; (eexists; split; [reflexivity|]; apply ready_word; reflexivity).
  - apply lex_number, Hdoc.
  - exists (toks ++ [TString s], LStart).
    split; [apply lex_quote, Hdoc|apply ready_start].
  - apply document_array in Hdoc.
    assert (Hall : Forall (fun a => ∀ toks, ∃ st,
              lex_run (Some (toks, LStart)) (JSON_stringify a) = Some st ∧
              ready st (toks ++ tokens_of a)) items).
    { apply Forall_forall. intros a Ha.
      rewrite Forall_forall in IH, Hdoc. apply IH; auto. }
    destruct (lex_joined JSON_stringify tokens_of items (toks ++ [TLBracket]) Hall)
      as (st & Hrun & Hready).
    exists ((toks ++ [TLBracket]) ++ join [TComma] (map tokens_of items)
            ++ [TRBracket], LStart).
    split.
    + change (JSON_stringify (JArr items))
        with ([91] ++ join [44] (map JSON_stringify items) ++ [93]).
      rewrite !lex_run_app.
      change (lex_run (Some (toks, LStart)) [91])
        with (Some (toks ++ [TLBracket], LStart)).
      rewrite Hrun. cbn [lex_run fold_left].
      rewrite (ready_step st _ 93 TRBracket Hready) by reflexivity.
      rewrite <- !app_assoc. reflexivity.
    + change (tokens_of (JArr items))
        with ([TLBracket] ++ join [TComma] (map tokens_of items) ++ [TRBracket]).
      rewrite <- !app_assoc. apply ready_start.
  - apply document_object in Hdoc as (_ & _ & Hdoc).
    set (text := fun kv : JsString * JsVal Num =>
                   quote (fst kv) ++ [58] ++ JSON_stringify (snd kv)).
    set (toks_of := fun kv : JsString * JsVal Num =>
                   [TString (fst kv); TColon] ++ tokens_of (snd kv)).
    assert (Hall : Forall (fun a => ∀ toks, ∃ st,
              lex_run (Some (toks, LStart)) (text a) = Some st ∧
              ready st (toks ++ toks_of a)) fields).
    { apply Forall_forall. intros [k v] Hkv toks'.
      rewrite Forall_forall in IH, Hdoc.
      destruct (Hdoc _ Hkv) as [Hk Hv]. cbn in Hk, Hv.
      destruct (IH _ Hkv Hv ((toks' ++ [TString k]) ++ [TColon]))
        as (st & Hrun & Hready).
      cbn [fst snd] in Hrun, Hready. exists st. subst text toks_of. cbn [fst snd].
      rewrite lex_run_app, lex_quote by exact Hk.
      cbn [app]. rewrite lex_run_cons.
      change (lex_step (toks' ++ [TString k], LStart) 58)
        with (Some ((toks' ++ [TString k]) ++ [TColon], LStart)).
      rewrite Hrun. split; [reflexivity|].
      rewrite <- !app_assoc in Hready. exact Hready. }
    destruct (lex_joined text toks_of fields (toks ++ [TLBrace]) Hall)
      as (st & Hrun & Hready).
    exists ((toks ++ [TLBrace]) ++ join [TComma] (map toks_of fields)
            ++ [TRBrace], LStart).
    split.
    + change (JSON_stringify (JObj fields))
        with ([123] ++ join [44] (map text fields) ++ [125]).
      rewrite !lex_run_app.
      change (lex_run (Some (toks, LStart)) [123])
        with (Some (toks ++ [TLBrace], LStart)).
      match goal with
      | |- lex_run ?x _ = _ => replace x with (Some st) by (symmetry; exact Hrun)
      end. cbn [lex_run fold_left].
      rewrite (ready_step st _ 125 TRBrace Hready) by reflexivity.
      rewrite <- !app_assoc. reflexivity.
    + change (tokens_of (JObj fields))
        with ([TLBrace] ++ join [TComma] (map toks_of fields) ++ [TRBrace]).
      rewrite <- !app_assoc. apply ready_start.
Qed.

Lemma lex_stringify (v : JsVal Num) :
  document v → lex (JSON_stringify v) = Some (tokens_of v).
Proof.
  intros Hdoc. destruct (lex_value v Hdoc []) as (st & Hrun & Hclose & _).
  unfold lex. rewrite Hrun. exact Hclose.
Qed.

End JsonValues.

Section JsonParser.
Context {Num : Type} `{!JsNumber Num}.

(** *** The property order of a document's objects *)

Lemma sorted_before {A} (R : A → A → Prop) (l1 l2 : list A) (x : A) :
  StronglySorted R (l1 ++ x :: l2) → Forall (fun a => R a x) l1.
Proof.
  induction l1 as [|a l1 IH]; [constructor|].
  cbn. intros Hsorted. apply StronglySorted_inv in Hsorted as [Hrest Ha].
  constructor; [|apply IH, Hrest].
  rewrite Forall_forall in Ha. apply Ha, elem_of_app. right. left.
Qed.

Lemma has_field_false (k : JsString) (fields : list (JsString * JsVal Num)) :
  k ∉ map fst fields → has_field k fields = false.
Proof.
  induction fields as [|[k' v'] fields IH]; [reflexivity|].
  cbn. intros Hnot. rewrite not_elem_of_cons in Hnot. destruct Hnot as [Hne Hnot].
  rewrite bool_decide_eq_false_2 by congruence. apply IH, Hnot.
Qed.

Lemma insert_index_last (i : N) (k : JsString) (v : JsVal Num)
    (fields : list (JsString * JsVal Num)) :
  Forall (fun a => ∃ j, array_index (fst a) = Some j ∧ j < i) fields →
  insert_index i k v fields = fields ++ [(k, v)].
Proof.
  induction 1 as [|[k' v'] fields (j & Hj & Hlt) _ IH]; [reflexivity|].
  cbn in Hj |- *. rewrite Hj, (proj2 (N.ltb_lt j i) Hlt), IH. reflexivity.
Qed.

(** Reading the members of an object of a document one after the other
    puts each new member last. *)
Lemma obj_set_append (done rest : list (JsString * JsVal Num))
    (k : JsString) (v : JsVal Num) :
  NoDup (map fst (done ++ (k, v) :: rest)) →
  StronglySorted key_before (done ++ (k, v) :: rest) →
  obj_set done k v = done ++ [(k, v)].
Proof.
  intros Hnodup Hsorted. unfold obj_set.
  rewrite has_field_false.
  2:{ rewrite map_app in Hnodup. apply NoDup_app in Hnodup as (_ & Hdisj & _).
      intros Hin. apply (Hdisj k Hin). left. }
  destruct (array_index k) as [i|] eqn:Hk; [|reflexivity].
  apply insert_index_last.
  eapply Forall_impl; [exact (sorted_before _ _ _ _ Hsorted)|].
  intros [k' v'] Hbefore. unfold key_before in Hbefore. cbn [fst] in *.
  rewrite Hk in Hbefore.
  destruct (array_index k') as [j|]; [eauto|contradiction].
Qed.

(** *** The parser *)

Lemma parse_run_app (st : option (list Frame * ParseMode)) (a b : list (@Token Num)) :
  parse_run st (a ++ b) = parse_run (parse_run st a) b.
Proof. apply fold_left_app. Qed.

Lemma parse_run_cons (st : list Frame * ParseMode) (t : @Token Num)
    (ts : list Token) :
  parse_run (Some st) (t :: ts) = parse_run (parse_step st t) ts.
Proof. reflexivity. Qed.

Lemma reads_scalar (v : JsVal Num) (t : Token) :
  tokens_of v = [t] →
  (∀ stack, value_step stack t = Some (complete v stack)) →
  t ≠ TRBracket →
  reads v.
Proof.
  intros Htoks Hstep Hnot stack mode rest Hmode. rewrite Htoks. cbn [app].
  rewrite parse_run_cons. f_equal.
  destruct Hmode as [-> | ->]; cbn [parse_step]; [apply Hstep|].
  destruct t; try apply Hstep. contradiction.
Qed.

Lemma parse_elements (items : list (JsVal Num)) :
  Forall reads items →
  ∀ stack done rest,
    parse_run (Some (FArr done :: stack, MArrNext))
      (flat_map (fun y => [TComma] ++ y) (map tokens_of items)
       ++ [TRBracket] ++ rest)
    = parse_run (Some (complete (JArr (done ++ items)) stack)) rest.
Proof.
  induction 1 as [|v items Hv _ IH]; intros stack done rest.
  - cbn. rewrite app_nil_r. reflexivity.
  - cbn [map flat_map]. rewrite <- !app_assoc.
    rewrite (parse_run_app _ [TComma]).
    change (parse_run (Some (FArr done :: stack, MArrNext)) [TComma])
      with (Some (FArr done :: stack, @MValue Num)).
    rewrite (Hv (FArr done :: stack) MValue) by (left; reflexivity).
    cbn [complete]. rewrite IH, <- app_assoc. reflexivity.
Qed.

Lemma reads_array (items : list (JsVal Num)) :
  Forall reads items → reads (JArr items).
Proof.
  intros Hitems stack mode rest Hmode.
  change (tokens_of (JArr items))
    with ([TLBracket] ++ join [TComma] (map tokens_of items) ++ [TRBracket]).
  rewrite <- !app_assoc. cbn [app]. rewrite parse_run_cons.
  assert (Hopen : parse_step (stack, mode) TLBracket
                  = Some (FArr [] :: stack, MArrFirst))
    by (destruct Hmode as [-> | ->]; reflexivity).
  rewrite Hopen. destruct items as [|v items].
  - reflexivity.
  - inversion_clear Hitems as [|? ? Hv Hrest]. cbn [map join].
    rewrite <- app_assoc.
    rewrite (Hv (FArr [] :: stack) MArrFirst) by (right; reflexivity).
    cbn [complete app]. apply (parse_elements items Hrest stack [v] rest).
Qed.

Lemma parse_member (stack : list Frame) (mode : ParseMode)
    (done : list (JsString * JsVal Num)) (kv : JsString * JsVal Num)
    (rest : list Token) :
  reads (snd kv) →
  (∀ t, parse_step (stack, mode) (TString t) = Some (stack, MColon done t)) →
  parse_run (Some (stack, mode)) (member_tokens kv ++ rest)
  = parse_run (Some (stack, MObjNext (obj_set done (fst kv) (snd kv)))) rest.
Proof.
  intros Hv Hkey. unfold member_tokens. rewrite <- app_assoc. cbn [app].
  rewrite parse_run_cons, Hkey, parse_run_cons. cbn [parse_step].
  rewrite (Hv (FObj done (fst kv) :: stack) MValue) by (left; reflexivity).
  reflexivity.
Qed.

Lemma parse_members (fields : list (JsString * JsVal Num)) :
  Forall (fun kv => reads (snd kv)) fields →
  ∀ stack done rest,
    NoDup (map fst (done ++ fields)) →
    StronglySorted key_before (done ++ fields) →
    parse_run (Some (stack, MObjNext done))
      (flat_map (fun y => [TComma] ++ y) (map member_tokens fields)
       ++ [TRBrace] ++ rest)
    = parse_run (Some (complete (JObj (done ++ fields)) stack)) rest.
Proof.
  induction 1 as [|[k v] fields Hv _ IH]; intros stack done rest Hnodup Hsorted.
  - cbn. rewrite app_nil_r. reflexivity.
  - cbn [map flat_map]. rewrite <- !app_assoc.
    rewrite (parse_run_app _ [TComma]).
    change (parse_run (Some (stack, MObjNext done)) [TComma])
      with (Some (stack, MObjKey done)).
    rewrite (parse_member stack (MObjKey done) done (k, v)) by (exact Hv || reflexivity).
    cbn [fst snd]. rewrite (obj_set_append done fields k v Hnodup Hsorted).
    rewrite IH; rewrite <- app_assoc; [reflexivity|exact Hnodup|exact Hsorted].
Qed.

Lemma reads_object (fields : list (JsString * JsVal Num)) :
  Forall (fun kv => reads (snd kv)) fields →
  NoDup (map fst fields) →
  StronglySorted key_before fields →
  reads (JObj fields).
Proof.
  intros Hfields Hnodup Hsorted stack mode rest Hmode.
  change (tokens_of (JObj fields))
    with ([TLBrace] ++ join [TComma] (map member_tokens fields) ++ [TRBrace]).
  rewrite <- !app_assoc. cbn [app]. rewrite parse_run_cons.
  assert (Hopen : parse_step (stack, mode) TLBrace = Some (stack, MObjFirst))
    by (destruct Hmode as [-> | ->]; reflexivity).
  rewrite Hopen. destruct fields as [|[k v] fields].
  - reflexivity.
  - inversion_clear Hfields as [|? ? Hv Hrest]. cbn [map join].
    rewrite <- app_assoc.
    rewrite (parse_member stack MObjFirst [] (k, v)) by (exact Hv || reflexivity).
    cbn [fst snd]. rewrite (obj_set_append [] fields k v Hnodup Hsorted).
    apply (parse_members fields Hrest stack [(k, v)] rest Hnodup Hsorted).
Qed.

Lemma document_reads (v : JsVal Num) : document v → reads v.
Proof.
  induction v as [|b|x|s|items IH|fields IH] using JsVal_ind'; intros Hdoc.
  - apply (reads_scalar JNull TNull); [reflexivity|reflexivity|discriminate].
  - destruct b.
    + apply (reads_scalar _ TTrue); [reflexivity|reflexivity|discriminate].
    + apply (reads_scalar _ TFalse); [reflexivity|reflexivity|discriminate].
  - apply (reads_scalar _ (TNumber x)); [reflexivity|reflexivity|discriminate].
  - apply (reads_scalar _ (TString s)); [reflexivity|reflexivity|discriminate].
  - apply document_array in Hdoc. apply reads_array.
    rewrite Forall_forall in IH, Hdoc |- *. auto.
  - apply document_object in Hdoc as (Hnodup & Hsorted & Hdoc).
    apply reads_object; [|assumption|assumption].
    rewrite Forall_forall in IH, Hdoc |- *. intros kv Hkv.
    apply IH; [exact Hkv|]. apply Hdoc, Hkv.
Qed.

(** JSON.parse reads back the text JSON.stringify writes for a document. *)
Lemma JSON_parse_stringify (v : JsVal Num) :
  document v → JSON_parse (JSON_stringify v) = inr v.
Proof.
  intros Hdoc. unfold JSON_parse. rewrite (lex_stringify v Hdoc).
  unfold parse_tokens.
  pose proof (document_reads v Hdoc [] MValue [] (or_introl eq_refl)) as Hrun.
  rewrite app_nil_r in Hrun. rewrite Hrun. reflexivity.
Qed.

End JsonParser.

Section JsonText.
Context {Num : Type} `{!JsNumber Num}.

(** *** The text JSON.stringify writes is well-formed UTF-16 *)

Lemma well_formed_app (a b : JsString) :
  well_formed a → well_formed b → well_formed (a ++ b).
Proof.
  induction 1 as [|u s Hu Hhi Hlo _ IH|hi lo s Hhi Hlo _ IH]; intros Hb.
  - exact Hb.
  - cbn. apply wf_unit; auto.
  - cbn. apply wf_pair; auto.
Qed.

Lemma well_formed_plain (l : JsString) :
  Forall (fun c => c < 55296) l → well_formed l.
Proof.
  induction 1 as [|c l Hc _ IH]; [constructor|].
  apply wf_unit; [lia| | |exact IH].
  - unfold is_high_surrogate. destruct (N.leb_spec 55296 c); [lia|reflexivity].
  - unfold is_low_surrogate. destruct (N.leb_spec 56320 c); [lia|reflexivity].
Qed.

Lemma number_char_plain (c : N) : number_char c = true → c < 55296.
Proof.
  unfold number_char, is_digit.
  rewrite !orb_true_iff, andb_true_iff, !N.leb_le, !N.eqb_eq. lia.
Qed.

Lemma hex_digit_plain (h : N) : h < 16 → hex_digit h < 55296.
Proof. intros Hh. unfold hex_digit. destruct (h <? 10); lia. Qed.

Lemma well_formed_unicode_escape (u : N) :
  u < 65536 → well_formed (unicode_escape u).
Proof.
  intros Hu. apply well_formed_plain. unfold unicode_escape.
  destruct (nibbles4 u) as (a & b & c & d & Ea & Eb & Ec & Ed & Eu & Hb & Hc & Hd).
  rewrite Ea, Eb, Ec, Ed.
  repeat constructor; try lia; apply hex_digit_plain; lia.
Qed.

Lemma well_formed_escape_unit (u : N) :
  u < 65536 → is_high_surrogate u = false → is_low_surrogate u = false →
  well_formed (escape_unit u).
Proof.
  intros Hu Hhi Hlo. unfold escape_unit.
  repeat match goal with
  | |- context [N.eqb u ?c] => destruct (N.eqb_spec u c)
  end; try (apply well_formed_plain; repeat constructor; lia).
  destruct (u <? 32); [apply well_formed_unicode_escape, Hu|].
  apply wf_unit; [assumption..|constructor].
Qed.

Lemma well_formed_quote_body (s : JsString) :
  string_ok s → well_formed (quote_body s).
Proof.
  remember (length s) as n eqn:Hn. revert s Hn.
  induction n as [n IH] using lt_wf_ind. intros s Hn Hok.
  destruct s as [|u s]; [constructor|].
  inversion_clear Hok as [|? ? Hu Hs]. cbn [quote_body].
  assert (Htail : well_formed (quote_body s))
    by (apply (IH (length s)); [subst n; cbn; lia|reflexivity|exact Hs]).
  destruct (is_high_surrogate u) eqn:Hhigh.
  - destruct s as [|lo s'];
      [apply well_formed_unicode_escape, Hu|].
    destruct (is_low_surrogate lo) eqn:Hlow.
    + inversion_clear Hs as [|? ? _ Hs']. apply wf_pair; [assumption..|].
      apply (IH (length s')); [subst n; cbn; lia|reflexivity|exact Hs'].
    + apply well_formed_app; [apply well_formed_unicode_escape, Hu|exact Htail].
  - destruct (is_low_surrogate u) eqn:Hlow.
    + apply well_formed_app; [apply well_formed_unicode_escape, Hu|exact Htail].
    + apply well_formed_app; [apply well_formed_escape_unit; assumption|exact Htail].
Qed.

Lemma well_formed_quote (s : JsString) : string_ok s → well_formed (quote s).
Proof.
  intros Hok. unfold quote.
  apply well_formed_app; [apply well_formed_plain; repeat constructor; lia|].
  apply well_formed_app; [apply well_formed_quote_body, Hok|].
  apply well_formed_plain; repeat constructor; lia.
Qed.

Lemma well_formed_join (sep : JsString) (l : list JsString) :
  well_formed sep → Forall well_formed l → well_formed (join sep l).
Proof.
  intros Hsep Hl. destruct Hl as [|x l Hx Hl]; [constructor|].
  cbn [join]. apply well_formed_app; [exact Hx|].
  induction Hl as [|y l Hy _ IH]; [constructor|].
  cbn [flat_map]. repeat apply well_formed_app; assumption.
Qed.

Lemma well_formed_stringify (v : JsVal Num) :
  document v → well_formed (JSON_stringify v).
Proof.
  assert (Hcomma : well_formed [44])
    by (apply well_formed_plain; repeat constructor; lia).
  induction v as [|b|x|s|items IH|fields IH] using JsVal_ind'; intros Hdoc.
  - apply well_formed_plain; repeat constructor; lia.
  - destruct b; apply well_formed_plain; repeat constructor; lia.
  - destruct Hdoc as (Hchars & _). apply well_formed_plain.
    apply Forall_forall. intros c Hc. apply number_char_plain.
    rewrite forallb_forall in Hchars. apply Hchars, list_elem_of_In, Hc.
  - apply well_formed_quote, Hdoc.
  - apply document_array in Hdoc.
    change (JSON_stringify (JArr items))
      with ([91] ++ join [44] (map JSON_stringify items) ++ [93]).
    apply well_formed_app; [apply well_formed_plain; repeat constructor; lia|].
    apply well_formed_app; [|apply well_formed_plain; repeat constructor; lia].
    apply well_formed_join; [exact Hcomma|].
    apply Forall_map. rewrite Forall_forall in IH, Hdoc |- *. auto.
  - apply document_object in Hdoc as (_ & _ & Hdoc).
    change (JSON_stringify (JObj fields))
      with ([123]
            ++ join [44]
                 (map (fun kv => quote (fst kv) ++ [58] ++ JSON_stringify (snd kv))
                    fields)
            ++ [125]).
    apply well_formed_app; [apply well_formed_plain; repeat constructor; lia|].
    apply well_formed_app; [|apply well_formed_plain; repeat constructor; lia].
    apply well_formed_join; [exact Hcomma|].
    apply Forall_map. rewrite Forall_forall in IH, Hdoc |- *. intros kv Hkv.
    destruct (Hdoc kv Hkv) as [Hk Hv].
    apply well_formed_app; [apply well_formed_quote, Hk|].
    apply well_formed_app; [apply well_formed_plain; repeat constructor; lia|].
    apply IH; assumption.
Qed.

(** What the decoder reads from the encoding of a document is the text of
    the document. *)
Lemma decoded_text (doc : JsVal Num) :
  document doc →
  Buffer_toString (Buffer_from_base64 (encodeSourceMap doc)) = JSON_stringify doc.
Proof.
  intros Hdoc. unfold encodeSourceMap.
  destruct (utf8_round_trip _ (well_formed_stringify doc Hdoc)) as [Hbytes Htext].
  rewrite (base64_round_trip _ Hbytes). exact Htext.
Qed.

(** The base64 decoder passes over a character without a value, and
    reads nothing after the first [=]. *)
Lemma legal_sextets_skip (before after : JsString) (c : N) :
  unbase64 (c mod 256) = None → c mod 256 ≠ 61 →
  legal_sextets (before ++ c :: after) = legal_sextets (before ++ after).
Proof.
  intros Hnone Hpad. induction before as [|x before IH].
  - cbn [app legal_sextets]. rewrite Hnone.
    destruct (N.eqb_spec (c mod 256) 61); [contradiction|reflexivity].
  - cbn [app legal_sextets]. rewrite IH. reflexivity.
Qed.

Lemma legal_sextets_stop (before after : JsString) :
  legal_sextets (before ++ 61 :: after) = legal_sextets (before ++ [61]).
Proof.
  induction before as [|x before IH]; [reflexivity|].
  cbn [app legal_sextets]. rewrite IH. reflexivity.
Qed.

(** C8 (amended): encoding a document to base64 text and passing the
    result to getSourceMapJSON yields the document, and nothing is logged;
    for every input, base64 or not, getSourceMapJSON returns: the value
    JSON.parse reads from the decoded text, or, when that text is not
    JSON, null after logging the error.  Text that is not base64 is
    decoded all the same: a character outside the alphabet changes
    nothing, and what follows the first [=] is not read. *)
Theorem getSourceMapJSON_round_trip :
  (∀ (doc : JsVal Num) (log : list LogEntry),
     document doc →
     getSourceMapJSON (encodeSourceMap doc) log = (doc, log)) ∧
  (∀ (text : JsString) (log : list LogEntry) (e : JsError),
     JSON_parse (Buffer_toString (Buffer_from_base64 text)) = inl e →
     getSourceMapJSON text log = (@JNull Num, log ++ [parse_failed_entry e])) ∧
  (∀ (text : JsString) (log : list LogEntry) (v : JsVal Num),
     JSON_parse (Buffer_toString (Buffer_from_base64 text)) = inr v →
     getSourceMapJSON text log = (v, log)) ∧
  (∀ (before after : JsString) (c : N) (log : list LogEntry),
     unbase64 (c mod 256) = None → c mod 256 ≠ 61 →
     @getSourceMapJSON Num _ (before ++ c :: after) log
     = getSourceMapJSON (before ++ after) log) ∧
  (∀ (before after : JsString) (log : list LogEntry),
     @getSourceMapJSON Num _ (before ++ 61 :: after) log
     = getSourceMapJSON (before ++ [61]) log).
Proof.
  split; [|split; [|split; [|split]]].
  - intros doc log Hdoc. unfold getSourceMapJSON.
    rewrite (decoded_text doc Hdoc), (JSON_parse_stringify doc Hdoc). reflexivity.
  - intros text log e Hparse. unfold getSourceMapJSON. rewrite Hparse. reflexivity.
  - intros text log v Hparse. unfold getSourceMapJSON. rewrite Hparse. reflexivity.
  - intros before after c log Hnone Hpad. unfold getSourceMapJSON, Buffer_from_base64.
    rewrite (legal_sextets_skip before after c Hnone Hpad). reflexivity.
  - intros before after log. unfold getSourceMapJSON, Buffer_from_base64.
    rewrite (legal_sextets_stop before after). reflexivity.
Qed.

End JsonText.

Lemma demo_map_document : document demo_map.
Proof.
  apply document_object. split; [|split].
  - repeat (apply NoDup_cons; split; [intros Hin; repeat (apply elem_of_cons in Hin as [Hin|Hin]; [discriminate Hin|]); inversion Hin|]).
    apply NoDup_nil. exact I.
  - repeat (apply SSorted_cons; [|repeat constructor]). apply SSorted_nil.
  - repeat constructor; cbn; try lia.
Qed.

(** C8 (counterexample): e!30= is not base64 text, yet getSourceMapJSON
    returns the empty object its other characters encode, not null. *)
Lemma getSourceMapJSON_reads_invalid_base64 :
  valid_base64 (js "e!30=") = false ∧
  @getSourceMapJSON JsString _ (js "e!30=") [] = (JObj [], []) ∧
  @JObj JsString [] ≠ JNull.
Proof. split; [reflexivity|]. split; [vm_compute; reflexivity|discriminate]. Qed.

Lemma getSourceMapJSON_round_trip_witness :
  document demo_map ∧
  getSourceMapJSON (encodeSourceMap demo_map) [] = (demo_map, []) ∧
  @JSON_parse JsString _ (Buffer_toString (Buffer_from_base64 (js "!!!!")))
    = inl SyntaxError ∧
  @getSourceMapJSON JsString _ (js "!!!!") []
    = (JNull, [parse_failed_entry SyntaxError]).
Proof.
  split; [exact demo_map_document|]. split.
  - apply (proj1 getSourceMapJSON_round_trip demo_map [] demo_map_document).
  - split; [reflexivity|].
    apply (proj1 (proj2 getSourceMapJSON_round_trip) (js "!!!!") [] SyntaxError).
    reflexivity.
Defined.

(** * Further properties of the core *)

(** ** The scope extractor: what it asks and what it logs *)

Section CoreEffects.
Context {Num Sess : Type} `{!@InspectorSession Num Sess}.

Lemma closure_scopes_cons (scope : @Scope Num) (rest : list (@Scope Num)) :
  closure_scopes (scope :: rest) =
  if is_closure (scope_type scope) then scope :: closure_scopes rest
  else closure_scopes rest.
Proof. reflexivity. Qed.

Lemma scopes_loop_closure_scopes (scopes : list Scope) (o : JsObject) (w : World) :
  scopes_loop (closure_scopes scopes) o w = scopes_loop scopes o w.
Proof.
  revert o w. induction scopes as [|scope rest IH]; intros o w; [reflexivity|].
  rewrite (closure_scopes_cons scope rest), (scopes_loop_cons scope rest).
  destruct (is_closure (scope_type scope)) eqn:Hc; [|apply IH].
  rewrite scopes_loop_cons, Hc.
  destruct (post_getProperties _ _) as [[err|res] s']; apply IH.
Qed.

Lemma scopes_loop_effects (scopes : list Scope) (o snap : JsObject) (w w' : World) :
  scopes_loop scopes o w = (inr snap, w') →
  w_session w' =
    after_getProperties (map closure_request (closure_scopes scopes)) (w_session w) ∧
  w_log w' = w_log w ++ map failed_entry (failures scopes (w_session w)).
Proof.
  revert o w. induction scopes as [|scope rest IH]; intros o w.
  - cbn. intros [= _ <-]. rewrite app_nil_r. split; reflexivity.
  - rewrite (closure_scopes_cons scope rest), scopes_loop_cons. cbn [failures].
    destruct (is_closure (scope_type scope)); [|apply IH].
    cbn [map]. unfold after_getProperties. cbn [fold_left].
    fold (after_getProperties (map closure_request (closure_scopes rest))).
    destruct (post_getProperties _ _) as [[err|res] s'];
      intros Hrun; apply IH in Hrun as [Hs Hl]; cbn in Hs, Hl; cbn [snd map].
    + split; [exact Hs|]. rewrite Hl, <- app_assoc. reflexivity.
    + split; [exact Hs|exact Hl].
Qed.

Lemma failures_length (scopes : list Scope) (s : Sess) :
  (length (failures scopes s) ≤ length (closure_scopes scopes))%nat.
Proof.
  revert s. induction scopes as [|scope rest IH]; intros s; [reflexivity|].
  rewrite (closure_scopes_cons scope rest). cbn [failures].
  destruct (is_closure (scope_type scope)); [|apply IH].
  destruct (post_getProperties _ _) as [[err|res] s']; cbn [length];
    specialize (IH s'); lia.
Qed.

(** The whole effect of the loop: the snapshot, the session and the log. *)
Lemma scopes_loop_world (scopes : list Scope) (o : JsObject) (w : World) :
  scopes_loop scopes o w =
  (inr (insert_props (enumerated scopes (w_session w)) o),
   {| w_session :=
        after_getProperties (map closure_request (closure_scopes scopes))
          (w_session w);
      w_log := w_log w ++ map failed_entry (failures scopes (w_session w)) |}).
Proof.
  destruct (scopes_loop_returns scopes o w) as (snap & w' & Hrun).
  rewrite Hrun. pose proof (scopes_loop_snapshot _ _ _ _ _ Hrun) as Hsnap.
  destruct (scopes_loop_effects _ _ _ _ _ Hrun) as [Hs Hl].
  destruct w' as [s' log']. cbn in Hs, Hl. subst. reflexivity.
Qed.

Lemma closure_scopes_elem (scope : @Scope Num) (scopes : list (@Scope Num)) :
  scope ∈ closure_scopes scopes ↔ scope ∈ scopes ∧ scope_type scope = ScopeClosure.
Proof.
  unfold closure_scopes. rewrite !list_elem_of_In, filter_In.
  split; intros [Hin Hc]; (split; [exact Hin|]).
  - destruct (scope_type scope); try discriminate Hc. reflexivity.
  - rewrite Hc. reflexivity.
Qed.

(** X1: the scopes that are not closure scopes, and the frames after the
    innermost one, play no part: handleBreakpointHit behaves on an event
    as on one whose only scopes are the closure scopes of the innermost
    frame (same result, same requests, same log); when that frame has no
    closure scope it returns the empty snapshot, asks the session nothing
    and logs nothing. *)
Theorem handleBreakpointHit_closure_scopes_only
    (event : BreakpointHitEvent) (frame : CallFrame) (frames : list CallFrame)
    (w : World) :
  callFrames (params event) = frame :: frames →
  (∀ (event' : BreakpointHitEvent) (frame' : CallFrame) (frames' : list CallFrame),
     callFrames (params event') = frame' :: frames' →
     scopeChain frame' = closure_scopes (scopeChain frame) →
     handleBreakpointHit event' w = handleBreakpointHit event w) ∧
  (closure_scopes (scopeChain frame) = [] →
   handleBreakpointHit event w = (inr empty_object, w)).
Proof.
  intros Hframes. unfold handleBreakpointHit. rewrite Hframes. cbn [nth_error].
  split.
  - intros event' frame' frames' Hframes' Hchain. rewrite Hframes'.
    cbn [nth_error]. rewrite Hchain. apply scopes_loop_closure_scopes.
  - intros Hnone. rewrite <- scopes_loop_closure_scopes, Hnone. reflexivity.
Qed.

(** X2: handleBreakpointHit sends the session one Runtime.getProperties
    request per closure scope of the innermost frame, in scope-chain
    order, whether earlier requests failed or not, and nothing else;
    each request names the object of its scope and has ownProperties,
    accessorPropertiesOnly and generatePreview false. *)
Theorem handleBreakpointHit_requests
    (event : BreakpointHitEvent) (frame : CallFrame) (frames : list CallFrame)
    (w : World) :
  callFrames (params event) = frame :: frames →
  ∃ snap w',
    handleBreakpointHit event w = (inr snap, w') ∧
    w_session w' =
      after_getProperties
        (map closure_request (closure_scopes (scopeChain frame))) (w_session w) ∧
    ∀ i ps,
      map closure_request (closure_scopes (scopeChain frame)) !! i = Some ps →
      ownProperties ps = false ∧ accessorPropertiesOnly ps = false ∧
      generatePreview ps = false ∧
      ∃ scope,
        closure_scopes (scopeChain frame) !! i = Some scope ∧
        scope ∈ scopeChain frame ∧ scope_type scope = ScopeClosure ∧
        objectId ps = ro_objectId (scope_object scope).
Proof.
  intros Hframes. unfold handleBreakpointHit. rewrite Hframes. cbn [nth_error].
  destruct (scopes_loop_returns (scopeChain frame) empty_object w)
    as (snap & w' & Hrun).
  exists snap, w'. split; [exact Hrun|].
  split; [apply (scopes_loop_effects _ _ _ _ _ Hrun)|].
  intros i ps Hps. rewrite list_lookup_fmap in Hps.
  destruct (closure_scopes (scopeChain frame) !! i) as [scope|] eqn:Hscope;
    [|discriminate].
  injection Hps as <-. repeat (split; [reflexivity|]).
  exists scope. split; [reflexivity|].
  apply list_elem_of_lookup_2, closure_scopes_elem in Hscope as [Hin Hc].
  split; [exact Hin|]. split; [exact Hc|reflexivity].
Qed.

(** X3: what handleBreakpointHit adds to the log is one error record per
    enumeration request that failed, in scope-chain order, carrying the
    error of the request; a request that succeeds logs nothing. *)
Theorem handleBreakpointHit_log
    (event : BreakpointHitEvent) (frame : CallFrame) (frames : list CallFrame)
    (w : World) :
  callFrames (params event) = frame :: frames →
  ∃ snap w',
    handleBreakpointHit event w = (inr snap, w') ∧
    w_log w' =
      w_log w ++ map failed_entry (failures (scopeChain frame) (w_session w)) ∧
    (length (w_log w') ≤
       length (w_log w) + length (closure_scopes (scopeChain frame)))%nat.
Proof.
  intros Hframes. unfold handleBreakpointHit. rewrite Hframes. cbn [nth_error].
  destruct (scopes_loop_returns (scopeChain frame) empty_object w)
    as (snap & w' & Hrun).
  exists snap, w'. split; [exact Hrun|].
  destruct (scopes_loop_effects _ _ _ _ _ Hrun) as [_ Hlog].
  split; [exact Hlog|]. rewrite Hlog, length_app, length_map.
  pose proof (failures_length (scopeChain frame) (w_session w)). lia.
Qed.

(** ** The prototype of the snapshot *)

Lemma insert_prop_plain (o : @JsObject Num) (prop : @PropertyDescriptor Num) :
  (∀ v, carries prop proto_key v → sets_prototype v = false) →
  own o !! proto_key = None ∧ proto o = ObjectPrototype →
  own (insert_prop o prop) !! proto_key = None ∧
  proto (insert_prop o prop) = ObjectPrototype.
Proof.
  intros Hplain [Hown Hproto]. unfold insert_prop.
  destruct (prop_value prop) as [ro|] eqn:Hro; [|split; assumption].
  destruct (ro_value ro) as [v|] eqn:Hv; [|split; assumption].
  unfold js_set. destruct (decide (prop_name prop = proto_key)) as [Hname|Hname].
  - rewrite (bool_decide_eq_true_2 _ Hname).
    unfold reaches_proto_setter. rewrite Hown, Hproto. cbn [andb].
    assert (Hv' : sets_prototype v = false).
    { apply Hplain. split; [exact Hname|]. eauto. }
    destruct v; try discriminate Hv'; split; assumption.
  - rewrite (bool_decide_eq_false_2 _ Hname). cbn.
    split; [|exact Hproto]. rewrite lookup_insert_ne by exact Hname. exact Hown.
Qed.

Lemma insert_props_plain (props : list (@PropertyDescriptor Num)) (o : @JsObject Num) :
  (∀ prop v, prop ∈ props → carries prop proto_key v → sets_prototype v = false) →
  own o !! proto_key = None ∧ proto o = ObjectPrototype →
  own (insert_props props o) !! proto_key = None ∧
  proto (insert_props props o) = ObjectPrototype.
Proof.
  revert o. induction props as [|prop props IH]; intros o Hplain Ho; [exact Ho|].
  cbn. apply IH.
  - intros prop' v Hin. apply Hplain. right. exact Hin.
  - apply insert_prop_plain; [|exact Ho].
    intros v. apply Hplain. left.
Qed.

(** X4: as long as no closure variable named [__proto__] has an object or
    null for value, the snapshot handleBreakpointHit returns keeps the
    prototype of a plain object and has no property of that name: a
    variable [__proto__] holding a number, a string or a boolean is
    dropped without a trace. *)
Theorem handleBreakpointHit_keeps_prototype
    (event : BreakpointHitEvent) (frame : CallFrame) (frames : list CallFrame)
    (w : World) :
  callFrames (params event) = frame :: frames →
  (∀ prop v, prop ∈ enumerated (scopeChain frame) (w_session w) →
     carries prop proto_key v → sets_prototype v = false) →
  ∃ snap w',
    handleBreakpointHit event w = (inr snap, w') ∧
    proto snap = ObjectPrototype ∧
    own snap !! proto_key = None.
Proof.
  intros Hframes Hplain. unfold handleBreakpointHit. rewrite Hframes.
  cbn [nth_error].
  destruct (scopes_loop_returns (scopeChain frame) empty_object w)
    as (snap & w' & Hrun).
  exists snap, w'. split; [exact Hrun|].
  apply scopes_loop_snapshot in Hrun. subst snap.
  destruct (insert_props_plain
              (enumerated (scopeChain frame) (w_session w)) empty_object Hplain)
    as [Hown Hproto]; [split; reflexivity|].
  split; assumption.
Qed.

(** ** The script-source resolver: what it asks and what it logs *)

Lemma answers_app (ids1 ids2 : list JsString) (s : Sess) :
  answers (ids1 ++ ids2) s =
  answers ids1 s ++ answers ids2 (after_getScriptSource ids1 s).
Proof.
  revert s. induction ids1 as [|scriptId rest IH]; intros s; [reflexivity|].
  cbn [app answers]. unfold after_getScriptSource. cbn [fold_left].
  fold (after_getScriptSource rest).
  destruct (post_getScriptSource scriptId s) as [a s']. cbn [snd].
  rewrite IH. reflexivity.
Qed.

Lemma after_getScriptSource_app (ids1 ids2 : list JsString) (s : Sess) :
  after_getScriptSource (ids1 ++ ids2) s =
  after_getScriptSource ids2 (after_getScriptSource ids1 s).
Proof. apply fold_left_app. Qed.

(** The whole effect of the loop: the entries, the session and the log. *)
Lemma resolve_loop_world (scriptIds : list JsString) (results : list LookupEntry)
    (w : World) :
  resolve_loop scriptIds results w =
  (inr (results ++ map entry_of_answer (answers scriptIds (w_session w))),
   {| w_session := after_getScriptSource scriptIds (w_session w);
      w_log := w_log w ++
        zip_with lookup_entry scriptIds (answers scriptIds (w_session w)) |}).
Proof.
  revert results w. induction scriptIds as [|scriptId rest IH]; intros results w.
  - destruct w as [s log]. cbn. rewrite !app_nil_r. reflexivity.
  - rewrite resolve_loop_cons. cbn [answers].
    unfold after_getScriptSource. cbn [fold_left].
    fold (after_getScriptSource rest).
    destruct (post_getScriptSource scriptId (w_session w)) as [a s'].
    rewrite IH. cbn [w_session w_log snd map zip_with].
    rewrite <- !app_assoc. reflexivity.
Qed.

(** X5: resolveScriptIdToFile never throws.  It sends the session one
    Debugger.getScriptSource request; when the session answers, the
    result is the answer and one debug record holding it is logged; when
    the request fails, the result is undefined and one error record is
    logged, whose message names the script id and which carries the
    error. *)
Theorem resolveScriptIdToFile_never_throws (scriptId : JsString) (w : World) :
  ∃ r w',
    resolveScriptIdToFile scriptId w = (inr r, w') ∧
    w_session w' = snd (post_getScriptSource scriptId (w_session w)) ∧
    match fst (post_getScriptSource scriptId (w_session w)) with
    | inr a =>
        r = Some a ∧
        w_log w' = w_log w ++
          [{| log_level := LevelDebug; log_message := js "Script source";
              log_context := CtxResult a |}]
    | inl err =>
        r = None ∧
        w_log w' = w_log w ++
          [{| log_level := LevelError;
              log_message := js "Error resolving scriptId " ++ scriptId ++ js ":";
              log_context := CtxErr err |}]
    end.
Proof.
  rewrite resolveScriptIdToFile_eq.
  destruct (post_getScriptSource scriptId (w_session w)) as [[err|a] s'];
    eexists _, _; (split; [reflexivity|]); cbn; auto.
Qed.

(** X6: resolveMultipleScriptIds sends the session one request per
    requested id, in order, whether earlier requests failed or not, and
    logs one record per id, in order: the debug record of the answer or
    the error record of the single lookup.  The catch clause of its loop
    is never entered: no entry of the result is a failure record and no
    record of the log carries an [{ error }] context. *)
Theorem resolveMultipleScriptIds_effects (scriptIds : list JsString) (w : World) :
  ∃ results w',
    resolveMultipleScriptIds scriptIds w = (inr results, w') ∧
    w_session w' = after_getScriptSource scriptIds (w_session w) ∧
    w_log w' = w_log w ++
      zip_with lookup_entry scriptIds (answers scriptIds (w_session w)) ∧
    length (w_log w') = (length (w_log w) + length scriptIds)%nat ∧
    Forall (fun e => is_failure_record e = false) results ∧
    Forall (fun entry => ∀ error, log_context entry ≠ CtxError error)
      (zip_with lookup_entry scriptIds (answers scriptIds (w_session w))).
Proof.
  unfold resolveMultipleScriptIds. rewrite resolve_loop_world.
  eexists _, _. split; [reflexivity|]. cbn [w_session w_log app].
  split; [reflexivity|]. split; [reflexivity|]. split; [|split].
  - rewrite length_app, length_zip_with, answers_length. lia.
  - apply Forall_forall. intros e He. apply list_elem_of_In in He.
    apply in_map_iff in He as (a & <- & _). destruct a; reflexivity.
  - apply Forall_forall. intros entry Hentry.
    apply elem_of_lookup_zip_with in Hentry as (i & scriptId & a & -> & _ & _).
    intros error. destruct a; discriminate.
Qed.

(** X7: resolveMultipleScriptIds is the single lookup repeated: looking up
    an id and then the rest, or a first list and then a second one from
    the world the first run leaves, gives the entries of the whole list
    and the same final world. *)
Theorem resolveMultipleScriptIds_composes (w : World) :
  (∀ (scriptId : JsString) (rest : list JsString),
     ∃ r w1 results w2,
       resolveScriptIdToFile scriptId w = (inr r, w1) ∧
       resolveMultipleScriptIds rest w1 = (inr results, w2) ∧
       resolveMultipleScriptIds (scriptId :: rest) w
         = (inr (entry_of r :: results), w2)) ∧
  (∀ ids1 ids2 : list JsString,
     ∃ r1 w1 r2 w2,
       resolveMultipleScriptIds ids1 w = (inr r1, w1) ∧
       resolveMultipleScriptIds ids2 w1 = (inr r2, w2) ∧
       resolveMultipleScriptIds (ids1 ++ ids2) w = (inr (r1 ++ r2), w2)).
Proof.
  unfold resolveMultipleScriptIds. split.
  - intros scriptId rest. rewrite resolve_loop_cons, resolveScriptIdToFile_eq.
    destruct (post_getScriptSource scriptId (w_session w)) as [[err|a] s'];
      eexists _, _, _, _; (split; [reflexivity|]);
      rewrite !resolve_loop_world; split; reflexivity.
  - intros ids1 ids2. eexists _, _, _, _. rewrite !resolve_loop_world.
    split; [reflexivity|]. split; [reflexivity|].
    cbn [w_session w_log app]. rewrite answers_app, map_app.
    rewrite after_getScriptSource_app.
    rewrite zip_with_app by (symmetry; apply answers_length).
    rewrite <- app_assoc. reflexivity.
Qed.

(** C7: when the property enumeration of a closure scope fails,
    handleBreakpointHit returns a snapshot and throws nothing; it goes on
    with the scopes that follow, from the snapshot built so far.  The
    failure is logged: the log ends with the records of the failures
    before, the record of this failure, and those of the failures after.
    The scopes that follow are still asked.  The failing scope
    contributes nothing: off [__proto__] the snapshot is the
    last-write-wins merge of the descriptors of the scopes before and of
    the scopes after, and a variable of a later scope is captured with
    the value of its last descriptor. *)
Theorem handleBreakpointHit_skips_failed_scope
    (event : BreakpointHitEvent) (frame : CallFrame) (frames : list CallFrame)
    (pre post : list Scope) (scope : Scope)
    (w : World) (err : JsError) (s2 : Sess) :
  callFrames (params event) = frame :: frames →
  scopeChain frame = pre ++ scope :: post →
  is_closure (scope_type scope) = true →
  post_getProperties (closure_request scope)
    (after_getProperties (map closure_request (closure_scopes pre)) (w_session w))
  = (inl err, s2) →
  ∃ snap w',
    handleBreakpointHit event w = (inr snap, w') ∧
    handleBreakpointHit event w =
      scopes_loop post
        (insert_props (enumerated pre (w_session w)) empty_object)
        {| w_session := s2;
           w_log := (w_log w ++ map failed_entry (failures pre (w_session w)))
                    ++ [failed_entry err] |} ∧
    w_log w' =
      w_log w ++ map failed_entry (failures pre (w_session w))
            ++ failed_entry err :: map failed_entry (failures post s2) ∧
    w_session w' =
      after_getProperties (map closure_request (closure_scopes post)) s2 ∧
    (∀ n, n ≠ proto_key →
       own snap !! n =
       merge_primitive (enumerated pre (w_session w) ++ enumerated post s2) !! n) ∧
    (∀ n v before prop after,
       n ≠ proto_key →
       enumerated post s2 = before ++ prop :: after →
       carries prop n v →
       (∀ later x, later ∈ after → ¬ carries later n x) →
       own snap !! n = Some v).
Proof.
  intros Hframes Hchain Hclosure Hfail.
  unfold handleBreakpointHit. rewrite Hframes. cbn [nth_error].
  rewrite Hchain, scopes_loop_app, (scopes_loop_world pre), scopes_loop_cons,
    Hclosure.
  cbn [w_session w_log]. rewrite Hfail.
  eexists _, _. split; [apply scopes_loop_world|]. split; [reflexivity|].
  cbn [w_session w_log]. split; [rewrite <- !app_assoc; reflexivity|].
  split; [reflexivity|].
  assert (Hsnap : insert_props (enumerated post s2)
                    (insert_props (enumerated pre (w_session w)) empty_object)
                  = insert_props
                      (enumerated pre (w_session w) ++ enumerated post s2)
                      empty_object).
  { unfold insert_props. rewrite fold_left_app. reflexivity. }
  rewrite Hsnap.
  assert (Hmerge : ∀ n, n ≠ proto_key →
            own (insert_props
                   (enumerated pre (w_session w) ++ enumerated post s2)
                   empty_object) !! n =
            merge_primitive
              (enumerated pre (w_session w) ++ enumerated post s2) !! n).
  { intros n Hn. apply insert_props_agree; [exact Hn|reflexivity]. }
  split; [exact Hmerge|].
  intros n v before prop after Hn Hsplit Hc Hafter.
  rewrite Hmerge by exact Hn. unfold merge_primitive.
  rewrite Hsplit, app_assoc. apply merge_into_last; assumption.
Qed.

End CoreEffects.

Lemma handleBreakpointHit_closure_scopes_only_witness :
  callFrames (params (paused [demo_frame])) = demo_frame :: [] ∧
  (∀ (event' : @BreakpointHitEvent Z) frame' frames',
     callFrames (params event') = frame' :: frames' →
     scopeChain frame' = closure_scopes (scopeChain demo_frame) →
     handleBreakpointHit event' demo_world
     = handleBreakpointHit (paused [demo_frame]) demo_world) ∧
  (closure_scopes (scopeChain demo_frame) = [] →
   handleBreakpointHit (paused [demo_frame]) demo_world
   = (inr empty_object, demo_world)).
Proof.
  split; [reflexivity|].
  apply (handleBreakpointHit_closure_scopes_only
           (paused [demo_frame]) demo_frame [] demo_world).
  reflexivity.
Defined.

Lemma handleBreakpointHit_requests_witness :
  callFrames (params (paused [demo_frame])) = demo_frame :: [] ∧
  ∃ snap w',
    handleBreakpointHit (paused [demo_frame]) demo_world = (inr snap, w') ∧
    w_session w' =
      after_getProperties
        (map closure_request (closure_scopes (scopeChain demo_frame)))
        (w_session demo_world) ∧
    ∀ i ps,
      map closure_request (closure_scopes (scopeChain demo_frame)) !! i = Some ps →
      ownProperties ps = false ∧ accessorPropertiesOnly ps = false ∧
      generatePreview ps = false ∧
      ∃ scope,
        closure_scopes (scopeChain demo_frame) !! i = Some scope ∧
        scope ∈ scopeChain demo_frame ∧ scope_type scope = ScopeClosure ∧
        objectId ps = ro_objectId (scope_object scope).
Proof.
  split; [reflexivity|].
  apply (handleBreakpointHit_requests (paused [demo_frame]) demo_frame [] demo_world).
  reflexivity.
Defined.

Lemma handleBreakpointHit_log_witness :
  callFrames (params (paused [demo_frame])) = demo_frame :: [] ∧
  failures (scopeChain demo_frame) (w_session demo_world) = [no_object] ∧
  ∃ snap w',
    handleBreakpointHit (paused [demo_frame]) demo_world = (inr snap, w') ∧
    w_log w' =
      w_log demo_world ++
      map failed_entry (failures (scopeChain demo_frame) (w_session demo_world)) ∧
    (length (w_log w') ≤
       length (w_log demo_world) + length (closure_scopes (scopeChain demo_frame)))%nat.
Proof.
  split; [reflexivity|]. split; [reflexivity|].
  apply (handleBreakpointHit_log (paused [demo_frame]) demo_frame [] demo_world).
  reflexivity.
Defined.

Lemma handleBreakpointHit_keeps_prototype_witness :
  callFrames (params (paused [{| functionName := js "f";
                                 scopeChain := [object_of ScopeClosure "1"] |}]))
    = {| functionName := js "f"; scopeChain := [object_of ScopeClosure "1"] |} :: [] ∧
  enumerated [object_of ScopeClosure "1"] (w_session proto_world)
    = [data "__proto__" (num 1); data "x" (num 5)] ∧
  ∃ snap w',
    handleBreakpointHit
      (paused [{| functionName := js "f";
                  scopeChain := [object_of ScopeClosure "1"] |}]) proto_world
    = (inr snap, w') ∧
    proto snap = ObjectPrototype ∧
    own snap !! proto_key = None.
Proof.
  split; [reflexivity|]. split; [reflexivity|].
  apply (handleBreakpointHit_keeps_prototype
           (paused [{| functionName := js "f";
                       scopeChain := [object_of ScopeClosure "1"] |}])
           {| functionName := js "f"; scopeChain := [object_of ScopeClosure "1"] |}
           [] proto_world); [reflexivity|].
  intros prop v Hin (Hname & ro & Hro & Hv).
  change (prop ∈ [data "__proto__" (num 1); data "x" (num 5)]) in Hin.
  apply elem_of_cons in Hin as [->|Hin].
  - injection Hro as <-. injection Hv as <-. reflexivity.
  - apply list_elem_of_singleton in Hin. subst prop. discriminate Hname.
Defined.

Lemma handleBreakpointHit_skips_failed_scope_witness :
  callFrames (params (paused [demo_frame])) = demo_frame :: [] ∧
  scopeChain demo_frame =
    [object_of ScopeLocal "0"; object_of ScopeClosure "1"]
    ++ object_of ScopeClosure "2"
    :: [object_of ScopeClosure "3"; object_of ScopeGlobal "4"] ∧
  is_closure (scope_type (object_of ScopeClosure "2")) = true ∧
  post_getProperties (closure_request (object_of ScopeClosure "2"))
    (after_getProperties
       (map closure_request
          (closure_scopes [object_of ScopeLocal "0"; object_of ScopeClosure "1"]))
       (w_session demo_world))
  = (inl no_object, demo_session) ∧
  ∃ snap w',
    handleBreakpointHit (paused [demo_frame]) demo_world = (inr snap, w') ∧
    handleBreakpointHit (paused [demo_frame]) demo_world =
      scopes_loop [object_of ScopeClosure "3"; object_of ScopeGlobal "4"]
        (insert_props
           (enumerated [object_of ScopeLocal "0"; object_of ScopeClosure "1"]
              (w_session demo_world))
           empty_object)
        {| w_session := demo_session;
           w_log :=
             (w_log demo_world ++
              map failed_entry
                (failures [object_of ScopeLocal "0"; object_of ScopeClosure "1"]
                   (w_session demo_world)))
             ++ [failed_entry no_object] |} ∧
    w_log w' =
      w_log demo_world ++
      map failed_entry
        (failures [object_of ScopeLocal "0"; object_of ScopeClosure "1"]
           (w_session demo_world))
      ++ failed_entry no_object
      :: map failed_entry
           (failures [object_of ScopeClosure "3"; object_of ScopeGlobal "4"]
              demo_session) ∧
    w_session w' =
      after_getProperties
        (map closure_request
           (closure_scopes [object_of ScopeClosure "3"; object_of ScopeGlobal "4"]))
        demo_session ∧
    (∀ n, n ≠ proto_key →
       own snap !! n =
       merge_primitive
         (enumerated [object_of ScopeLocal "0"; object_of ScopeClosure "1"]
            (w_session demo_world)
          ++ enumerated [object_of ScopeClosure "3"; object_of ScopeGlobal "4"]
               demo_session) !! n) ∧
    (∀ n v before prop after,
       n ≠ proto_key →
       enumerated [object_of ScopeClosure "3"; object_of ScopeGlobal "4"]
         demo_session = before ++ prop :: after →
       carries prop n v →
       (∀ later x, later ∈ after → ¬ carries later n x) →
       own snap !! n = Some v).
Proof.
  split; [reflexivity|]. split; [reflexivity|]. split; [reflexivity|].
  split; [reflexivity|].
  apply (handleBreakpointHit_skips_failed_scope
           (paused [demo_frame]) demo_frame []
           [object_of ScopeLocal "0"; object_of ScopeClosure "1"]
           [object_of ScopeClosure "3"; object_of ScopeGlobal "4"]
           (object_of ScopeClosure "2")
           demo_world no_object demo_session);
    reflexivity.
Defined.

(** The scope 2 fails; the variable y of the scope 3 after it is
    captured, and the failure is the one record of the log. *)
Example demo_failed_scope_is_skipped :
  ∃ snap w',
    handleBreakpointHit (paused [demo_frame]) demo_world = (inr snap, w') ∧
    own snap !! js "y" = Some (JNum 7%Z) ∧
    w_log w' = [failed_entry no_object].
Proof. eexists _, _. split; [reflexivity|]. split; vm_compute; reflexivity. Qed.

(** ** The pause-event waiter: invariants and several calls *)

Section WaiterInvariants.
Context {Num : Type}.
Local Open Scope nat_scope.

Implicit Types (st : @State Num) (ev v : @BreakpointHitEvent Num)
  (l : Listener) (p q : nat).

Lemma resolve_frame p v st :
  next_listener (resolve p v st) = next_listener st ∧
  length (promises (resolve p v st)) = length (promises st) ∧
  console (resolve p v st) = console st.
Proof.
  unfold resolve. destruct (promises st !! p) as [[]|]; cbn;
    rewrite ?length_insert; auto.
Qed.

Lemma fire_frame ev st l :
  next_listener (fire ev st l) = next_listener st ∧
  length (promises (fire ev st l)) = length (promises st) ∧
  console (fire ev st l) =
    console st ++ (if is_waiter l then [PausedLine ev] else []).
Proof.
  unfold fire, call, is_waiter. destruct (l_callback l) as [p|].
  - destruct (resolve_frame p ev
                (console_log (PausedLine ev)
                   (if l_once l then removeListener l st else st)))
      as (Hn & Hp & Hc).
    rewrite Hn, Hp, Hc. destruct (l_once l); cbn; auto.
  - rewrite app_nil_r. destruct (l_once l); cbn; auto.
Qed.

Lemma fold_fire_frame ev (ls : list Listener) st :
  next_listener (fold_left (fire ev) ls st) = next_listener st ∧
  length (promises (fold_left (fire ev) ls st)) = length (promises st) ∧
  console (fold_left (fire ev) ls st) =
    console st ++ map (fun _ => PausedLine ev) (List.filter is_waiter ls).
Proof.
  revert st. induction ls as [|l ls IH]; intros st.
  - cbn. rewrite app_nil_r. auto.
  - cbn [fold_left List.filter].
    destruct (IH (fire ev st l)) as (Hn & Hp & Hc).
    destruct (fire_frame ev st l) as (Hn' & Hp' & Hc').
    rewrite Hn, Hp, Hc, Hn', Hp', Hc'. split; [reflexivity|].
    split; [reflexivity|].
    destruct (is_waiter l); cbn [map]; rewrite <- app_assoc; reflexivity.
Qed.

Lemma fold_fire_awaiting ev (ls : list Listener) st p :
  awaiting p ev st → awaiting p ev (fold_left (fire ev) ls st).
Proof.
  revert st. induction ls as [|l ls IH]; intros st Hp; [exact Hp|].
  cbn. apply IH, fire_awaiting, Hp.
Qed.

Lemma emit_all_settled (evs : list BreakpointHitEvent) st p :
  promises st !! p = Some Pending →
  promises (emit_all evs st) !! p = Some Pending ∨
  ∃ ev, ev ∈ evs ∧ promises (emit_all evs st) !! p = Some (Fulfilled ev).
Proof.
  revert st. induction evs as [|ev evs IH]; intros st Hp; [left; exact Hp|].
  cbn [emit_all fold_left]. fold (emit_all evs (emit ev st)).
  destruct (fold_fire_awaiting ev (listeners st) st p (or_introl Hp)) as [Hq|Hq].
  - destruct (IH (emit ev st) Hq) as [Hr|(ev' & Hin & Hr)]; [left; exact Hr|].
    right. exists ev'. split; [right; exact Hin|exact Hr].
  - right. exists ev. split; [left|]. apply emit_all_fulfilled. exact Hq.
Qed.

Lemma getNextPausedEvent_pending st :
  promises (snd (getNextPausedEvent st)) !! fst (getNextPausedEvent st)
  = Some Pending.
Proof.
  cbn. rewrite lookup_app_r by lia. rewrite Nat.sub_diag. reflexivity.
Qed.

(** X8: the invariant of the session state is kept by a call of
    getNextPausedEvent and by every pause event: the registered listeners
    have identities handed out earlier and the callbacks of the waiter
    resolve promises that exist; neither operation removes a promise. *)
Theorem state_ok_preserved st :
  state_ok st →
  state_ok (snd (getNextPausedEvent st)) ∧
  length (promises (snd (getNextPausedEvent st))) = S (length (promises st)) ∧
  ∀ ev,
    state_ok (emit ev st) ∧
    length (promises (emit ev st)) = length (promises st).
Proof.
  intros Hok. split; [|split].
  - intros l Hl. cbn in Hl. apply elem_of_app in Hl as [Hl|Hl].
    + destruct (Hok l Hl) as [Hid Hq]. cbn. split; [lia|].
      intros q Hcb. specialize (Hq q Hcb). rewrite length_app. cbn. lia.
    + apply list_elem_of_singleton in Hl. subst l. cbn. split; [lia|].
      intros q [= <-]. rewrite length_app. cbn. lia.
  - cbn. rewrite length_app. cbn. lia.
  - intros ev. unfold emit.
    destruct (fold_fire_frame ev (listeners st) st) as (Hn & Hp & _).
    split; [|exact Hp].
    intros l Hl. apply fold_fire_listeners in Hl as [Hin _].
    destruct (Hok l Hin) as [Hid Hq]. rewrite Hn, Hp. split; assumption.
Qed.

(** X9: the promise getNextPausedEvent returns is never rejected: whatever
    listeners the session has and whatever pause events it emits, the
    promise is pending, or fulfilled with one of the emitted events; as
    long as no event is emitted it stays pending. *)
Theorem getNextPausedEvent_never_rejects st (evs : list BreakpointHitEvent) :
  let p := fst (getNextPausedEvent st) in
  let st1 := snd (getNextPausedEvent st) in
  (promises (emit_all evs st1) !! p = Some Pending ∨
   ∃ ev, ev ∈ evs ∧ promises (emit_all evs st1) !! p = Some (Fulfilled ev)) ∧
  (∀ e, promises (emit_all evs st1) !! p ≠ Some (Rejected e)) ∧
  promises (emit_all [] st1) !! p = Some Pending.
Proof.
  intros p st1.
  pose proof (emit_all_settled evs st1 p (getNextPausedEvent_pending st)) as Hs.
  split; [exact Hs|]. split; [|apply getNextPausedEvent_pending].
  intros e He. destruct Hs as [Hs|(ev & _ & Hs)]; congruence.
Qed.

(** X10: two calls of getNextPausedEvent made before a pause event return
    two different promises, both pending; the event fulfils both with
    the same event, and prints one console line for each, after the
    lines of the waiters registered earlier. *)
Theorem getNextPausedEvent_two_waiters st ev :
  let p1 := fst (getNextPausedEvent st) in
  let st1 := snd (getNextPausedEvent st) in
  let p2 := fst (getNextPausedEvent st1) in
  let st2 := snd (getNextPausedEvent st1) in
  p1 ≠ p2 ∧
  promises st2 !! p1 = Some Pending ∧
  promises st2 !! p2 = Some Pending ∧
  promises (emit ev st2) !! p1 = Some (Fulfilled ev) ∧
  promises (emit ev st2) !! p2 = Some (Fulfilled ev) ∧
  console (emit ev st2) =
    console st ++
    map (fun _ => PausedLine ev) (List.filter is_waiter (listeners st)) ++
    [PausedLine ev; PausedLine ev].
Proof.
  intros p1 st1 p2 st2.
  assert (Hne : p1 ≠ p2).
  { subst p1 p2 st1. cbn. rewrite length_app. cbn. lia. }
  assert (H2 : promises st2 !! p2 = Some Pending)
    by apply getNextPausedEvent_pending.
  assert (H1 : promises st2 !! p1 = Some Pending).
  { subst p1 st2 st1. cbn. rewrite <- app_assoc.
    rewrite lookup_app_r by lia. rewrite Nat.sub_diag. reflexivity. }
  split; [exact Hne|]. split; [exact H1|]. split; [exact H2|].
  split; [|split].
  - unfold emit.
    apply (fold_fire_settles ev _ _
             {| l_id := next_listener st; l_once := true;
                l_callback := ResolveNext p1 |}).
    + subst st2 st1. cbn. apply elem_of_app. left. apply elem_of_app. right. left.
    + reflexivity.
    + left. exact H1.
  - unfold emit.
    apply (fold_fire_settles ev _ _
             {| l_id := next_listener st1; l_once := true;
                l_callback := ResolveNext p2 |}).
    + subst st2. cbn. apply elem_of_app. right. left.
    + reflexivity.
    + left. exact H2.
  - unfold emit.
    destruct (fold_fire_frame ev (listeners st2) st2) as (_ & _ & Hc).
    rewrite Hc. subst st2 st1. cbn [getNextPausedEvent snd once listeners console].
    rewrite !List.filter_app, !map_app. cbn. rewrite <- !app_assoc. reflexivity.
Qed.

End WaiterInvariants.

Lemma state_ok_preserved_witness :
  state_ok idle_state ∧
  state_ok (snd (getNextPausedEvent idle_state)) ∧
  length (promises (snd (getNextPausedEvent idle_state)))
    = S (length (promises idle_state)) ∧
  ∀ ev : @BreakpointHitEvent Z,
    state_ok (emit ev idle_state) ∧
    length (promises (emit ev idle_state)) = length (promises idle_state).
Proof.
  assert (Hok : state_ok idle_state).
  { intros l Hl. apply list_elem_of_singleton in Hl. subst l. cbn.
    split; [lia|discriminate]. }
  split; [exact Hok|].
  apply (state_ok_preserved idle_state Hok).
Defined.

(** ** extractSourceMapUrl: the shape of the result *)

Section ExtractFacts.

Lemma no_occurrence_before (sep s a r : JsString) :
  sep ≠ [] → first_occurrence sep s a r → no_occurrence sep a.
Proof.
  intros Hsep [-> Hmin] x y Ha. subst a.
  assert (E : (x ++ sep ++ y) ++ sep ++ r = x ++ sep ++ (y ++ sep ++ r))
    by (rewrite <- !app_assoc; reflexivity).
  specialize (Hmin x (y ++ sep ++ r) E). rewrite !length_app in Hmin.
  destruct sep; [contradiction|]. cbn in Hmin. lia.
Qed.

Lemma no_occurrence_comma (r : JsString) :
  Forall (fun x => x ≠ 44) r → no_occurrence base64_marker r.
Proof.
  intros Hr a r' Heq. rewrite Heq in Hr.
  apply Forall_app in Hr as [_ Hr]. apply Forall_app in Hr as [Hr _].
  rewrite Forall_forall in Hr. apply (Hr 44); [|reflexivity].
  unfold base64_marker. do 6 right. left.
Qed.

Lemma first_occurrence_comma (a r : JsString) :
  Forall (fun x => x ≠ 44) a →
  first_occurrence base64_marker (a ++ base64_marker ++ r) a r.
Proof.
  intros Ha. split; [reflexivity|]. intros a' r' Heq.
  destruct (le_lt_dec (length a) (length a')) as [Hle|Hlt]; [exact Hle|exfalso].
  assert (Hc : (a ++ base64_marker ++ r) !! (length a' + 6)%nat = Some 44).
  { rewrite Heq. rewrite lookup_app_r by lia.
    replace (length a' + 6 - length a')%nat with 6%nat by lia. reflexivity. }
  destruct (le_lt_dec (length a) (length a' + 6)) as [Hin|Hout].
  - rewrite lookup_app_r in Hc by lia.
    remember (length a' + 6 - length a)%nat as j eqn:Hj.
    assert (Hj6 : (j < 6)%nat) by lia. unfold base64_marker in Hc.
    destruct j as [|[|[|[|[|[|j]]]]]]; cbn in Hc; try discriminate Hc. lia.
  - rewrite lookup_app_l in Hc by lia.
    rewrite Forall_lookup in Ha. apply (Ha _ _ Hc). reflexivity.
Qed.

Lemma marker_value_head (x : N) (s : JsString) :
  x ≠ 47 → marker_value (x :: s) = None.
Proof.
  intros Hx. apply marker_value_None. intros v Hm.
  apply marker_at_slashes in Hm as [tail [= -> _]]. contradiction.
Qed.

Lemma marker_literal_no_slash : Forall (fun x => x ≠ 47) marker_literal.
Proof. unfold marker_literal. repeat (constructor; [discriminate|]). constructor. Qed.

Lemma base64_marker_no_break :
  Forall (fun x => Regex.isLineTerminator x = false) base64_marker.
Proof. unfold base64_marker. repeat constructor. Qed.

(** The scan passes over a prefix none of whose positions starts a
    match. *)
Lemma exec_skip (ts : list Regex.term) (p t : JsString) :
  (∀ p1 x p2, p = p1 ++ x :: p2 → Regex.run ts [] (x :: p2 ++ t) = None) →
  Regex.exec ts (p ++ t) = Regex.exec ts t.
Proof.
  induction p as [|x p IH]; intros Hfail; [reflexivity|].
  cbn [app Regex.exec]. rewrite (Hfail [] x p eq_refl).
  apply IH. intros p1 y p2 ->. apply (Hfail (x :: p1) y p2). reflexivity.
Qed.

Lemma marker_free_until_true (n : nat) (text : JsString) :
  marker_free_until n text = true → no_marker_before n text.
Proof.
  intros Hfree pre s v -> Hlt Hm. unfold marker_free_until in Hfree.
  rewrite forallb_forall in Hfree. specialize (Hfree (length pre)).
  rewrite drop_app_length, (proj2 (marker_value_Some s v) Hm) in Hfree.
  assert (Hin : In (length pre) (seq 0 n)) by (apply in_seq; lia).
  discriminate (Hfree Hin).
Qed.

(** No marker starts in a stretch of text without a slash. *)
Lemma no_slash_no_marker (pre rest : JsString) :
  Forall (fun x => x ≠ 47) pre → no_marker_before (length pre) (pre ++ rest).
Proof.
  intros Hpre pre' s' v' Heq Hlt Hm.
  apply marker_at_slashes in Hm as [tail ->].
  assert (Hx : pre !! length pre' = Some 47).
  { rewrite <- (lookup_app_l pre rest) by exact Hlt.
    rewrite Heq, lookup_app_r by lia. rewrite Nat.sub_diag. reflexivity. }
  rewrite Forall_lookup in Hpre. apply (Hpre _ _ Hx). reflexivity.
Qed.

(** The scan passes over the positions at which no marker starts. *)
Lemma exec_no_marker_before (pre rest : JsString) :
  no_marker_before (length pre) (pre ++ rest) →
  Regex.exec sourceMapRegex (pre ++ rest) = Regex.exec sourceMapRegex rest.
Proof.
  intros Hbefore. apply exec_skip. intros p1 x p2 ->.
  rewrite run_marker_value. apply marker_value_None. intros v.
  apply (Hbefore p1 (x :: p2 ++ rest)).
  - rewrite <- app_assoc. reflexivity.
  - rewrite length_app. cbn. lia.
Qed.

(** A marker whose value holds one [base64,], after a part without
    comma. *)
Lemma marker_payload (pre ws mime payload rest : JsString) (c : N) :
  no_marker_before (length pre)
    (pre ++ [47; 47; c] ++ ws ++ marker_literal
         ++ (mime ++ base64_marker ++ payload) ++ rest) →
  c = 35 ∨ c = 64 →
  Forall (fun x => Regex.isSpace x = true) ws →
  Forall (fun x => Regex.isLineTerminator x = false ∧ x ≠ 44) mime →
  Forall (fun x => Regex.isLineTerminator x = false ∧ x ≠ 44) payload →
  at_line_end rest = true →
  extractSourceMapUrl
    (pre ++ [47; 47; c] ++ ws ++ marker_literal
         ++ (mime ++ base64_marker ++ payload) ++ rest)
  = JsStr payload.
Proof.
  intros Hpre Hc Hws Hmime Hpayload Hrest.
  assert (Hexec : Regex.exec sourceMapRegex
            (pre ++ [47; 47; c] ++ ws ++ marker_literal
                 ++ (mime ++ base64_marker ++ payload) ++ rest)
          = Some (mime ++ base64_marker ++ payload)).
  { apply exec_first_marker. eexists pre, _. split; [reflexivity|]. split.
    - exists c, ws, rest. split; [reflexivity|]. split; [exact Hc|].
      split; [exact Hws|]. split; [destruct mime; discriminate|].
      split; [|apply at_line_end_true, Hrest].
      apply Forall_app. split.
      { eapply Forall_impl; [exact Hmime|]. intros x [Hx _]. exact Hx. }
      apply Forall_app. split; [exact base64_marker_no_break|].
      eapply Forall_impl; [exact Hpayload|]. intros x [Hx _]. exact Hx.
    - intros pre' s' v' Heq Hlt. exact (Hpre pre' s' v' Heq Hlt). }
  unfold extractSourceMapUrl. rewrite Hexec.
  assert (Hocc : first_occurrence base64_marker
                   (mime ++ base64_marker ++ payload) mime payload).
  { apply first_occurrence_comma.
    eapply Forall_impl; [exact Hmime|]. intros x [_ Hx]. exact Hx. }
  rewrite (indexOf_found _ _ _ _ Hocc).
  rewrite (split_second_last _ _ _ _ base64_marker_nonempty Hocc); [reflexivity|].
  apply no_occurrence_comma.
  eapply Forall_impl; [exact Hpayload|]. intros x [_ Hx]. exact Hx.
Qed.

(** X11: extractSourceMapUrl never returns undefined; a string it
    returns is a piece of the text that holds no line terminator and no
    [base64,]. *)
Theorem extractSourceMapUrl_result (text : JsString) :
  extractSourceMapUrl text ≠ JsUndefined ∧
  ∀ r, extractSourceMapUrl text = JsStr r →
    (∃ a b, text = a ++ r ++ b) ∧
    Forall (fun x => Regex.isLineTerminator x = false) r ∧
    no_occurrence base64_marker r.
Proof.
  unfold extractSourceMapUrl.
  destruct (Regex.exec sourceMapRegex text) as [v|] eqn:Hexec;
    [|split; [discriminate|intros r [=]]].
  apply exec_first_marker in Hexec as (pre & s & -> & Hm & _).
  destruct Hm as (c & ws & rest & -> & _ & _ & _ & Hv & _).
  destruct (indexOf_spec base64_marker v) as [(a & r0 & Hocc & _)|[Hno _]].
  - rewrite (indexOf_found _ _ _ _ Hocc). pose proof Hocc as [Hsplit _].
    subst v. apply Forall_app in Hv as [_ Hv]. apply Forall_app in Hv as [_ Hv].
    destruct (occurrence_cases base64_marker r0) as [Hno|(r1 & r2 & Hnext)].
    + rewrite (split_second_last _ _ _ _ base64_marker_nonempty Hocc Hno).
      split; [discriminate|]. intros r [= <-]. split; [|split; assumption].
      exists (pre ++ [47; 47; c] ++ ws ++ marker_literal ++ a ++ base64_marker), rest.
      rewrite <- !app_assoc. reflexivity.
    + rewrite (split_second_between _ _ _ _ _ _ base64_marker_nonempty Hocc Hnext).
      split; [discriminate|]. intros r [= <-].
      pose proof (no_occurrence_before _ _ _ _ base64_marker_nonempty Hnext) as Hno.
      destruct Hnext as [-> _]. apply Forall_app in Hv as [Hv _].
      split; [|split; assumption].
      exists (pre ++ [47; 47; c] ++ ws ++ marker_literal ++ a ++ base64_marker),
             (base64_marker ++ r2 ++ rest).
      rewrite <- !app_assoc. reflexivity.
  - rewrite (indexOf_missing _ _ Hno). split; [discriminate|].
    intros r [= <-]. split; [|split; assumption].
    exists (pre ++ [47; 47; c] ++ ws ++ marker_literal), rest.
    rewrite <- !app_assoc. reflexivity.
Qed.

(** X12: for a marker comment that is the first in the text, with nothing
    but text free of slashes before it, whose value is a part without
    comma (the media type of a data URL), then [base64,], then a payload
    without comma that runs to the end of the line, extractSourceMapUrl
    returns the payload, whatever the white space after [//#] or [//@]
    and whatever follows the line. *)
Theorem extractSourceMapUrl_data_url (pre ws mime payload rest : JsString) (c : N) :
  Forall (fun x => x ≠ 47) pre →
  c = 35 ∨ c = 64 →
  Forall (fun x => Regex.isSpace x = true) ws →
  Forall (fun x => Regex.isLineTerminator x = false ∧ x ≠ 44) mime →
  Forall (fun x => Regex.isLineTerminator x = false ∧ x ≠ 44) payload →
  at_line_end rest = true →
  extractSourceMapUrl
    (pre ++ [47; 47; c] ++ ws ++ marker_literal
         ++ (mime ++ base64_marker ++ payload) ++ rest)
  = JsStr payload.
Proof. intros Hpre. apply marker_payload, no_slash_no_marker, Hpre. Qed.

(** X13: a marker comment without a value is not a marker: when no
    marker comment starts before it and the literal [sourceMappingURL=]
    is followed at once by the end of the line, extractSourceMapUrl
    passes over the comment and answers as for the text after it. *)
Theorem extractSourceMapUrl_empty_value (pre ws tail : JsString) (c : N) :
  no_marker_before (length pre)
    (pre ++ [47; 47; c] ++ ws ++ marker_literal ++ tail) →
  c = 35 ∨ c = 64 →
  Forall (fun x => Regex.isSpace x = true) ws →
  at_line_end tail = true →
  extractSourceMapUrl (pre ++ [47; 47; c] ++ ws ++ marker_literal ++ tail)
  = extractSourceMapUrl tail.
Proof.
  intros Hbefore Hc Hws Htail. unfold extractSourceMapUrl.
  rewrite (exec_no_marker_before pre _ Hbefore).
  replace ([47; 47; c] ++ ws ++ marker_literal ++ tail)
    with ((47 :: 47 :: c :: ws ++ marker_literal) ++ tail)
    by (cbn [app]; rewrite <- app_assoc; reflexivity).
  rewrite exec_skip; [reflexivity|].
  intros p1 x p2 Hsplit. rewrite run_marker_value.
  destruct p1 as [|a [|b [|d q]]]; cbn [app] in Hsplit.
  - injection Hsplit as <- <-. cbn [app marker_value].
    rewrite (proj2 (isHashOrAt_true c) Hc).
    rewrite <- app_assoc, drop_while_app by exact Hws.
    assert (Hdrop : drop_while Regex.isSpace (marker_literal ++ tail)
                    = marker_literal ++ tail) by reflexivity.
    rewrite Hdrop.
    rewrite (proj2 (strip_prefix_Some marker_literal _ tail) eq_refl).
    destruct tail as [|y tail]; [reflexivity|].
    cbn in Htail. cbn [take_while]. unfold Regex.isDot. rewrite Htail. reflexivity.
  - injection Hsplit as _ <- <-. destruct Hc as [->| ->]; reflexivity.
  - injection Hsplit as _ _ <- _. destruct Hc as [->| ->]; reflexivity.
  - injection Hsplit as _ _ _ Hsplit. apply marker_value_head.
    assert (Hin : x ∈ ws ++ marker_literal).
    { rewrite Hsplit. apply elem_of_app. right. left. }
    apply elem_of_app in Hin as [Hin|Hin].
    + rewrite Forall_forall in Hws. specialize (Hws x Hin).
      intros ->. discriminate Hws.
    + pose proof marker_literal_no_slash as Hlit.
      rewrite Forall_forall in Hlit. exact (Hlit x Hin).
Qed.

Lemma base64_char_plain (v : N) :
  Regex.isLineTerminator (base64_char v) = false ∧ base64_char v ≠ 44.
Proof.
  unfold base64_char, Regex.isLineTerminator.
  destruct (N.ltb_spec v 26); [|destruct (N.ltb_spec v 52);
    [|destruct (N.ltb_spec v 62); [|destruct (N.eqb_spec v 62)]]].
  all: split; [|lia].
  all: rewrite !orb_false_iff, !N.eqb_neq; repeat split; lia.
Qed.

(** The text the encoder writes holds no comma and no line terminator. *)
Lemma base64_encode_plain (bytes : list N) :
  Forall (fun x => Regex.isLineTerminator x = false ∧ x ≠ 44) (base64_encode bytes).
Proof.
  assert (Hpad : Regex.isLineTerminator 61 = false ∧ 61 ≠ 44)
    by (split; [reflexivity|discriminate]).
  induction bytes as [|a|a b|a b c rest IH] using list_ind3; cbn [base64_encode app].
  - constructor.
  - repeat (constructor; [first [apply base64_char_plain|exact Hpad]|]). constructor.
  - repeat (constructor; [first [apply base64_char_plain|exact Hpad]|]). constructor.
  - repeat (constructor; [apply base64_char_plain|]). exact IH.
Qed.

End ExtractFacts.

Lemma extractSourceMapUrl_data_url_witness :
  Forall (fun x => x ≠ 47) (js "let a = 1;" ++ [10]) ∧
  (35 = 35 ∨ 35 = 64) ∧
  Forall (fun x => Regex.isSpace x = true) [32; 10; 9] ∧
  Forall (fun x => Regex.isLineTerminator x = false ∧ x ≠ 44) media_type ∧
  Forall (fun x => Regex.isLineTerminator x = false ∧ x ≠ 44) (js "eyJ9") ∧
  at_line_end (10 :: js "// end") = true ∧
  extractSourceMapUrl
    ((js "let a = 1;" ++ [10]) ++ [47; 47; 35] ++ [32; 10; 9] ++ marker_literal
       ++ (media_type ++ base64_marker ++ js "eyJ9") ++ 10 :: js "// end")
  = JsStr (js "eyJ9").
Proof.
  assert (H1 : Forall (fun x => x ≠ 47) (js "let a = 1;" ++ [10]))
    by (repeat (constructor; [discriminate|]); constructor).
  assert (H2 : Forall (fun x => Regex.isSpace x = true) [32; 10; 9])
    by (repeat constructor).
  assert (H3 : Forall (fun x => Regex.isLineTerminator x = false ∧ x ≠ 44) media_type)
    by (repeat (constructor; [split; [reflexivity|discriminate]|]); constructor).
  assert (H4 : Forall (fun x => Regex.isLineTerminator x = false ∧ x ≠ 44) (js "eyJ9"))
    by (repeat (constructor; [split; [reflexivity|discriminate]|]); constructor).
  split; [exact H1|]. split; [left; reflexivity|]. split; [exact H2|].
  split; [exact H3|]. split; [exact H4|]. split; [reflexivity|].
  apply (extractSourceMapUrl_data_url
           (js "let a = 1;" ++ [10]) [32; 10; 9] media_type (js "eyJ9")
           (10 :: js "// end") 35 H1 (or_introl eq_refl) H2 H3 H4 eq_refl).
Defined.

Lemma extractSourceMapUrl_empty_value_witness :
  no_marker_before (length (js "// code" ++ [10]))
    ((js "// code" ++ [10]) ++ [47; 47; 35] ++ [32] ++ marker_literal
       ++ 10 :: js "//# sourceMappingURL=b.map") ∧
  (35 = 35 ∨ 35 = 64) ∧
  Forall (fun x => Regex.isSpace x = true) [32] ∧
  at_line_end (10 :: js "//# sourceMappingURL=b.map") = true ∧
  extractSourceMapUrl
    ((js "// code" ++ [10]) ++ [47; 47; 35] ++ [32] ++ marker_literal
       ++ 10 :: js "//# sourceMappingURL=b.map")
  = extractSourceMapUrl (10 :: js "//# sourceMappingURL=b.map").
Proof.
  assert (H1 : no_marker_before (length (js "// code" ++ [10]))
                 ((js "// code" ++ [10]) ++ [47; 47; 35] ++ [32] ++ marker_literal
                    ++ 10 :: js "//# sourceMappingURL=b.map"))
    by (apply marker_free_until_true; vm_compute; reflexivity).
  assert (H2 : Forall (fun x => Regex.isSpace x = true) [32]) by (repeat constructor).
  split; [exact H1|]. split; [left; reflexivity|]. split; [exact H2|].
  split; [reflexivity|].
  apply (extractSourceMapUrl_empty_value
           (js "// code" ++ [10]) [32] (10 :: js "//# sourceMappingURL=b.map") 35
           H1 (or_introl eq_refl) H2 eq_refl).
Defined.

(** The text above has a marker further down: its value is the result. *)
Example empty_value_then_marker :
  extractSourceMapUrl
    ((js "// code" ++ [10]) ++ [47; 47; 35] ++ [32] ++ marker_literal
       ++ 10 :: js "//# sourceMappingURL=b.map")
  = JsStr (js "b.map").
Proof. vm_compute. reflexivity. Qed.

(** ** From the text of a script to its source map *)

Section InlineSourceMap.
Context {Num : Type} `{!JsNumber Num}.

(** X14: the two halves of the codec compose: for a script whose first
    marker comment is an inline source map, that is the data URL of the
    base64 encoding of a document, running to the end of its line,
    extractSourceMapUrl returns the encoding and getSourceMapJSON reads
    the document back from it, logging nothing; what stands before the
    comment may be any text in which no marker comment starts. *)
Theorem inline_source_map_round_trip
    (doc : JsVal Num) (pre rest : JsString) (log : list LogEntry) :
  document doc →
  no_marker_before (length pre)
    (pre ++ inline_marker ++ encodeSourceMap doc ++ rest) →
  at_line_end rest = true →
  extractSourceMapUrl (pre ++ inline_marker ++ encodeSourceMap doc ++ rest)
    = JsStr (encodeSourceMap doc) ∧
  getSourceMapJSON (encodeSourceMap doc) log = (doc, log).
Proof.
  intros Hdoc Hpre Hrest. split.
  - assert (E : inline_marker ++ encodeSourceMap doc ++ rest =
                [47; 47; 35] ++ [32] ++ marker_literal
                  ++ (media_type ++ base64_marker ++ encodeSourceMap doc) ++ rest)
      by reflexivity.
    rewrite E in Hpre |- *. apply marker_payload.
    + exact Hpre.
    + left. reflexivity.
    + repeat constructor.
    + unfold media_type.
      repeat (constructor; [split; [reflexivity|discriminate]|]). constructor.
    + apply base64_encode_plain.
    + exact Hrest.
  - unfold getSourceMapJSON.
    rewrite (decoded_text doc Hdoc), (JSON_parse_stringify doc Hdoc). reflexivity.
Qed.

(** X15: text in which the base64 decoder finds fewer than two characters
    of its alphabet before the first [=], the empty string included,
    decodes to no byte at all: getSourceMapJSON returns null and logs the
    syntax error of JSON.parse on the empty text. *)
Theorem getSourceMapJSON_short_input (text : JsString) (log : list LogEntry) :
  (length (legal_sextets text) < 2)%nat →
  getSourceMapJSON text log
  = (@JNull Num, log ++ [parse_failed_entry SyntaxError]).
Proof.
  intros Hshort. unfold getSourceMapJSON, Buffer_from_base64.
  destruct (legal_sextets text) as [|a [|b l]]; [reflexivity|reflexivity|].
  cbn in Hshort. lia.
Qed.

End InlineSourceMap.

Lemma inline_source_map_round_trip_witness :
  document demo_map ∧
  no_marker_before (length (js "// code" ++ [10]))
    ((js "// code" ++ [10]) ++ inline_marker ++ encodeSourceMap demo_map
       ++ 10 :: js "// end") ∧
  at_line_end (10 :: js "// end") = true ∧
  extractSourceMapUrl
    ((js "// code" ++ [10]) ++ inline_marker ++ encodeSourceMap demo_map
       ++ 10 :: js "// end")
    = JsStr (encodeSourceMap demo_map) ∧
  getSourceMapJSON (encodeSourceMap demo_map) [] = (demo_map, []).
Proof.
  assert (H1 : no_marker_before (length (js "// code" ++ [10]))
                 ((js "// code" ++ [10]) ++ inline_marker
                    ++ encodeSourceMap demo_map ++ 10 :: js "// end"))
    by (apply marker_free_until_true; vm_compute; reflexivity).
  split; [exact demo_map_document|]. split; [exact H1|]. split; [reflexivity|].
  apply (inline_source_map_round_trip demo_map (js "// code" ++ [10])
           (10 :: js "// end") [] demo_map_document H1 eq_refl).
Defined.

Lemma getSourceMapJSON_short_input_witness :
  (length (legal_sextets (js "e=30")) < 2)%nat ∧
  @getSourceMapJSON JsString _ (js "e=30") []
  = (JNull, [parse_failed_entry SyntaxError]).
Proof.
  assert (H1 : (length (legal_sextets (js "e=30")) < 2)%nat) by (vm_compute; lia).
  split; [exact H1|].
  apply (getSourceMapJSON_short_input (js "e=30") [] H1).
Defined.

(** ** Texts without a marker *)

(** X16: a text that does not hold the literal [sourceMappingURL=], or
    that does not hold two slashes in a row, has no source-map URL:
    extractSourceMapUrl returns null; so it does on the empty text. *)
Theorem extractSourceMapUrl_no_literal (text : JsString) :
  no_occurrence marker_literal text ∨ no_occurrence [47; 47] text →
  extractSourceMapUrl text = JsNull.
Proof.
  intros Hno. unfold extractSourceMapUrl.
  rewrite (proj2 (exec_no_marker text)); [reflexivity|].
  intros pre s v -> (c & ws & rest & -> & _). destruct Hno as [Hno|Hno].
  - apply (Hno (pre ++ [47; 47; c] ++ ws) (v ++ rest)).
    rewrite <- !app_assoc. reflexivity.
  - apply (Hno pre (c :: ws ++ marker_literal ++ v ++ rest)). reflexivity.
Qed.

Lemma extractSourceMapUrl_no_literal_witness :
  (no_occurrence marker_literal (js "let q = a / b; /* sourceMappingURL= */") ∨
   no_occurrence [47; 47] (js "let q = a / b; /* sourceMappingURL= */")) ∧
  extractSourceMapUrl (js "let q = a / b; /* sourceMappingURL= */") = JsNull.
Proof.
  assert (Hno : no_occurrence [47; 47] (js "let q = a / b; /* sourceMappingURL= */")).
  { destruct (indexOf_spec [47; 47] (js "let q = a / b; /* sourceMappingURL= */"))
      as [(a & r & _ & Hidx)|[Hno _]]; [exfalso|exact Hno].
    assert (E : indexOf [47; 47] (js "let q = a / b; /* sourceMappingURL= */")
                = (-1)%Z) by reflexivity.
    rewrite E in Hidx. lia. }
  split; [right; exact Hno|].
  apply (extractSourceMapUrl_no_literal
           (js "let q = a / b; /* sourceMappingURL= */") (or_intror Hno)).
Defined.
